(** * typehunt: the duplicate-detection core

    A shallow embedding of the shape normalizer ([normalizeShape],
    [normalizeWhitespace], [formatSnippet]), the declaration extractor
    ([collectDeclarations]), the grouping engine ([groupBy],
    [filterDuplicateGroups]) and the argument parser ([parseArgs]) of the
    TypeScript sources, followed by the properties the specification states
    about them.  The path utilities ([toPosix], [matchesExclude]), the
    batched collection and the exit code of the command line ([run]) and
    the report formatters (text, JSON payload, Markdown) are embedded as
    well, with the properties the code itself shows.

    JavaScript strings are sequences of UTF-16 code units: a string is a
    [list char] with [char := N].  Every [String.prototype.replace] call of
    the sources is a matcher (one per regular-expression literal) handed to
    one of two engines, [replaceAll] (flag [g]) and [replaceFirst]. *)

From Stdlib Require Import String Ascii.
From Stdlib Require Import NArith ZArith Bool Lia List.
From Stdlib Require Import Sorting.Sorted Sorting.Permutation.
From Stdlib Require Import DecimalString.
Import ListNotations.

(* ------------------------------------------------------------------ *)
(** ** Strings *)
(* ------------------------------------------------------------------ *)

Module Js.

Definition char := N.
Definition str := list char.

(** A string literal of the sources (ASCII text) as code units. *)
Definition js (s : string) : str :=
  List.map N_of_ascii (list_ascii_of_string s).

(** The double quote, which the literals above never contain. *)
Definition dq : char := 34%N.

Definition str_eqb (a b : str) : bool :=
  if list_eq_dec N.eq_dec a b then true else false.

(** [\w] of a non-unicode regular expression: [A-Za-z0-9_]. *)
Definition is_word (c : char) : bool :=
  ((48 <=? c) && (c <=? 57) || (65 <=? c) && (c <=? 90)
   || (97 <=? c) && (c <=? 122) || (c =? 95))%N.

(** Line terminators: LF, CR, U+2028, U+2029 (what [.] refuses and what
    [$] stops at under flag [m]). *)
Definition is_line_terminator (c : char) : bool :=
  ((c =? 10) || (c =? 13) || (c =? 8232) || (c =? 8233))%N.

(** [\s]: the white space and line terminator code units; also what
    [String.prototype.trim] removes. *)
Definition is_space (c : char) : bool :=
  ((9 <=? c) && (c <=? 13) || (c =? 32) || (c =? 160) || (c =? 5760)
   || (8192 <=? c) && (c <=? 8202) || (c =? 8232) || (c =? 8233)
   || (c =? 8239) || (c =? 8287) || (c =? 12288) || (c =? 65279))%N.

Definition opt_word (o : option char) : bool :=
  match o with Some c => is_word c | None => false end.

(** [\b] between the code unit before a position and the one after it. *)
Definition word_boundary (prev next : option char) : bool :=
  xorb (opt_word prev) (opt_word next).

Fixpoint starts_with (p s : str) : bool :=
  match p, s with
  | [], _ => true
  | _ :: _, [] => false
  | a :: p', b :: s' => (a =? b)%N && starts_with p' s'
  end.

(** Length of the longest prefix whose code units satisfy [f]. *)
Fixpoint span_len (f : char -> bool) (s : str) : nat :=
  match s with
  | c :: r => if f c then S (span_len f r) else 0
  | [] => 0
  end.

(** The last code unit of [s], or [prev] when [s] is empty. *)
Fixpoint last_opt (prev : option char) (s : str) : option char :=
  match s with
  | [] => prev
  | c :: r => last_opt (Some c) r
  end.

(** *** The replace engines

    A matcher receives the code unit before the current position ([None] at
    the start of the input) and the rest of the input, and answers the
    length of the match that starts here, if there is one. *)
Definition matcher := option char -> str -> option nat.

(** [s.replace(/re/g, r)]: matches are found left to right and do not
    overlap; [skip] counts the code units of the current match still to be
    dropped.  After an empty match the engine copies one code unit and
    moves on, as [lastIndex] does. *)
Fixpoint replaceAll_from (m : matcher) (r : str) (prev : option char)
         (skip : nat) (s : str) : str :=
  match s with
  | [] =>
      match skip, m prev [] with
      | O, Some O => r
      | _, _ => []
      end
  | c :: t =>
      match skip with
      | S k => replaceAll_from m r (Some c) k t
      | O =>
          match m prev s with
          | Some O => r ++ c :: replaceAll_from m r (Some c) 0 t
          | Some (S k) => r ++ replaceAll_from m r (Some c) k t
          | None => c :: replaceAll_from m r (Some c) 0 t
          end
      end
  end.

Definition replaceAll (m : matcher) (r s : str) : str :=
  replaceAll_from m r None 0 s.

(** [s.replace(/re/, r)]: only the leftmost match is replaced. *)
Fixpoint replaceFirst_from (m : matcher) (r : str) (prev : option char)
         (s : str) : str :=
  match m prev s with
  | Some k => r ++ skipn k s
  | None =>
      match s with
      | [] => []
      | c :: t => c :: replaceFirst_from m r (Some c) t
      end
  end.

Definition replaceFirst (m : matcher) (r s : str) : str :=
  replaceFirst_from m r None s.

(** [String.prototype.trim]. *)
Fixpoint trimStart (s : str) : str :=
  match s with
  | c :: r => if is_space c then trimStart r else s
  | [] => []
  end.

Definition trimEnd (s : str) : str := rev (trimStart (rev s)).

Definition trim (s : str) : str := trimEnd (trimStart s).

(** [s.slice(a, b)] with the negative-index and clamping rules. *)
Definition slice_index (len i : Z) : nat :=
  Z.to_nat (if (i <? 0)%Z then Z.max (len + i) 0 else Z.min i len).

Definition slice (s : str) (a b : Z) : str :=
  let len := Z.of_nat (length s) in
  let from := slice_index len a in
  let to := slice_index len b in
  firstn (to - from) (skipn from s).

End Js.
Import Js.

(* ------------------------------------------------------------------ *)
(** ** utils.ts: string utilities *)
(* ------------------------------------------------------------------ *)

Definition SLASH : char := 47%N.
Definition STAR : char := 42%N.
Definition SPACE : char := 32%N.

(** Offset of the first [*/] in [s], if any. *)
Fixpoint find_close (s : str) : option nat :=
  match s with
  | a :: ((b :: _) as t) =>
      if ((a =? STAR) && (b =? SLASH))%N then Some 0
      else option_map S (find_close t)
  | _ => None
  end.

(** [/\/\*[\s\S]*?\*\//]: a block comment up to the first [*/]. *)
Definition re_block_comment : matcher := fun _ s =>
  match s with
  | a :: b :: rest =>
      if ((a =? SLASH) && (b =? STAR))%N
      then option_map (fun j => 2 + j + 2) (find_close rest)
      else None
  | _ => None
  end.

(** [/\/\/.*$/m]: [//] and the rest of the line. *)
Definition re_line_comment : matcher := fun _ s =>
  match s with
  | a :: b :: rest =>
      if ((a =? SLASH) && (b =? SLASH))%N
      then Some (2 + span_len (fun c => negb (is_line_terminator c)) rest)
      else None
  | _ => None
  end.

(** [/\s+/]: a maximal run of white space. *)
Definition re_spaces : matcher := fun _ s =>
  match span_len is_space s with
  | O => None
  | n => Some n
  end.

(** Collapse all whitespace and strip comments from a code string. *)
Definition normalizeWhitespace (text : str) : str :=
  trim
    (replaceAll re_spaces [SPACE]
       (replaceAll re_line_comment [SPACE]
          (replaceAll re_block_comment [SPACE] text))).

Definition MAX_SNIPPET_LENGTH : Z := 200.

(** Produce a compact, truncated snippet for display. *)
Definition formatSnippet (rawSnippet : str) (maxLength : Z) : str :=
  let compact := normalizeWhitespace rawSnippet in
  if (Z.of_nat (length compact) <=? maxLength)%Z then compact
  else slice compact 0 (maxLength - 3) ++ js "...".

(* ------------------------------------------------------------------ *)
(** ** analyzer.ts: the shape normalizer *)
(* ------------------------------------------------------------------ *)

Definition PLACEHOLDER : str := js "__NAME__".

(** The code units of the class in [escapeRegExp]:
    . * + ? ^ $ { } ( ) | [ ] and the backslash. *)
Definition BACKSLASH : char := 92%N.

Definition is_regexp_special (c : char) : bool :=
  existsb (N.eqb c)
    [46; 42; 43; 63; 94; 36; 123; 125; 40; 41; 124; 91; 93; 92]%N.

(** Escape special regex characters in a string. *)
Definition escapeRegExp (value : str) : str :=
  flat_map (fun c => if is_regexp_special c then [BACKSLASH; c] else [c])
           value.

(** The text a pattern source matches when it is made of ordinary code
    units and escaped syntax characters only; any other pattern source is
    outside this fragment. *)
Fixpoint pattern_literal (p : str) : option str :=
  match p with
  | [] => Some []
  | a :: t =>
      if (a =? BACKSLASH)%N then
        match t with
        | b :: r =>
            if is_regexp_special b
            then option_map (cons b) (pattern_literal r)
            else None
        | [] => None
        end
      else if is_regexp_special a then None
      else option_map (cons a) (pattern_literal t)
  end.

(** [\b<lit>\b]. *)
Definition re_whole_word (lit : str) : matcher := fun prev s =>
  if word_boundary prev (hd_error s) && starts_with lit s
     && word_boundary (last_opt prev lit) (hd_error (skipn (length lit) s))
  then Some (length lit) else None.

(** [new RegExp(`\\b${escapeRegExp(name)}\\b`, "g")]. *)
Definition namedPattern (name : str) : matcher :=
  match pattern_literal (escapeRegExp name) with
  | Some lit => re_whole_word lit
  | None => fun _ _ => None
  end.

(** [/\binterface\s+__NAME__\s*\{/]. *)
Definition re_interface : matcher := fun prev s =>
  if word_boundary prev (hd_error s) && starts_with (js "interface") s then
    let s1 := skipn 9 s in
    let a := span_len is_space s1 in
    if (1 <=? a) && starts_with PLACEHOLDER (skipn a s1) then
      let s2 := skipn 8 (skipn a s1) in
      let b := span_len is_space s2 in
      if starts_with (js "{") (skipn b s2)
      then Some (9 + a + 8 + b + 1) else None
    else None
  else None.

(** [/^export\s+/]: only at the start of the input. *)
Definition re_export : matcher := fun prev s =>
  match prev with
  | Some _ => None
  | None =>
      if starts_with (js "export") s then
        let a := span_len is_space (skipn 6 s) in
        if 1 <=? a then Some (6 + a) else None
      else None
  end.

(** [/\bconst\s+enum\b/]. *)
Definition re_const_enum : matcher := fun prev s =>
  if word_boundary prev (hd_error s) && starts_with (js "const") s then
    let s1 := skipn 5 s in
    let a := span_len is_space s1 in
    if (1 <=? a) && starts_with (js "enum") (skipn a s1)
       && word_boundary (Some 109%N) (hd_error (skipn 4 (skipn a s1)))
    then Some (5 + a + 4) else None
  else None.

(** [/\s*;\s*$/]: one semicolon, with the white space around it, at the
    very end of the input. *)
Definition re_trailing_semicolon : matcher := fun _ s =>
  let a := span_len is_space s in
  match skipn a s with
  | c :: r =>
      if (c =? 59)%N && (span_len is_space r =? length r)
      then Some (length s) else None
  | [] => None
  end.

(** Create a normalised shape string for duplicate comparison. *)
Definition normalizeShape (rawSnippet name : str) : str :=
  let compact := normalizeWhitespace rawSnippet in
  let compact := replaceAll (namedPattern name) PLACEHOLDER compact in
  let compact :=
    replaceFirst re_interface (js "type __NAME__ = {") compact in
  let compact := replaceFirst re_export [] compact in
  let compact := replaceFirst re_const_enum (js "enum") compact in
  let compact := replaceFirst re_trailing_semicolon [] compact in
  compact.

(* ------------------------------------------------------------------ *)
(** ** types.ts *)
(* ------------------------------------------------------------------ *)

Inductive DeclarationKind := KInterface | KType | KEnum | KReexport.

Record DeclarationRecord := mkRecord {
  name : str;
  kind : DeclarationKind;
  file : str;
  line : nat;
  snippet : str;
  normalizedShape : str;
  isReExport : bool;
  propertyCount : nat;
  propertyNames : list str
}.

(* ------------------------------------------------------------------ *)
(** ** utils.ts: collection utilities *)
(* ------------------------------------------------------------------ *)

(** A [Map<string, V>]: its entries in insertion order, keys distinct. *)
Module JsMap.
Section JsMap.
Variable V : Type.

Definition t := list (str * V).

Definition get (key : str) (m : t) : option V :=
  option_map snd (find (fun e => str_eqb (fst e) key) m).

(** [set] on a key already present keeps the entry where it is. *)
Fixpoint set (key : str) (v : V) (m : t) : t :=
  match m with
  | [] => [(key, v)]
  | (k, old) :: rest =>
      if str_eqb k key then (k, v) :: rest
      else (k, old) :: set key v rest
  end.

Definition entries (m : t) : list (str * V) := m.
End JsMap.
Arguments get {V} key m.
Arguments set {V} key v m.
Arguments entries {V} m.
End JsMap.

(** [Array.prototype.sort] with a comparator: the sort is stable, and for
    a consistent comparator its result is the one stable arrangement,
    which insertion from the right computes. *)
Section Sort.
Variable A : Type.
Variable cmp : A -> A -> Z.

Fixpoint sort_insert (x : A) (l : list A) : list A :=
  match l with
  | [] => [x]
  | y :: r => if (cmp x y <=? 0)%Z then x :: l else y :: sort_insert x r
  end.

Fixpoint sort (l : list A) : list A :=
  match l with
  | [] => []
  | x :: r => sort_insert x (sort r)
  end.
End Sort.
Arguments sort_insert {A} cmp x l.
Arguments sort {A} cmp l.

(** Comparison of strings by code units: the order of the default
    [Array.prototype.sort], and a collation a host may use. *)
Fixpoint codeUnitCompare (a b : str) : Z :=
  match a, b with
  | [], [] => 0
  | [], _ :: _ => -1
  | _ :: _, [] => 1
  | x :: a', y :: b' =>
      if (x <? y)%N then -1 else if (y <? x)%N then 1
      else codeUnitCompare a' b'
  end.

Section Grouping.
Variable T : Type.

(** One iteration of the loop of [groupBy].  [existing.push(item)] mutates
    the array the map holds: the entry is rewritten in place. *)
Definition groupBy_step (keyFn : T -> str) (map : JsMap.t (list T))
           (item : T) : JsMap.t (list T) :=
  let key := keyFn item in
  match JsMap.get key map with
  | Some existing => JsMap.set key (existing ++ [item]) map
  | None => JsMap.set key [item] map
  end.

(** Group items by a string key derived from each item. *)
Definition groupBy (items : list T) (keyFn : T -> str)
  : JsMap.t (list T) :=
  fold_left (groupBy_step keyFn) items [].

(** [String.prototype.localeCompare] is the host's collation and is not
    part of the sources: it is a parameter of the engine. *)
Variable localeCompare : str -> str -> Z.

(** [(a, b) => b[1].length - a[1].length || a[0].localeCompare(b[0])]. *)
Definition compareGroups (a b : str * list T) : Z :=
  let d := (Z.of_nat (length (snd b)) - Z.of_nat (length (snd a)))%Z in
  if (d =? 0)%Z then localeCompare (fst a) (fst b) else d.

(** Filter grouped entries to only those meeting the minimum count,
    sorted descending. *)
Definition filterDuplicateGroups (groups : JsMap.t (list T))
           (minCount : Z) : list (str * list T) :=
  sort compareGroups
    (filter (fun e => (minCount <=? Z.of_nat (length (snd e)))%Z)
            (JsMap.entries groups)).
End Grouping.
Arguments groupBy_step {T} keyFn map item.
Arguments groupBy {T} items keyFn.
Arguments compareGroups {T} localeCompare a b.
Arguments filterDuplicateGroups {T} localeCompare groups minCount.

(* ------------------------------------------------------------------ *)
(** ** analyzer.ts: the declaration extractor

    [ts.createSourceFile] is the TypeScript parser; the extractor is
    modelled on its result.  A node carries what the extractor reads of
    it: the kind-specific fields, [getStart(sourceFile)], [end], and the
    children [ts.forEachChild] visits, in that order. *)
(* ------------------------------------------------------------------ *)

(** A member of an interface, type literal or enum: whether it is a
    property signature, and the span of its [name] node if it has one. *)
Record Member := mkMember {
  isPropertySignature : bool;
  memberName : option (nat * nat)
}.

(** An element of a named-export clause: [propertyName as name], or
    just [name]. *)
Record ExportSpecifier := mkSpecifier {
  specPropertyName : option str;
  specName : str
}.

Inductive ExportClause :=
| NamespaceExport
| NamedExports (elements : list ExportSpecifier).

Inductive TypeNode :=
| TypeLiteralNode (members : list Member)
| OtherTypeNode.

Inductive NodeInfo :=
| InterfaceDeclaration (nameText : str) (members : list Member)
| TypeAliasDeclaration (nameText : str) (type : option TypeNode)
| EnumDeclaration (nameText : str) (members : list Member)
| ExportDeclaration (moduleSpecifier : bool)
                    (exportClause : option ExportClause)
| OtherNode.

Inductive Node :=
| mkNode (info : NodeInfo) (getStart : nat) (nodeEnd : nat)
         (children : list Node).

Definition nodeInfo (n : Node) : NodeInfo :=
  match n with mkNode i _ _ _ => i end.
Definition nodeStart (n : Node) : nat :=
  match n with mkNode _ s _ _ => s end.
Definition nodeStop (n : Node) : nat :=
  match n with mkNode _ _ e _ => e end.
Definition nodeChildren (n : Node) : list Node :=
  match n with mkNode _ _ _ c => c end.

(** [sourceText.slice(start, end)] at node positions. *)
Definition textSpan (sourceText : str) (a b : nat) : str :=
  slice sourceText (Z.of_nat a) (Z.of_nat b).

(** Number of line breaks before position [pos]: the [line] of
    [getLineAndCharacterOfPosition], which counts CR LF as one break. *)
Fixpoint lineOfPosition (text : str) (pos : nat) : nat :=
  match pos, text with
  | S p, c :: r =>
      let break :=
        if (c =? 13)%N
        then match r with
             | d :: _ => negb (d =? 10)%N
             | [] => true
             end
        else is_line_terminator c in
      (if break then 1 else 0) + lineOfPosition r p
  | _, _ => 0
  end.

Definition getLine (sourceText : str) (node : Node) : nat :=
  lineOfPosition sourceText (nodeStart node) + 1.

(** [member.name.getText(sourceFile)] of the members that pass [keep]. *)
Definition memberNames (sourceText : str) (keep : Member -> bool)
           (members : list Member) : list str :=
  flat_map
    (fun m =>
       match memberName m with
       | Some (a, b) => if keep m then [textSpan sourceText a b] else []
       | None => []
       end)
    members.

Definition extractPropertyNames (node : Node) (sourceText : str)
  : list str :=
  let names :=
    match nodeInfo node with
    | InterfaceDeclaration _ members =>
        memberNames sourceText isPropertySignature members
    | TypeAliasDeclaration _ (Some (TypeLiteralNode members)) =>
        memberNames sourceText isPropertySignature members
    | EnumDeclaration _ members =>
        memberNames sourceText (fun _ => true) members
    | _ => []
    end in
  sort codeUnitCompare names.

(** The records one statement contributes to [collectReExportRecords]. *)
Definition reExportRecordsOf (sourceText relativeFile : str)
           (statement : Node) : list DeclarationRecord :=
  match nodeInfo statement with
  | ExportDeclaration true (Some (NamedExports elements)) =>
      let stmtSnippet :=
        textSpan sourceText (nodeStart statement) (nodeStop statement) in
      List.map
        (fun el =>
           let exportedName := specName el in
           {| name := exportedName;
              kind := KReexport;
              file := relativeFile;
              line := getLine sourceText statement;
              snippet := formatSnippet stmtSnippet MAX_SNIPPET_LENGTH;
              normalizedShape := normalizeShape stmtSnippet exportedName;
              isReExport := true;
              propertyCount := 0;
              propertyNames := [] |})
        elements
  | _ => []
  end.

(** Collect names that are re-exported from other modules in a given
    file; [sourceFile.statements] are the children of the root. *)
Definition collectReExportRecords (sourceFile : Node)
           (sourceText relativeFile : str) : list DeclarationRecord :=
  flat_map (reExportRecordsOf sourceText relativeFile)
           (nodeChildren sourceFile).

(** The classification at the head of [visit]. *)
Definition classify (includeEnums : bool) (node : Node)
  : option (DeclarationKind * str) :=
  match nodeInfo node with
  | InterfaceDeclaration n _ => Some (KInterface, n)
  | TypeAliasDeclaration n _ => Some (KType, n)
  | EnumDeclaration n _ =>
      if includeEnums then Some (KEnum, n) else None
  | _ => None
  end.

(** The record [visit] pushes for a node, if any: [kind && name] refuses
    the empty name. *)
Definition declarationRecordOf (sourceText relativeFile : str)
           (includeEnums : bool) (node : Node) : list DeclarationRecord :=
  match classify includeEnums node with
  | Some (k, n) =>
      match n with
      | [] => []
      | _ :: _ =>
          let snip :=
            textSpan sourceText (nodeStart node) (nodeStop node) in
          let names := extractPropertyNames node sourceText in
          [ {| name := n;
               kind := k;
               file := relativeFile;
               line := getLine sourceText node;
               snippet := formatSnippet snip MAX_SNIPPET_LENGTH;
               normalizedShape := normalizeShape snip n;
               isReExport := false;
               propertyCount := length names;
               propertyNames := names |} ]
      end
  | None => []
  end.

(** [visit]: the node's own record, then its children's, in order. *)
Fixpoint visit (sourceText relativeFile : str) (includeEnums : bool)
         (node : Node) : list DeclarationRecord :=
  declarationRecordOf sourceText relativeFile includeEnums node
  ++ match node with
     | mkNode _ _ _ children =>
         (fix visitAll (l : list Node) : list DeclarationRecord :=
            match l with
            | [] => []
            | c :: r =>
                visit sourceText relativeFile includeEnums c ++ visitAll r
            end) children
     end.

(** [collectDeclarations], given the parsed [sourceFile] and the path of
    the file relative to the working directory. *)
Definition collectDeclarations (relativeFile sourceText : str)
           (sourceFile : Node) (includeEnums : bool)
  : list DeclarationRecord :=
  collectReExportRecords sourceFile sourceText relativeFile
  ++ visit sourceText relativeFile includeEnums sourceFile.

(* ------------------------------------------------------------------ *)
(** ** args.ts: argument parsing *)
(* ------------------------------------------------------------------ *)

Definition MODES : list str := [js "name"; js "shape"; js "both"].
Definition OUTPUT_FORMATS : list str := [js "text"; js "json"; js "markdown"].

Record CliOptions := mkOptions {
  root : str;
  mode : str;
  minCount : Z;
  format : str;
  outputFile : option str;
  failOnDuplicates : bool;
  tsconfig : option str;
  exclude : list str;
  includeEnums : bool;
  skipReExports : bool;
  help : bool
}.

(** A computation that returns or throws [new Error(message)]. *)
Inductive outcome (A : Type) :=
| Return (value : A)
| Throw (message : str).
Arguments Return {A} value.
Arguments Throw {A} message.

(** [value.split(",")]. *)
Fixpoint split_comma (s : str) : list str :=
  match s with
  | [] => [[]]
  | c :: r =>
      if (c =? 44)%N then [] :: split_comma r
      else match split_comma r with
           | w :: ws => (c :: w) :: ws
           | [] => [[c]]
           end
  end.

(** [allowed.join(", ")]. *)
Fixpoint join_comma (l : list str) : str :=
  match l with
  | [] => []
  | [a] => a
  | a :: r => a ++ js ", " ++ join_comma r
  end.

(** Read a [--flag=value] or [--flag value] string argument from argv:
    the value and the new index, or nothing when the current argument is
    not the flag. *)
Definition readStringArg (argv : list str) (index : nat) (flag : str)
  : outcome (option (str * nat)) :=
  match nth_error argv index with
  | None | Some [] => Return None
  | Some arg =>
      let prefix := flag ++ js "=" in
      if starts_with prefix arg then
        match skipn (length prefix) arg with
        | [] => Throw (js "Missing value for " ++ flag)
        | value => Return (Some (value, index))
        end
      else if str_eqb arg flag then
        match nth_error argv (index + 1) with
        | None | Some [] => Throw (js "Missing value for " ++ flag)
        | Some next => Return (Some (next, index + 1))
        end
      else Return None
  end.

(** Read a validated enum-like string argument (e.g. --mode name). *)
Definition readEnumArg (argv : list str) (index : nat) (flag : str)
           (allowed : list str) : outcome (option (str * nat)) :=
  match readStringArg argv index flag with
  | Throw e => Throw e
  | Return None => Return None
  | Return (Some (value, nextIndex)) =>
      if negb (existsb (str_eqb value) allowed) then
        Throw (js "Invalid value for " ++ flag ++ js ": " ++ value
               ++ js ". Expected: " ++ join_comma allowed)
      else Return (Some (value, nextIndex))
  end.

Definition defaultOptions : CliOptions :=
  {| root := js "src";
     mode := js "both";
     minCount := 2;
     format := js "text";
     outputFile := None;
     failOnDuplicates := false;
     tsconfig := None;
     exclude := [];
     includeEnums := true;
     skipReExports := true;
     help := false |}.

Definition with_format (v : str) (o : CliOptions) : CliOptions :=
  mkOptions (root o) (mode o) (minCount o) v (outputFile o)
            (failOnDuplicates o) (tsconfig o) (exclude o) (includeEnums o)
            (skipReExports o) (help o).
Definition with_mode (v : str) (o : CliOptions) : CliOptions :=
  mkOptions (root o) v (minCount o) (format o) (outputFile o)
            (failOnDuplicates o) (tsconfig o) (exclude o) (includeEnums o)
            (skipReExports o) (help o).
Definition with_help (o : CliOptions) : CliOptions :=
  mkOptions (root o) (mode o) (minCount o) (format o) (outputFile o)
            (failOnDuplicates o) (tsconfig o) (exclude o) (includeEnums o)
            (skipReExports o) true.
Definition with_failOnDuplicates (o : CliOptions) : CliOptions :=
  mkOptions (root o) (mode o) (minCount o) (format o) (outputFile o)
            true (tsconfig o) (exclude o) (includeEnums o)
            (skipReExports o) (help o).
Definition with_noEnums (o : CliOptions) : CliOptions :=
  mkOptions (root o) (mode o) (minCount o) (format o) (outputFile o)
            (failOnDuplicates o) (tsconfig o) (exclude o) false
            (skipReExports o) (help o).
Definition with_includeReexports (o : CliOptions) : CliOptions :=
  mkOptions (root o) (mode o) (minCount o) (format o) (outputFile o)
            (failOnDuplicates o) (tsconfig o) (exclude o) (includeEnums o)
            false (help o).
Definition with_outputFile (v : str) (o : CliOptions) : CliOptions :=
  mkOptions (root o) (mode o) (minCount o) (format o) (Some v)
            (failOnDuplicates o) (tsconfig o) (exclude o) (includeEnums o)
            (skipReExports o) (help o).
Definition with_root (v : str) (o : CliOptions) : CliOptions :=
  mkOptions v (mode o) (minCount o) (format o) (outputFile o)
            (failOnDuplicates o) (tsconfig o) (exclude o) (includeEnums o)
            (skipReExports o) (help o).
Definition with_tsconfig (v : str) (o : CliOptions) : CliOptions :=
  mkOptions (root o) (mode o) (minCount o) (format o) (outputFile o)
            (failOnDuplicates o) (Some v) (exclude o) (includeEnums o)
            (skipReExports o) (help o).
Definition with_exclude (vs : list str) (o : CliOptions) : CliOptions :=
  mkOptions (root o) (mode o) (minCount o) (format o) (outputFile o)
            (failOnDuplicates o) (tsconfig o) (exclude o ++ vs)
            (includeEnums o) (skipReExports o) (help o).
Definition with_minCount (v : Z) (o : CliOptions) : CliOptions :=
  mkOptions (root o) (mode o) v (format o) (outputFile o)
            (failOnDuplicates o) (tsconfig o) (exclude o) (includeEnums o)
            (skipReExports o) (help o).

Section ParseArgs.

(** [Number(value)] is the host's conversion and is not part of the
    sources.  [integerOf value] is [Some z] when [Number(value)] is the
    integer [z] (what [Number.isInteger] accepts) and [None] when it is
    NaN, infinite or fractional. *)
Variable integerOf : str -> option Z.

(** The body of the loop at index [i]: the options after it and the value
    of [i] at its end, before [i++]. *)
Definition parseArgs_body (argv : list str) (i : nat) (options : CliOptions)
  : outcome (CliOptions * nat) :=
  match nth_error argv i with
  | None | Some [] => Return (options, i)
  | Some arg =>
      if str_eqb arg (js "--json") then
        Return (with_format (js "json") options, i)
      else if str_eqb arg (js "--markdown") || str_eqb arg (js "--md") then
        Return (with_format (js "markdown") options, i)
      else if str_eqb arg (js "--help") || str_eqb arg (js "-h") then
        Return (with_help options, i)
      else if str_eqb arg (js "--fail-on-duplicates") then
        Return (with_failOnDuplicates options, i)
      else if str_eqb arg (js "--no-enums") then
        Return (with_noEnums options, i)
      else if str_eqb arg (js "--include-reexports") then
        Return (with_includeReexports options, i)
      else
      match readEnumArg argv i (js "--format") OUTPUT_FORMATS with
      | Throw e => Throw e
      | Return (Some (v, next)) => Return (with_format v options, next)
      | Return None =>
      match readEnumArg argv i (js "--mode") MODES with
      | Throw e => Throw e
      | Return (Some (v, next)) => Return (with_mode v options, next)
      | Return None =>
      match
        match readStringArg argv i (js "--output") with
        | Return None => readStringArg argv i (js "--out")
        | r => r
        end
      with
      | Throw e => Throw e
      | Return (Some (v, next)) => Return (with_outputFile v options, next)
      | Return None =>
      match readStringArg argv i (js "--root") with
      | Throw e => Throw e
      | Return (Some (v, next)) => Return (with_root v options, next)
      | Return None =>
      match readStringArg argv i (js "--tsconfig") with
      | Throw e => Throw e
      | Return (Some (v, next)) => Return (with_tsconfig v options, next)
      | Return None =>
      match readStringArg argv i (js "--exclude") with
      | Throw e => Throw e
      | Return (Some (v, next)) =>
          Return (with_exclude (split_comma v) options, next)
      | Return None =>
      match readStringArg argv i (js "--min") with
      | Throw e => Throw e
      | Return (Some (v, next)) =>
          match integerOf v with
          | Some z =>
              if (z <? 2)%Z
              then Throw (js "Invalid value for --min; expected integer >= 2")
              else Return (with_minCount z options, next)
          | None =>
              Throw (js "Invalid value for --min; expected integer >= 2")
          end
      | Return None => Return (options, i)
      end end end end end end end
  end.

(** [for (let i = 0; i < argv.length; i++)]: every iteration moves [i]
    forward, so [length argv] iterations are enough; [None] is the loop
    cut short by [fuel]. *)
Fixpoint parseArgs_loop (fuel : nat) (argv : list str) (i : nat)
         (options : CliOptions) : option (outcome CliOptions) :=
  if length argv <=? i then Some (Return options)
  else
    match fuel with
    | O => None
    | S fuel' =>
        match parseArgs_body argv i options with
        | Throw e => Some (Throw e)
        | Return (options', i') =>
            parseArgs_loop fuel' argv (i' + 1) options'
        end
    end.

Definition parseArgs (argv : list str) : option (outcome CliOptions) :=
  parseArgs_loop (length argv) argv 0 defaultOptions.

End ParseArgs.


Definition valueFlags : list str :=
  [js "--format"; js "--mode"; js "--output"; js "--out"; js "--root";
   js "--tsconfig"; js "--exclude"; js "--min"].

Definition names_flag (flag arg : str) : bool :=
  str_eqb arg flag || starts_with (flag ++ js "=") arg.



(** The errors [parseArgs] throws for a flag: its value is missing; or the
    flag is [--format] or [--mode] and its value is not an allowed one; or
    the flag is [--min] and its value is not an integer from 2 up. *)
Definition flag_error (integerOf : str -> option Z) (flag message : str)
  : Prop :=
  message = js "Missing value for " ++ flag
  \/ (exists value allowed,
        In (flag, allowed)
           [(js "--format", OUTPUT_FORMATS); (js "--mode", MODES)]
        /\ existsb (str_eqb value) allowed = false
        /\ message = js "Invalid value for " ++ flag ++ js ": " ++ value
                      ++ js ". Expected: " ++ join_comma allowed)
  \/ (exists value,
        flag = js "--min"
        /\ match integerOf value with
            | Some z => (z < 2)%Z
            | None => True
            end
        /\ message = js "Invalid value for --min; expected integer >= 2").

(** A decimal numeral read as an integer, a fragment of [Number]. *)
Fixpoint decimalOf (acc : Z) (s : str) : option Z :=
  match s with
  | [] => Some acc
  | c :: r =>
      if ((48 <=? c) && (c <=? 57))%N
      then decimalOf (10 * acc + Z.of_N (c - 48)) r
      else None
  end.

Definition integerOfDecimal (s : str) : option Z :=
  match s with
  | [] => None
  | _ => decimalOf 0 s
  end.

(* ------------------------------------------------------------------ *)
(** ** Vocabulary of the properties *)
(* ------------------------------------------------------------------ *)

(** The records of [items] whose key is [k], in input order. *)
Definition members_of {T : Type} (keyFn : T -> str) (k : str)
           (items : list T) : list T :=
  filter (fun r => str_eqb (keyFn r) k) items.

(** What the map of [groupBy] holds after the loop has seen [items]. *)
Definition grouped {T : Type} (keyFn : T -> str) (m : JsMap.t (list T))
           (items : list T) : Prop :=
  NoDup (map fst m)
  /\ forall k v, In (k, v) m <-> v = members_of keyFn k items /\ v <> [].

(** The order [filterDuplicateGroups] promises between an entry and any
    later one: more members, or as many and a key that does not collate
    after. *)
Definition ordered_before {T : Type} (localeCompare : str -> str -> Z)
           (a b : str * list T) : Prop :=
  length (snd b) < length (snd a)
  \/ (length (snd a) = length (snd b)
      /\ (localeCompare (fst a) (fst b) <= 0)%Z).

(** Induction on syntax trees, the children taken together. *)
Fixpoint Node_induction (P : Node -> Prop)
         (step : forall i s e cs, Forall P cs -> P (mkNode i s e cs))
         (n : Node) : P n :=
  match n with
  | mkNode i s e cs =>
      step i s e cs
        ((fix all (l : list Node) : Forall P l :=
            match l with
            | [] => Forall_nil P
            | c :: r => Forall_cons c (Node_induction P step c) (all r)
            end) cs)
  end.

(** The nodes of a tree in the order [visit] reaches them. *)
Fixpoint preorder (n : Node) : list Node :=
  n :: match n with
       | mkNode _ _ _ cs =>
           (fix all (l : list Node) : list Node :=
              match l with
              | [] => []
              | c :: r => preorder c ++ all r
              end) cs
       end.

(** Spans as a parser lays them out: a node starts before it ends, its
    children lie inside it, and each child ends before the next starts. *)
Inductive well_nested : Node -> Prop :=
| well_nested_node i s e cs :
    s <= e ->
    Forall (fun c => s <= nodeStart c /\ nodeStop c <= e) cs ->
    StronglySorted (fun a b => nodeStop a <= nodeStart b) cs ->
    Forall well_nested cs ->
    well_nested (mkNode i s e cs).

Definition starts_before (a b : Node) : Prop := nodeStart a <= nodeStart b.

Definition flush (cur : str) : list str :=
  match cur with [] => [] | _ => [cur] end.

(** The maximal runs of word code units of a string, in order; [cur] is
    the run in progress. *)
Fixpoint words_from (cur s : str) : list str :=
  match s with
  | [] => flush cur
  | c :: t =>
      if is_word c then words_from (cur ++ [c]) t
      else flush cur ++ words_from [] t
  end.

Definition words (s : str) : list str := words_from [] s.

(** A name made of word code units: an identifier without [$] and without
    letters outside ASCII. *)
Definition wordy (n : str) : Prop :=
  n <> [] /\ Forall (fun c => is_word c = true) n.

(** [\b<n>\b] matches in [s]: [s = pre ++ n ++ post] with a word boundary
    on either side of [n]. *)
Definition whole_word_occurrence (n s : str) : Prop :=
  exists pre post,
    s = pre ++ n ++ post
    /\ word_boundary (last_opt None pre) (hd_error (n ++ post)) = true
    /\ word_boundary (last_opt (last_opt None pre) n) (hd_error post) = true.

(** Number of places where [p] occurs in [s] as a substring. *)
Fixpoint occurrences (p s : str) : nat :=
  match s with
  | [] => if starts_with p [] then 1 else 0
  | _ :: t => (if starts_with p s then 1 else 0) + occurrences p t
  end.

(** A boundary with a non-word code unit on one side separates words. *)
Definition hard (a b : str) : Prop :=
  opt_word (last_opt None a) = false \/ opt_word (hd_error b) = false.

(** The two comment passes of [normalizeWhitespace]. *)
Definition stripBlock (s : str) : str := replaceAll re_block_comment [SPACE] s.
Definition stripLine (s : str) : str := replaceAll re_line_comment [SPACE] s.

(** The white-space pass, as a scan: [in_run] tells whether the code unit
    before was white space. *)
Fixpoint collapse (in_run : bool) (s : str) : str :=
  match s with
  | [] => []
  | c :: t =>
      if is_space c
      then (if in_run then [] else [SPACE]) ++ collapse true t
      else c :: collapse false t
  end.

Definition opt_space (o : option char) : bool :=
  match o with Some c => is_space c | None => false end.

(** A piece of source text in which every [/] is settled: a single code
    unit that satisfies [U] and is not [/]; a [/] that opens no comment,
    with the code unit behind it; a block comment; a line comment, free
    of [*], with its line terminator. *)
Inductive segment (U : char -> bool) : str -> Prop :=
| segment_unit c : U c = true -> c <> SLASH -> segment U [c]
| segment_slash c :
    U SLASH = true -> U c = true -> c <> SLASH -> c <> STAR ->
    segment U [SLASH; c]
| segment_block body :
    find_close body = None ->
    segment U (SLASH :: STAR :: body ++ [STAR; SLASH])
| segment_line body t :
    Forall (fun c => is_line_terminator c = false /\ c <> STAR) body ->
    is_line_terminator t = true ->
    segment U (SLASH :: SLASH :: body ++ [t]).

Inductive text (U : char -> bool) : str -> Prop :=
| text_nil : text U []
| text_cons x s : segment U x -> text U s -> text U (x ++ s).

(** Source text whose comments are complete: every [/] of it is part of
    a comment, or opens none. *)
Definition settled : str -> Prop := text (fun _ => true).

(** White space and comments: what the claim lets one insert. *)
Definition filler : str -> Prop := text is_space.

(** Whether a scan that starts in state [b] ends, after [x], on a white
    space code unit. *)
Definition ends_space (b : bool) (x : str) : bool :=
  match last_opt None x with Some c => is_space c | None => b end.

(** A matcher whose matches start with a non-word code unit and are cut
    off from what follows by a non-word code unit on one side. *)
Definition isolating (m : matcher) : Prop :=
  forall p s k,
    m p s = Some k ->
    exists c x rest,
      s = (c :: x) ++ rest /\ k = length (c :: x) /\ is_word c = false
      /\ (opt_word (last_opt None (c :: x)) = false
          \/ opt_word (hd_error rest) = false).

(** What [normalizeWhitespace] makes of a text behind a prefix that ends
    in a non-space code unit. *)
Definition tail_normalized (body : str) : str :=
  trimEnd (collapse false (stripLine (stripBlock body))).

(* ------------------------------------------------------------------ *)
(** ** Example sources *)
(* ------------------------------------------------------------------ *)

(** Example sources.  Their trees are what the TypeScript parser builds
    for them, cut down to what the extractor reads. *)
Definition fromM : str := js " from " ++ [dq] ++ js "./m" ++ [dq].

Definition exportFooBar : str := js "export { Foo, Bar }" ++ fromM.
Definition exportFooAsBar : str := js "export { Foo as Bar }" ++ fromM.
Definition exportStar : str := js "export *" ++ fromM.

Definition leaf (a b : nat) : Node := mkNode OtherNode a b [].

Definition exportFooBar_tree : Node :=
  mkNode OtherNode 0 30
    [ mkNode (ExportDeclaration true
                (Some (NamedExports [mkSpecifier None (js "Foo");
                                     mkSpecifier None (js "Bar")])))
             0 30
             [ mkNode OtherNode 7 19
                 [ mkNode OtherNode 9 12 [leaf 9 12];
                   mkNode OtherNode 14 17 [leaf 14 17] ];
               leaf 25 30 ];
      leaf 30 30 ].

Definition exportStar_tree : Node :=
  mkNode OtherNode 0 19
    [ mkNode (ExportDeclaration true None) 0 19 [leaf 14 19];
      leaf 19 19 ].

Definition reexportRecord (exportedName relativeFile statementText : str)
           (lineNumber : nat) : DeclarationRecord :=
  {| name := exportedName;
     kind := KReexport;
     file := relativeFile;
     line := lineNumber;
     snippet := statementText;
     normalizedShape := normalizeShape statementText exportedName;
     isReExport := true;
     propertyCount := 0;
     propertyNames := [] |}.

Definition LF : char := 10%N.

(** An interface written over three lines. *)
Definition multilineInterface : str :=
  js "interface Foo {" ++ [LF] ++ js "  bar: string;" ++ [LF] ++ js "}".


(** A type alias of 312 code units, on one line. *)
Definition longAlias : str :=
  js "type L = " ++ [dq] ++ repeat 97%N 300 ++ [dq] ++ js ";".

Definition longAlias_tree : Node :=
  mkNode OtherNode 0 312
    [ mkNode (TypeAliasDeclaration (js "L") (Some OtherTypeNode)) 0 312
             [ leaf 5 6; mkNode OtherNode 9 311 [leaf 9 311] ];
      leaf 312 312 ].

(* ------------------------------------------------------------------ *)
(** ** utils.ts: path utilities *)
(* ------------------------------------------------------------------ *)

Definition DOT : char := 46%N.

(** [s.split(sep)] for a separator of one code unit. *)
Fixpoint split_on (sep : char) (s : str) : list str :=
  match s with
  | [] => [[]]
  | c :: r =>
      if (c =? sep)%N then [] :: split_on sep r
      else match split_on sep r with
           | w :: ws => (c :: w) :: ws
           | [] => [[c]]
           end
  end.

(** [parts.join(glue)]. *)
Fixpoint join_with (glue : str) (parts : list str) : str :=
  match parts with
  | [] => []
  | [a] => a
  | a :: r => a ++ glue ++ join_with glue r
  end.

(** Convert a file path to POSIX-style forward slashes.  [sep] is
    [path.sep], one code unit: the backslash on Windows, the slash
    elsewhere. *)
Definition toPosix (sep : char) (filePath : str) : str :=
  join_with [SLASH] (split_on sep filePath).

(** [/^\.\/+/]: a dot and the slashes behind it, at the start of the
    input. *)
Definition re_dot_slashes : matcher := fun prev s =>
  match prev, s with
  | None, a :: rest =>
      if (a =? DOT)%N then
        match span_len (fun c => (c =? SLASH)%N) rest with
        | O => None
        | S k => Some (1 + S k)
        end
      else None
  | _, _ => None
  end.

(** [s.includes(p)]. *)
Fixpoint includes (p s : str) : bool :=
  match s with
  | [] => starts_with p []
  | _ :: t => starts_with p s || includes p t
  end.

(** Check whether a relative POSIX path matches any of the exclude
    patterns. *)
Definition matchesExclude (relPathPosix : str) (patterns : list str)
  : bool :=
  match patterns with
  | [] => false
  | _ :: _ =>
      let rel := replaceFirst re_dot_slashes [] relPathPosix in
      existsb
        (fun raw =>
           let p := replaceFirst re_dot_slashes [] (trim raw) in
           match p with
           | [] => false
           | _ :: _ =>
               str_eqb rel p || starts_with (p ++ [SLASH]) rel
               || includes p rel
           end)
        patterns
  end.

(** Where a matcher finds nothing: at no position of [s], the end
    included. *)
Fixpoint quiet (m : matcher) (s : str) : Prop :=
  m None s = None
  /\ match s with
     | [] => True
     | _ :: t => quiet m t
     end.

(** Wherever [m] finds nothing in [s], neither does [m0]. *)
Fixpoint guards (m m0 : matcher) (s : str) : Prop :=
  (forall p, m p s = None -> m0 None s = None)
  /\ match s with
     | [] => True
     | _ :: t => guards m m0 t
     end.

(** [[...new Set(values)]]: the distinct values, each where it came
    first. *)
Definition set_add (acc : list str) (v : str) : list str :=
  if existsb (str_eqb v) acc then acc else acc ++ [v].

Definition distinct (values : list str) : list str :=
  fold_left set_add values [].

(** Options a run can work with: what the checks of [parseArgs] let
    through. *)
Definition usable (o : CliOptions) : Prop :=
  In (mode o) MODES
  /\ In (format o) OUTPUT_FORMATS
  /\ (2 <= minCount o)%Z
  /\ root o <> []
  /\ outputFile o <> Some []
  /\ tsconfig o <> Some [].

(** A result of [readStringArg] or of the loop body, with its index moved
    from a reading at [i] to one at [i']. *)
Definition moved {A : Type} (i i' : nat) (r : outcome (option (A * nat)))
  : outcome (option (A * nat)) :=
  match r with
  | Return (Some (v, j)) => Return (Some (v, i' + (j - i)))
  | other => other
  end.

Definition moved_body {A : Type} (i i' : nat) (r : outcome (A * nat))
  : outcome (A * nat) :=
  match r with
  | Return (o, j) => Return (o, i' + (j - i))
  | Throw e => Throw e
  end.

(* ------------------------------------------------------------------ *)
(** ** cli.ts: collecting and counting *)
(* ------------------------------------------------------------------ *)

(** Number of files to read concurrently during declaration collection. *)
Definition FILE_READ_CONCURRENCY : nat := 50.

(** Maximum length for shape preview in text output. *)
Definition MAX_PREVIEW_LENGTH : Z := 120.

Module FileError.
Record t := mk { file : str; error : str }.
End FileError.

(** [array.slice(a, b)]. *)
Definition array_slice {A : Type} (l : list A) (a b : Z) : list A :=
  let len := Z.of_nat (length l) in
  let from := slice_index len a in
  let to := slice_index len b in
  firstn (to - from) (skipn from l).

Section CollectAll.

(** The [try] block for one file: [fs.readFile] and [collectDeclarations]
    on its text, or the message of what was thrown.  The file system and
    the parser are not part of the sources; a file is read once, so they
    stand here as a function of the path. *)
Variable analyse : str -> outcome (list DeclarationRecord).

(** [toPosix(path.relative(process.cwd(), file))]. *)
Variable relativeOf : str -> str.

(** The loop over the results of a batch: [declarations.push(...)] or
    [errors.push(...)]. *)
Definition collect_result
           (acc : list DeclarationRecord * list FileError.t)
           (result : str * outcome (list DeclarationRecord))
  : list DeclarationRecord * list FileError.t :=
  match snd result with
  | Return records => (fst acc ++ records, snd acc)
  | Throw message =>
      (fst acc, snd acc ++ [FileError.mk (relativeOf (fst result)) message])
  end.

(** [for (let offset = 0; offset < files.length; offset +=
    FILE_READ_CONCURRENCY)]: [Promise.all] answers in the order of the
    batch.  [None] is the loop cut short by [fuel]. *)
Fixpoint collectAll_loop (fuel : nat) (files : list str) (offset : nat)
         (acc : list DeclarationRecord * list FileError.t)
  : option (list DeclarationRecord * list FileError.t) :=
  if length files <=? offset then Some acc
  else
    match fuel with
    | O => None
    | S fuel' =>
        let batch :=
          array_slice files (Z.of_nat offset)
                      (Z.of_nat (offset + FILE_READ_CONCURRENCY)) in
        let results := List.map (fun file => (file, analyse file)) batch in
        collectAll_loop fuel' files (offset + FILE_READ_CONCURRENCY)
                        (fold_left collect_result results acc)
    end.

(** Read and analyse files in parallel batches. *)
Definition collectAllDeclarations (files : list str)
  : option (list DeclarationRecord * list FileError.t) :=
  collectAll_loop (length files) files 0 ([], []).

End CollectAll.

(** The part of [run] between collecting and reporting. *)
Section Run.
Variable localeCompare : str -> str -> Z.

Definition effectiveDeclarations (options : CliOptions)
           (declarations : list DeclarationRecord)
  : list DeclarationRecord :=
  if skipReExports options
  then filter (fun d => negb (isReExport d)) declarations
  else declarations.

Definition nameGroups (options : CliOptions)
           (declarations : list DeclarationRecord)
  : list (str * list DeclarationRecord) :=
  filterDuplicateGroups localeCompare
    (groupBy (effectiveDeclarations options declarations) name)
    (minCount options).

Definition shapeGroups (options : CliOptions)
           (declarations : list DeclarationRecord)
  : list (str * list DeclarationRecord) :=
  filterDuplicateGroups localeCompare
    (groupBy (effectiveDeclarations options declarations) normalizedShape)
    (minCount options).

Definition duplicateCount (options : CliOptions)
           (declarations : list DeclarationRecord) : nat :=
  (if str_eqb (mode options) (js "name")
      || str_eqb (mode options) (js "both")
   then length (nameGroups options declarations) else 0)
  + (if str_eqb (mode options) (js "shape")
        || str_eqb (mode options) (js "both")
     then length (shapeGroups options declarations) else 0).

End Run.

(* ------------------------------------------------------------------ *)
(** ** formatter.ts *)
(* ------------------------------------------------------------------ *)

Module ReportMeta.
Record t := mk {
  filesScanned : nat;
  declarationsScanned : nat;
  mode : str;
  fileSource : str;
  duplicateCount : nat
}.
End ReportMeta.

Module DuplicateDeclaration.
Record t := mk {
  file : str;
  line : nat;
  kind : DeclarationKind;
  name : str;
  snippet : str;
  isReExport : bool
}.
End DuplicateDeclaration.

Module DuplicateGroup.
Record t := mk {
  name : option str;
  shape : option str;
  count : nat;
  declarations : list DuplicateDeclaration.t
}.
End DuplicateGroup.

Module ReportPayload.
Record t := mk {
  root : str;
  mode : str;
  fileSource : str;
  filesScanned : nat;
  declarationsScanned : nat;
  duplicateNameGroups : list DuplicateGroup.t;
  duplicateShapeGroups : list DuplicateGroup.t;
  errors : option (list FileError.t)
}.
End ReportPayload.

(** The text of a declaration kind, as [DECLARATION_KINDS] spells it. *)
Definition kindText (k : DeclarationKind) : str :=
  match k with
  | KInterface => js "interface"
  | KType => js "type"
  | KEnum => js "enum"
  | KReexport => js "reexport"
  end.

(** A count or a line number inside a template literal: its decimal
    digits. *)
Definition numberToString (n : nat) : str :=
  js (NilEmpty.string_of_uint (Nat.to_uint n)).

(** [s.padEnd(targetLength)]. *)
Definition padEnd (s : str) (targetLength : nat) : str :=
  s ++ repeat SPACE (targetLength - length s).

Definition BOX : char := 9472%N.
Definition CHECK : char := 10003%N.
Definition DASH : char := 8212%N.
Definition TICK : char := 96%N.

Definition nameHeading : str :=
  [LF] ++ repeat BOX 2 ++ js " Duplicate type names " ++ repeat BOX 34.

Definition shapeHeading : str :=
  [LF] ++ repeat BOX 2 ++ js " Duplicate type shapes " ++ repeat BOX 33.

Definition summaryHeading : str :=
  [LF] ++ repeat BOX 2 ++ js " Summary " ++ repeat BOX 46.

Definition noDuplicatesFound : str :=
  js "  " ++ [CHECK] ++ js " No duplicates found".

Definition nameGroupLine (group : str * list DeclarationRecord) : str :=
  [LF] ++ js "  " ++ fst group ++ js " ("
  ++ numberToString (length (snd group)) ++ js " occurrences)".

Definition nameItemLine (item : DeclarationRecord) : str :=
  js "    " ++ padEnd (kindText (kind item)) 9 ++ js "  " ++ file item
  ++ js ":" ++ numberToString (line item).

Definition shapeGroupLine (shapeIndex : nat) (items : list DeclarationRecord)
  : str :=
  let names := join_with (js ", ") (distinct (List.map name items)) in
  [LF] ++ js "  shape#" ++ numberToString shapeIndex ++ js " " ++ [DASH]
  ++ js " names: " ++ names ++ js " ("
  ++ numberToString (length items) ++ js " occurrences)".

Definition shapeItemLine (item : DeclarationRecord) : str :=
  js "    " ++ padEnd (kindText (kind item)) 9 ++ js "  "
  ++ padEnd (name item) 24 ++ js "  " ++ file item ++ js ":"
  ++ numberToString (line item).

(** The preview of a group's first member. *)
Definition preview (representative : DeclarationRecord) : str :=
  if (MAX_PREVIEW_LENGTH <? Z.of_nat (length (snippet representative)))%Z
  then slice (snippet representative) 0 (MAX_PREVIEW_LENGTH - 3) ++ js "..."
  else snippet representative.

Definition previewLine (items : list DeclarationRecord) : list str :=
  match items with
  | representative :: _ => [js "    shape:   " ++ preview representative]
  | [] => []
  end.

Definition renderNameReport (groups : list (str * list DeclarationRecord))
  : list str :=
  nameHeading
  :: match groups with
     | [] => [noDuplicatesFound]
     | _ :: _ =>
         flat_map
           (fun group => nameGroupLine group
                         :: List.map nameItemLine (snd group))
           groups
     end.

(** The loop of [renderShapeReport]; [shapeIndex] counts the groups
    behind. *)
Fixpoint renderShapeGroups (shapeIndex : nat)
         (groups : list (str * list DeclarationRecord)) : list str :=
  match groups with
  | [] => []
  | (_, items) :: rest =>
      let shapeIndex := shapeIndex + 1 in
      shapeGroupLine shapeIndex items
      :: List.map shapeItemLine items
      ++ previewLine items
      ++ renderShapeGroups shapeIndex rest
  end.

Definition renderShapeReport (groups : list (str * list DeclarationRecord))
  : list str :=
  shapeHeading
  :: match groups with
     | [] => [noDuplicatesFound]
     | _ :: _ => renderShapeGroups 0 groups
     end.

Definition wantsNames (mode : str) : bool :=
  str_eqb mode (js "name") || str_eqb mode (js "both").

Definition wantsShapes (mode : str) : bool :=
  str_eqb mode (js "shape") || str_eqb mode (js "both").

Definition renderTextReport
           (nameGroups shapeGroups : list (str * list DeclarationRecord))
           (meta : ReportMeta.t) : str :=
  let lines :=
    [ summaryHeading;
      js "  Files scanned:          "
      ++ numberToString (ReportMeta.filesScanned meta);
      js "  Declarations found:     "
      ++ numberToString (ReportMeta.declarationsScanned meta);
      js "  Source:                 " ++ ReportMeta.fileSource meta ]
    ++ (if wantsNames (ReportMeta.mode meta)
        then [js "  Duplicate name groups:  "
              ++ numberToString (length nameGroups)]
        else [])
    ++ (if wantsShapes (ReportMeta.mode meta)
        then [js "  Duplicate shape groups: "
              ++ numberToString (length shapeGroups)]
        else [])
    ++ [[]]
    ++ (if wantsNames (ReportMeta.mode meta)
        then renderNameReport nameGroups else [])
    ++ (if wantsShapes (ReportMeta.mode meta)
        then renderShapeReport shapeGroups else []) in
  join_with [LF] lines.

(** [console.log(line)]: the lines written so far, and one more. *)
Definition console_log (line : str) (written : list str) : list str :=
  written ++ [line].

Definition printNameReport (groups : list (str * list DeclarationRecord))
           (written : list str) : list str :=
  let written := console_log nameHeading written in
  match groups with
  | [] => console_log noDuplicatesFound written
  | _ :: _ =>
      fold_left
        (fun written group =>
           fold_left (fun written item =>
                        console_log (nameItemLine item) written)
                     (snd group)
                     (console_log (nameGroupLine group) written))
        groups written
  end.

(** The loop of [printShapeReport]: the index and the lines written. *)
Definition printShapeGroup (state : nat * list str)
           (group : str * list DeclarationRecord) : nat * list str :=
  let items := snd group in
  let shapeIndex := fst state + 1 in
  let written := console_log (shapeGroupLine shapeIndex items) (snd state) in
  let written :=
    fold_left (fun written item => console_log (shapeItemLine item) written)
              items written in
  match items with
  | representative :: _ =>
      (shapeIndex,
       console_log (js "    shape:   " ++ preview representative) written)
  | [] => (shapeIndex, written)
  end.

Definition printShapeReport (groups : list (str * list DeclarationRecord))
           (written : list str) : list str :=
  let written := console_log shapeHeading written in
  match groups with
  | [] => console_log noDuplicatesFound written
  | _ :: _ => snd (fold_left printShapeGroup groups (0, written))
  end.

Definition printTextReport
           (nameGroups shapeGroups : list (str * list DeclarationRecord))
           (meta : ReportMeta.t) (written : list str) : list str :=
  console_log (renderTextReport nameGroups shapeGroups meta) written.

Definition mapDeclarations (items : list DeclarationRecord)
  : list DuplicateDeclaration.t :=
  List.map
    (fun item =>
       DuplicateDeclaration.mk (file item) (line item) (kind item)
                               (name item) (snippet item) (isReExport item))
    items.

(** [meta] with the [root] and the optional [errors] joined to it. *)
Definition buildJsonPayload
           (nameGroups shapeGroups : list (str * list DeclarationRecord))
           (meta : ReportMeta.t) (root : str)
           (errors : option (list FileError.t)) (mode : str)
  : ReportPayload.t :=
  {| ReportPayload.root := root;
     ReportPayload.mode := mode;
     ReportPayload.fileSource := ReportMeta.fileSource meta;
     ReportPayload.filesScanned := ReportMeta.filesScanned meta;
     ReportPayload.declarationsScanned := ReportMeta.declarationsScanned meta;
     ReportPayload.duplicateNameGroups :=
       if str_eqb mode (js "shape") then []
       else List.map
              (fun group =>
                 DuplicateGroup.mk (Some (fst group)) None
                                   (length (snd group))
                                   (mapDeclarations (snd group)))
              nameGroups;
     ReportPayload.duplicateShapeGroups :=
       if str_eqb mode (js "name") then []
       else List.map
              (fun group =>
                 DuplicateGroup.mk None (Some (fst group))
                                   (length (snd group))
                                   (mapDeclarations (snd group)))
              shapeGroups;
     ReportPayload.errors :=
       match errors with
       | Some (e :: es) => Some (e :: es)
       | _ => None
       end |}.

Definition markdownNameGroup (group : str * list DeclarationRecord)
  : list str :=
  [ js "### " ++ [TICK] ++ fst group ++ [TICK] ++ js " ("
    ++ numberToString (length (snd group)) ++ js " occurrences)";
    [];
    js "| Kind | File | Line |";
    js "| --- | --- | --- |" ]
  ++ List.map
       (fun item =>
          js "| " ++ [TICK] ++ kindText (kind item) ++ [TICK] ++ js " | "
          ++ [TICK] ++ file item ++ [TICK] ++ js " | "
          ++ numberToString (line item) ++ js " |")
       (snd group)
  ++ [[]].

Fixpoint markdownShapeGroups (shapeIndex : nat)
         (groups : list (str * list DeclarationRecord)) : list str :=
  match groups with
  | [] => []
  | (_, items) :: rest =>
      let shapeIndex := shapeIndex + 1 in
      let names := distinct (List.map name items) in
      let namesBadge :=
        join_with (js ", ")
                  (List.map (fun n => [TICK] ++ n ++ [TICK]) names) in
      [ js "### Shape #" ++ numberToString shapeIndex ++ js " " ++ [DASH]
        ++ js " " ++ namesBadge ++ js " ("
        ++ numberToString (length items) ++ js " occurrences)";
        [];
        js "| Kind | Name | File | Line |";
        js "| --- | --- | --- | --- |" ]
      ++ List.map
           (fun item =>
              js "| " ++ [TICK] ++ kindText (kind item) ++ [TICK]
              ++ js " | " ++ [TICK] ++ name item ++ [TICK] ++ js " | "
              ++ [TICK] ++ file item ++ [TICK] ++ js " | "
              ++ numberToString (line item) ++ js " |")
           items
      ++ [[]]
      ++ match items with
         | representative :: _ =>
             [ js "<details>";
               js "<summary>Shape preview</summary>";
               [];
               repeat TICK 3 ++ js "typescript";
               snippet representative;
               repeat TICK 3;
               js "</details>";
               [] ]
         | [] => []
         end
      ++ markdownShapeGroups shapeIndex rest
  end.

Definition renderMarkdown
           (nameGroups shapeGroups : list (str * list DeclarationRecord))
           (meta : ReportMeta.t) : str :=
  let across :=
    js " across " ++ numberToString (ReportMeta.filesScanned meta)
    ++ js " files ("
    ++ numberToString (ReportMeta.declarationsScanned meta)
    ++ js " declarations)" in
  let lines :=
    (if 0 <? ReportMeta.duplicateCount meta
     then [ js "# " ++ [55357%N; 56589%N] ++ js " Duplicate Types Report";
            [];
            js "> **" ++ numberToString (ReportMeta.duplicateCount meta)
            ++ js " duplicate group(s) found**" ++ across ]
     else [ js "# " ++ [9989%N] ++ js " Duplicate Types Report";
            [];
            js "> **No duplicates found**" ++ across ])
    ++ [ [];
         js "| Metric | Value |";
         js "| --- | --- |";
         js "| Files scanned | "
         ++ numberToString (ReportMeta.filesScanned meta) ++ js " |";
         js "| Declarations found | "
         ++ numberToString (ReportMeta.declarationsScanned meta) ++ js " |";
         js "| Source | " ++ ReportMeta.fileSource meta ++ js " |" ]
    ++ (if wantsNames (ReportMeta.mode meta)
        then [js "| Duplicate name groups | "
              ++ numberToString (length nameGroups) ++ js " |"]
        else [])
    ++ (if wantsShapes (ReportMeta.mode meta)
        then [js "| Duplicate shape groups | "
              ++ numberToString (length shapeGroups) ++ js " |"]
        else [])
    ++ [[]]
    ++ (if wantsNames (ReportMeta.mode meta)
        then [js "## Duplicate Type Names"; []]
             ++ match nameGroups with
                | [] => [[9989%N] ++ js " No duplicate names found."; []]
                | _ :: _ => flat_map markdownNameGroup nameGroups
                end
        else [])
    ++ (if wantsShapes (ReportMeta.mode meta)
        then [js "## Duplicate Type Shapes"; []]
             ++ match shapeGroups with
                | [] => [[9989%N] ++ js " No duplicate shapes found."; []]
                | _ :: _ => markdownShapeGroups 0 shapeGroups
                end
        else [])
    ++ [ js "---";
         js "*Generated by [typehunt](https://github.com/CihanBir7/typehunt)*";
         [] ] in
  join_with [LF] lines.

(* ------------------------------------------------------------------ *)
(** ** analyzer.ts: [collectDeclarations] and the process it runs in *)
(* ------------------------------------------------------------------ *)

(** [collectDeclarations(file, sourceText, options)] as the module exports
    it.  It parses the text and reads [process.cwd()], the working
    directory of the process, to make the path relative: [cwd] stands for
    that piece of the process state.  The parser ([ts.createSourceFile],
    which is also handed the script kind the file name asks for),
    [path.relative] and [path.sep] are the host's and are parameters. *)
Definition collectDeclarationsIn
           (sep : char) (relative : str -> str -> str)
           (createSourceFile : str -> str -> Node)
           (cwd file sourceText : str) (includeEnums : bool)
  : list DeclarationRecord :=
  let sourceFile := createSourceFile file sourceText in
  let relativeFile := toPosix sep (relative cwd file) in
  collectDeclarations relativeFile sourceText sourceFile includeEnums.

(** [path.relative] of a POSIX host on absolute paths in normal form (no
    empty segment, no [.] or [..], no slash at the end): the segments
    the two paths share at the start are dropped, each segment left of
    [from] gives one [..], and the segments left of [to] follow. *)
Fixpoint relative_segments (from to : list str) : list str :=
  match from, to with
  | f :: from', t :: to' =>
      if str_eqb f t then relative_segments from' to'
      else List.map (fun _ => js "..") from ++ to
  | _, _ => List.map (fun _ => js "..") from ++ to
  end.

Definition relative_posix (from to : str) : str :=
  join_with [SLASH]
    (relative_segments (split_on SLASH from) (split_on SLASH to)).

(** A unit with declarations at two depths and re-exports between them. *)
Definition mixedUnit : str :=
  js "interface A { x: number }" ++ [LF]
  ++ js "export { Foo, Bar as Baz } from " ++ [dq] ++ js "./m" ++ [dq]
  ++ js ";" ++ [LF]
  ++ js "namespace N {" ++ [LF]
  ++ js "  type B = string;" ++ [LF]
  ++ js "  enum E { One }" ++ [LF]
  ++ js "}" ++ [LF]
  ++ js "export type { Qux } from " ++ [dq] ++ js "./q" ++ [dq] ++ js ";".

Definition mixedUnit_tree : Node :=
  mkNode OtherNode 0 148
    [ mkNode (InterfaceDeclaration (js "A") [mkMember true (Some (14, 15))])
             0 25
             [ leaf 10 11; mkNode OtherNode 14 23 [leaf 14 15; leaf 17 23] ];
      mkNode (ExportDeclaration true
                (Some (NamedExports
                         [mkSpecifier None (js "Foo");
                          mkSpecifier (Some (js "Bar")) (js "Baz")])))
             26 64
             [ mkNode OtherNode 33 52
                 [ mkNode OtherNode 35 38 [leaf 35 38];
                   mkNode OtherNode 40 50 [leaf 40 43; leaf 47 50] ];
               leaf 58 63 ];
      mkNode OtherNode 65 116
             [ leaf 75 76;
               mkNode OtherNode 77 116
                 [ mkNode (TypeAliasDeclaration (js "B")
                             (Some OtherTypeNode))
                          81 97 [leaf 86 87; leaf 90 96];
                   mkNode (EnumDeclaration (js "E")
                             [mkMember false (Some (109, 112))])
                          100 114
                          [ leaf 105 106;
                            mkNode OtherNode 109 112 [leaf 109 112] ] ] ];
      mkNode (ExportDeclaration true
                (Some (NamedExports [mkSpecifier None (js "Qux")])))
             117 148
             [ mkNode OtherNode 129 136
                 [ mkNode OtherNode 131 134 [leaf 131 134] ];
               leaf 142 147 ];
      leaf 148 148 ].

(* ------------------------------------------------------------------ *)
(** ** The host's collation *)
(* ------------------------------------------------------------------ *)

Definition lowerCase (c : char) : char :=
  if (65 <=? c)%N && (c <=? 90)%N then (c + 32)%N else c.

(** [String.prototype.localeCompare] on strings of ASCII letters, as the
    root collation of Unicode, which hosts use unless the locale says
    otherwise, orders them: by their letters without regard to case
    first (a shorter string before its extensions); if these agree, by
    the first place where the case differs, the lower-case letter first.
    Code units that are not ASCII letters compare by value here, which is
    not claimed of any host. *)
Definition asciiCollate (a b : str) : Z :=
  let primary :=
    codeUnitCompare (List.map lowerCase a) (List.map lowerCase b) in
  if (primary =? 0)%Z then codeUnitCompare b a else primary.

(* ------------------------------------------------------------------ *)
(** ** cli.ts: [run] and the exit code of the process *)
(* ------------------------------------------------------------------ *)

(** Maximum number of file-read errors shown before truncating. *)
Definition MAX_DISPLAYED_ERRORS : nat := 5.

Definition WARNING_SIGN : char := 9888%N.
Definition BALLOT_X : char := 10007%N.

Definition helpLines : list str :=
  [ js "typehunt " ++ [DASH] ++ js " Find duplicate type definitions across your TypeScript codebase";
    [];
    js "Usage:";
    js "  npx typehunt [options]";
    [];
    js "Options:";
    js "  --root <path>             Root directory to scan (default: src)";
    js "  --tsconfig <path>         Path to tsconfig.json " ++ [DASH] ++ js " respects include/exclude";
    js "  --mode <name|shape|both>  Duplicate detection mode (default: both)";
    js "  --min <number>            Minimum duplicates per group (default: 2)";
    js "  --exclude <token,...>     Exclude by matching tokens against relative paths (repeatable).";
    js "                            Match rules: equals, prefix (token/...), or substring.";
    js "  --no-enums                Skip enum declarations";
    js "  --include-reexports       Include re-exports (excluded by default)";
    js "  --format <text|json|markdown>  Output format (default: text)";
    js "  --json                    Shortcut for --format json";
    js "  --markdown, --md          Shortcut for --format markdown";
    js "  --output <path>           Save output to a file";
    js "  --fail-on-duplicates      Exit with code 1 when duplicates are found (CI mode)";
    js "  --help, -h                Show this help";
    [];
    js "Examples:";
    js "  npx typehunt";
    js "  npx typehunt --tsconfig tsconfig.json";
    js "  npx typehunt --root src --mode shape --json";
    js "  npx typehunt --markdown --output report.md";
    js "  npx typehunt --exclude generated,src/vendor,.storybook";
    [] ].

(** [printHelp]: one [console.log] of the help text. *)
Definition printHelp (written : list str) : list str :=
  console_log (join_with [LF] helpLines) written.

(** What a run has written: the arguments of its [console.log] calls, of
    its [console.error] calls, and of its [process.stdout.write] calls. *)
Module Console.
Record t := mk {
  log : list str;
  error : list str;
  stdout : list str
}.
Definition empty : t := mk [] [] [].
End Console.

Definition logged (print : list str -> list str) (w : Console.t)
  : Console.t :=
  Console.mk (print (Console.log w)) (Console.error w) (Console.stdout w).

Definition console_error (line : str) (w : Console.t) : Console.t :=
  Console.mk (Console.log w) (Console.error w ++ [line]) (Console.stdout w).

Definition stdout_write (chunk : str) (w : Console.t) : Console.t :=
  Console.mk (Console.log w) (Console.error w) (Console.stdout w ++ [chunk]).

Section Cli.

(** What [run] calls and the sources do not define, or define on top of
    the file system: [Number] and [localeCompare]; [path.resolve] and
    [toPosix(path.relative(...))] against [process.cwd()]; whether
    [fs.stat] finds a directory; the two file scanners of scanner.ts,
    which read the disk and may throw; reading and analysing one file
    (see [collectAllDeclarations]), given [includeEnums];
    [JSON.stringify(payload, null, 2)]; and [fs.mkdir] followed by
    [fs.writeFile], which may throw. *)
Variable integerOf : str -> option Z.
Variable localeCompare : str -> str -> Z.
Variable resolve : str -> str.
Variable relativeOf : str -> str.
Variable isDirectory : str -> bool.
Variable getTypeFilesFromTsConfig : str -> outcome (list str).
Variable getTypeFilesFromDirectory : str -> list str -> outcome (list str).
Variable analyse : bool -> str -> outcome (list DeclarationRecord).
Variable stringify : ReportPayload.t -> str.
Variable writeFile : str -> str -> outcome unit.

Definition writeOutputFile (outputFile content label : str)
           (w : Console.t) : Console.t * outcome unit :=
  let outputPath := resolve outputFile in
  match writeFile outputPath content with
  | Throw e => (w, Throw e)
  | Return _ =>
      (console_error (js "Saved " ++ label ++ js " report to "
                      ++ relativeOf outputPath) w,
       Return tt)
  end.

(** File discovery: the files to scan and where they come from. *)
Definition discoverFiles (options : CliOptions)
  : outcome (list str * str) :=
  match tsconfig options with
  | Some (c :: t) =>
      match getTypeFilesFromTsConfig (c :: t) with
      | Throw e => Throw e
      | Return files =>
          let files :=
            match exclude options with
            | [] => files
            | _ :: _ =>
                filter
                  (fun f =>
                     negb (matchesExclude (relativeOf f) (exclude options)))
                  files
            end in
          Return (files, js "tsconfig (" ++ c :: t ++ js ")")
      end
  | _ =>
      let rootPath := resolve (root options) in
      if isDirectory rootPath
      then
        match getTypeFilesFromDirectory rootPath (exclude options) with
        | Throw e => Throw e
        | Return files =>
            Return (files, js "directory walk (" ++ root options ++ js ")")
        end
      else
        Throw (js "Root path does not exist or is not a directory: "
               ++ root options)
  end.

(** The warning about the files that could not be read. *)
Definition reportErrors (options : CliOptions) (errors : list FileError.t)
           (w : Console.t) : Console.t :=
  match errors with
  | [] => w
  | _ :: _ =>
      if str_eqb (format options) (js "text")
      then
        let w :=
          console_error ([LF; WARNING_SIGN] ++ js " Skipped "
                         ++ numberToString (length errors)
                         ++ js " file(s) with read errors:") w in
        let w :=
          fold_left
            (fun w e =>
               console_error (js "  " ++ FileError.file e ++ js ": "
                              ++ FileError.error e) w)
            (array_slice errors 0 (Z.of_nat MAX_DISPLAYED_ERRORS)) w in
        if MAX_DISPLAYED_ERRORS <? length errors
        then console_error
               (js "  ... and "
                ++ numberToString (length errors - MAX_DISPLAYED_ERRORS)
                ++ js " more") w
        else w
      else w
  end.

(** The output step: the report in the format asked for, on the console
    and in the output file when there is one. *)
Definition writeReport (options : CliOptions) (files : list str)
           (fileSource : str) (declarations : list DeclarationRecord)
           (errors : list FileError.t) (w : Console.t)
  : Console.t * outcome unit :=
  let names := nameGroups localeCompare options declarations in
  let shapes := shapeGroups localeCompare options declarations in
  let meta :=
    ReportMeta.mk (length files)
                  (length (effectiveDeclarations options declarations))
                  (mode options) fileSource
                  (duplicateCount localeCompare options declarations) in
  let renderedJson :=
    stringify
      (buildJsonPayload names shapes meta
         (match tsconfig options with
          | Some t => t
          | None => root options
          end)
         (Some errors) (mode options))
    ++ [LF] in
  let save (content label : str) (w : Console.t) :=
    match outputFile options with
    | Some (c :: t) => writeOutputFile (c :: t) content label w
    | _ => (w, Return tt)
    end in
  if str_eqb (format options) (js "json")
  then
    match save renderedJson (js "JSON") w with
    | (w, Throw e) => (w, Throw e)
    | (w, Return _) => (stdout_write renderedJson w, Return tt)
    end
  else if str_eqb (format options) (js "markdown")
  then
    let md := renderMarkdown names shapes meta in
    match save md (js "Markdown") w with
    | (w, Throw e) => (w, Throw e)
    | (w, Return _) => (stdout_write md w, Return tt)
    end
  else
    save renderedJson (js "JSON")
         (logged (printTextReport names shapes meta) w).

(** [run] on [process.argv.slice(2)]: what it has written, and the exit
    code it resolves to or the message of what it throws.  [None] is a
    loop cut short by its fuel. *)
Definition run (argv : list str) : option (Console.t * outcome Z) :=
  match parseArgs integerOf argv with
  | None => None
  | Some (Throw e) => Some (Console.empty, Throw e)
  | Some (Return options) =>
      if help options
      then Some (logged printHelp Console.empty, Return 0%Z)
      else
        match discoverFiles options with
        | Throw e => Some (Console.empty, Throw e)
        | Return ([], _) =>
            Some (if str_eqb (format options) (js "text")
                  then logged
                         (console_log
                            (js "No TypeScript files found to scan."))
                         Console.empty
                  else Console.empty,
                  Return 0%Z)
        | Return (files, fileSource) =>
            match
              collectAllDeclarations (analyse (includeEnums options))
                                     relativeOf files
            with
            | None => None
            | Some (declarations, errors) =>
                match
                  writeReport options files fileSource declarations errors
                              (reportErrors options errors Console.empty)
                with
                | (w, Throw e) => Some (w, Throw e)
                | (w, Return _) =>
                    let duplicates :=
                      duplicateCount localeCompare options declarations in
                    if failOnDuplicates options && (0 <? duplicates)
                    then
                      Some (if str_eqb (format options) (js "text")
                            then logged
                                   (console_log
                                      ([LF; BALLOT_X] ++ js " Found "
                                       ++ numberToString duplicates
                                       ++ js " duplicate group(s). "
                                       ++ js "Exiting with code 1."))
                                   w
                            else w,
                            Return 1%Z)
                    else Some (w, Return 0%Z)
                end
            end
        end
  end.

(** The last lines of cli.ts: the process exits with the code [run]
    resolves to, and with 1, after a message, when [run] throws. *)
Definition main (argv : list str) : option (Console.t * Z) :=
  match run argv with
  | None => None
  | Some (w, Return code) => Some (w, code)
  | Some (w, Throw message) =>
      Some (console_error (js "typehunt failed: " ++ message) w, 1%Z)
  end.

End Cli.

(* ================================================================== *)
(** * Properties *)
(* ================================================================== *)

Lemma str_eqb_eq (a b : str) : str_eqb a b = true <-> a = b.
Proof.
  unfold str_eqb. destruct (list_eq_dec N.eq_dec a b); split; congruence.
Qed.

Lemma str_eqb_neq (a b : str) : str_eqb a b = false <-> a <> b.
Proof.
  unfold str_eqb. destruct (list_eq_dec N.eq_dec a b); split; congruence.
Qed.

Lemma str_eqb_refl (a : str) : str_eqb a a = true.
Proof. now apply str_eqb_eq. Qed.

(* ------------------------------------------------------------------ *)
(** ** Argument parsing *)
(* ------------------------------------------------------------------ *)

Section ParseArgsFacts.
Variable integerOf : str -> option Z.


Lemma readStringArg_some argv i flag arg v nx :
  nth_error argv i = Some arg ->
  readStringArg argv i flag = Return (Some (v, nx)) ->
  names_flag flag arg = true /\ i <= nx.
Proof.
  unfold readStringArg, names_flag. intros ->.
  destruct arg as [|c arg]; [discriminate|].
  destruct (starts_with (flag ++ js "=") (c :: arg)).
  - rewrite orb_true_r. destruct (skipn _ _); [discriminate|].
    intros [= _ <-]. auto.
  - destruct (str_eqb (c :: arg) flag); [|discriminate].
    destruct (nth_error argv (i + 1)) as [[|d nxt]|]; try discriminate.
    intros [= _ <-]. split; [reflexivity|lia].
Qed.

Lemma readStringArg_throw argv i flag arg e :
  nth_error argv i = Some arg ->
  readStringArg argv i flag = Throw e ->
  names_flag flag arg = true /\ e = js "Missing value for " ++ flag.
Proof.
  unfold readStringArg, names_flag. intros ->.
  destruct arg as [|c arg]; [discriminate|].
  destruct (starts_with (flag ++ js "=") (c :: arg)).
  - rewrite orb_true_r. destruct (skipn _ _); [|discriminate].
    intros [= <-]. auto.
  - destruct (str_eqb (c :: arg) flag); [|discriminate].
    destruct (nth_error argv (i + 1)) as [[|d nxt]|]; try discriminate;
      intros [= <-]; auto.
Qed.


Lemma readEnumArg_some argv i flag allowed arg v nx :
  nth_error argv i = Some arg ->
  readEnumArg argv i flag allowed = Return (Some (v, nx)) ->
  names_flag flag arg = true /\ i <= nx.
Proof.
  intros Hn. unfold readEnumArg.
  destruct (readStringArg argv i flag) as [[[v' nx']|]|e] eqn:E;
    try discriminate.
  destruct (negb _); [discriminate|]. intros [= <- <-].
  eapply readStringArg_some; eauto.
Qed.

Lemma readEnumArg_throw argv i flag allowed arg e :
  nth_error argv i = Some arg ->
  readEnumArg argv i flag allowed = Throw e ->
  names_flag flag arg = true
  /\ (e = js "Missing value for " ++ flag
      \/ exists value,
           existsb (str_eqb value) allowed = false
           /\ e = js "Invalid value for " ++ flag ++ js ": " ++ value
                  ++ js ". Expected: " ++ join_comma allowed).
Proof.
  intros Hn. unfold readEnumArg.
  destruct (readStringArg argv i flag) as [[[v' nx']|]|e'] eqn:E;
    try discriminate.
  - destruct (existsb (str_eqb v') allowed) eqn:Ha; [discriminate|].
    cbn [negb]. intros [= <-].
    split; [eapply proj1, readStringArg_some; eauto|].
    right. exists v'. auto.
  - intros [= <-].
    destruct (readStringArg_throw _ _ _ _ _ Hn E) as [? ->].
    split; [assumption|now left].
Qed.



Lemma parseArgs_body_inv argv i o r :
  parseArgs_body integerOf argv i o = r ->
  (exists o' i', r = Return (o', i') /\ i <= i')
  \/ exists e arg flag,
       r = Throw e /\ nth_error argv i = Some arg /\ In flag valueFlags
       /\ names_flag flag arg = true /\ flag_error integerOf flag e.
Proof.
  unfold parseArgs_body. intros <-.
  destruct (nth_error argv i) as [arg|] eqn:Hn; [|left; eauto].
  destruct arg as [|c arg]; [left; eauto|].
  repeat match goal with
         | |- context [if ?b then _ else _] =>
             destruct b; [left; eauto|]
         end.
  repeat match goal with
         | |- context [readEnumArg ?a ?j ?f ?al] =>
             destruct (readEnumArg a j f al) as [[[? ?]|]|?] eqn:?
         | |- context [readStringArg ?a ?j ?f] =>
             destruct (readStringArg a j f) as [[[? ?]|]|?] eqn:?
         end.
  all: try (left; do 2 eexists; split; [reflexivity|];
            first [ eapply proj2, readEnumArg_some; eassumption
                  | eapply proj2, readStringArg_some; eassumption
                  | lia ]).
  all: try match goal with
           | H : readStringArg _ _ ?f = Throw _ |- _ =>
               destruct (readStringArg_throw _ _ _ _ _ Hn H) as [Hf ->];
               right; exists (js "Missing value for " ++ f), (c :: arg), f;
               repeat split; auto;
               [unfold valueFlags; simpl; tauto|now left]
           end.
  all: try match goal with
           | H : readEnumArg _ _ ?f ?al = Throw _ |- _ =>
               destruct (readEnumArg_throw _ _ _ _ _ _ Hn H)
                 as [Hf [->|(value & Hv & ->)]];
               right;
               [ exists (js "Missing value for " ++ f), (c :: arg), f;
                 repeat split; auto;
                 [unfold valueFlags; simpl; tauto|now left]
               | eexists; exists (c :: arg), f;
                 split; [reflexivity|]; split; [reflexivity|];
                 split; [unfold valueFlags; simpl; tauto|];
                 split; [assumption|];
                 right; left; exists value, al;
                 split; [simpl; tauto|]; split; [assumption|reflexivity] ]
           end.
  match goal with
  | H : readStringArg _ _ _ = Return (Some (?v, _)) |- _ =>
      destruct (readStringArg_some _ _ _ _ _ _ Hn H);
      destruct (integerOf v) as [z|] eqn:Hz;
        [destruct (Z.ltb_spec z 2)|]
  end.
  - right.
    exists (js "Invalid value for --min; expected integer >= 2"),
      (c :: arg), (js "--min").
    repeat split; auto; [unfold valueFlags; simpl; tauto|].
    right. right. exists s. rewrite Hz. auto.
  - left. do 2 eexists. split; [reflexivity|assumption].
  - right.
    exists (js "Invalid value for --min; expected integer >= 2"),
      (c :: arg), (js "--min").
    repeat split; auto; [unfold valueFlags; simpl; tauto|].
    right. right. exists s. rewrite Hz. auto.
Qed.


Lemma parseArgs_loop_returns argv :
  forall fuel i o,
    length argv <= i + fuel ->
    parseArgs_loop integerOf fuel argv i o <> None.
Proof.
  induction fuel as [|fuel IH]; intros i o Hlen; simpl.
  - destruct (Nat.leb_spec (length argv) i); [discriminate|lia].
  - destruct (Nat.leb_spec (length argv) i) as [|Hlt]; [discriminate|].
    destruct (parseArgs_body_inv argv i o _ eq_refl)
      as [(o' & i' & -> & Hle)|(e & arg & flag & -> & _)];
      [|discriminate].
    apply IH. lia.
Qed.


End ParseArgsFacts.

(* ------------------------------------------------------------------ *)
(** ** The grouping engine *)
(* ------------------------------------------------------------------ *)

Lemma StronglySorted_weaken (A : Type) (R R' : A -> A -> Prop) l :
  (forall a b, R a b -> R' a b) ->
  StronglySorted R l -> StronglySorted R' l.
Proof.
  intros HR. induction 1 as [|x r Hs IH Hx]; constructor; auto.
  eapply Forall_impl; [|exact Hx]. auto.
Qed.

Section SortFacts.
Variable A : Type.
Variable cmp : A -> A -> Z.

Lemma sort_insert_perm x l : Permutation (sort_insert cmp x l) (x :: l).
Proof.
  induction l as [|y r IH]; simpl; [reflexivity|].
  destruct (cmp x y <=? 0)%Z; [reflexivity|].
  rewrite IH. apply perm_swap.
Qed.

Lemma sort_perm l : Permutation (sort cmp l) l.
Proof.
  induction l as [|x r IH]; simpl; [reflexivity|].
  rewrite sort_insert_perm. now constructor.
Qed.

Lemma sort_In x l : In x (sort cmp l) <-> In x l.
Proof.
  split; apply Permutation_in;
    [apply sort_perm | apply Permutation_sym, sort_perm].
Qed.

Hypothesis cmp_total : forall a b, (0 < cmp a b)%Z -> (cmp b a <= 0)%Z.
Hypothesis cmp_trans :
  forall a b c, (cmp a b <= 0)%Z -> (cmp b c <= 0)%Z -> (cmp a c <= 0)%Z.

Lemma sort_insert_sorted x l :
  StronglySorted (fun a b => (cmp a b <= 0)%Z) l ->
  StronglySorted (fun a b => (cmp a b <= 0)%Z) (sort_insert cmp x l).
Proof.
  induction 1 as [|y r Hs IH Hy]; simpl.
  - repeat constructor.
  - destruct (Z.leb_spec (cmp x y) 0) as [Hle|Hgt].
    + constructor; [now constructor|].
      constructor; [assumption|].
      eapply Forall_impl; [|exact Hy]. intros b Hb. eauto.
    + constructor; [assumption|].
      eapply Permutation_Forall;
        [apply Permutation_sym, sort_insert_perm|].
      constructor; auto.
Qed.

Lemma sort_sorted l : StronglySorted (fun a b => (cmp a b <= 0)%Z) (sort cmp l).
Proof.
  induction l as [|x r IH]; simpl; [constructor|].
  now apply sort_insert_sorted.
Qed.
End SortFacts.

Module JsMapFacts.
Section Facts.
Variable V : Type.
Implicit Types (m : JsMap.t V) (k : str) (v : V).

Lemma get_None k m : JsMap.get k m = None <-> ~ In k (map fst m).
Proof.
  unfold JsMap.get. induction m as [|[k0 v0] r IH]; simpl; [tauto|].
  destruct (str_eqb k0 k) eqn:E; simpl.
  - apply str_eqb_eq in E. split; [discriminate|tauto].
  - apply str_eqb_neq in E. rewrite IH. tauto.
Qed.

Lemma get_Some k v m :
  NoDup (map fst m) -> (JsMap.get k m = Some v <-> In (k, v) m).
Proof.
  unfold JsMap.get. induction m as [|[k0 v0] r IH]; simpl; intros Hnd.
  - split; [discriminate|tauto].
  - inversion_clear Hnd as [|? ? Hk Hr].
    destruct (str_eqb k0 k) eqn:E; simpl.
    + apply str_eqb_eq in E. subst k0. split.
      * intros [= ->]. now left.
      * intros [[= ->]|Hin]; [reflexivity|].
        exfalso. apply Hk. now apply (in_map fst) in Hin.
    + apply str_eqb_neq in E. rewrite (IH Hr). split; [tauto|].
      intros [[= ? ?]|?]; [contradiction|assumption].
Qed.

Lemma set_keys k v m :
  map fst (JsMap.set k v m)
  = if in_dec (list_eq_dec N.eq_dec) k (map fst m)
    then map fst m else map fst m ++ [k].
Proof.
  induction m as [|[k0 v0] r IH]; simpl; [reflexivity|].
  destruct (str_eqb k0 k) eqn:E; simpl.
  - apply str_eqb_eq in E. subst.
    destruct (list_eq_dec N.eq_dec k k); [reflexivity|contradiction].
  - apply str_eqb_neq in E. rewrite IH.
    destruct (list_eq_dec N.eq_dec k0 k); [contradiction|].
    destruct (in_dec (list_eq_dec N.eq_dec) k (map fst r)); reflexivity.
Qed.

Lemma set_NoDup k v m : NoDup (map fst m) -> NoDup (map fst (JsMap.set k v m)).
Proof.
  intros Hnd. rewrite set_keys.
  destruct (in_dec (list_eq_dec N.eq_dec) k (map fst m)) as [|Hn];
    [assumption|].
  apply NoDup_app; [assumption|repeat constructor; simpl; tauto|].
  intros x Hx [<-|[]]. contradiction.
Qed.

Lemma set_In k v m k' v' :
  NoDup (map fst m) ->
  In (k', v') (JsMap.set k v m)
  <-> (k' = k /\ v' = v) \/ (k' <> k /\ In (k', v') m).
Proof.
  induction m as [|[k0 v0] r IH]; simpl; intros Hnd.
  - split.
    + intros [[= <- <-]|[]]. now left.
    + intros [[-> ->]|[_ []]]. now left.
  - inversion_clear Hnd as [|? ? Hk Hr].
    destruct (str_eqb k0 k) eqn:E; simpl.
    + apply str_eqb_eq in E. subst k0. split.
      * intros [[= <- <-]|Hin]; [now left|]. right. split; [|now right].
        intros ->. apply Hk. now apply (in_map fst) in Hin.
      * intros [[-> ->]|[Hne [[= ? ?]|Hin]]];
          [now left|congruence|now right].
    + apply str_eqb_neq in E. rewrite (IH Hr). split.
      * intros [[= <- <-]|[?|?]]; [right; split; auto|tauto|tauto].
      * intros [?|[Hne [[= <- <-]|Hin]]]; tauto.
Qed.
End Facts.
End JsMapFacts.

Section GroupingFacts.
Variable T : Type.
Variable keyFn : T -> str.

Lemma members_of_app k (a b : list T) :
  members_of keyFn k (a ++ b) = members_of keyFn k a ++ members_of keyFn k b.
Proof. apply filter_app. Qed.

Lemma members_of_snoc k (a : list T) x :
  members_of keyFn k (a ++ [x])
  = members_of keyFn k a ++ (if str_eqb (keyFn x) k then [x] else []).
Proof.
  rewrite members_of_app. reflexivity.
Qed.


Lemma groupBy_step_grouped m items x :
  grouped keyFn m items ->
  grouped keyFn (groupBy_step keyFn m x) (items ++ [x]).
Proof.
  intros [Hnd Hm]. unfold groupBy_step.
  destruct (JsMap.get (keyFn x) m) as [existing|] eqn:Hg.
  - apply (JsMapFacts.get_Some _ _ _ _ Hnd) in Hg.
    destruct (proj1 (Hm _ _) Hg) as [He _].
    split; [now apply JsMapFacts.set_NoDup|].
    intros k v. rewrite (JsMapFacts.set_In _ _ _ _ _ _ Hnd), Hm.
    rewrite members_of_snoc.
    destruct (str_eqb (keyFn x) k) eqn:E.
    + apply str_eqb_eq in E. subst k. rewrite <- He. split.
      * intros [[_ ->]|[Hne _]]; [|congruence].
        split; [reflexivity|]. now destruct existing.
      * intros [-> _]. now left.
    + apply str_eqb_neq in E. rewrite app_nil_r. split.
      * intros [[-> _]|[_ ?]]; [congruence|assumption].
      * intros H. right. split; [congruence|assumption].
  - apply JsMapFacts.get_None in Hg.
    split; [now apply JsMapFacts.set_NoDup|].
    intros k v. rewrite (JsMapFacts.set_In _ _ _ _ _ _ Hnd), Hm.
    rewrite members_of_snoc.
    destruct (str_eqb (keyFn x) k) eqn:E.
    + apply str_eqb_eq in E. subst k.
      assert (Hnil : members_of keyFn (keyFn x) items = []).
      { destruct (members_of keyFn (keyFn x) items) as [|y l] eqn:Hy;
          [reflexivity|].
        exfalso. apply Hg.
        change (keyFn x) with (fst (keyFn x, y :: l)).
        apply in_map, Hm. split; [auto|discriminate]. }
      rewrite Hnil. simpl. split.
      * intros [[_ ->]|[Hne _]]; [|congruence].
        split; [reflexivity|discriminate].
      * intros [-> _]. now left.
    + apply str_eqb_neq in E. rewrite app_nil_r. split.
      * intros [[-> _]|[_ ?]]; [congruence|assumption].
      * intros H. right. split; [congruence|assumption].
Qed.

Lemma groupBy_grouped items : grouped keyFn (groupBy items keyFn) items.
Proof.
  unfold groupBy.
  assert (H : forall m done,
             grouped keyFn m done ->
             grouped keyFn (fold_left (groupBy_step keyFn) items m)
                     (done ++ items)).
  { induction items as [|x r IH]; intros m done Hm; simpl.
    - now rewrite app_nil_r.
    - replace (done ++ x :: r) with ((done ++ [x]) ++ r)
        by (now rewrite <- app_assoc).
      apply IH. now apply groupBy_step_grouped. }
  apply (H [] []). split; [constructor|].
  intros k v. simpl. split; [tauto|]. intros [-> Hne]. now apply Hne.
Qed.

Variable localeCompare : str -> str -> Z.

Lemma filterDuplicateGroups_In (groups : JsMap.t (list T)) minCount
      (e : str * list T) :
  In e (filterDuplicateGroups localeCompare groups minCount)
  <-> In e groups /\ (minCount <= Z.of_nat (length (snd e)))%Z.
Proof.
  unfold filterDuplicateGroups, JsMap.entries.
  rewrite sort_In, filter_In, Z.leb_le. reflexivity.
Qed.

Lemma filterDuplicateGroups_NoDup (groups : JsMap.t (list T)) minCount :
  NoDup (map fst groups) ->
  NoDup (map fst (filterDuplicateGroups localeCompare groups minCount)).
Proof.
  intros Hnd. unfold filterDuplicateGroups, JsMap.entries.
  eapply Permutation_NoDup.
  - apply Permutation_map, Permutation_sym, sort_perm.
  - induction groups as [|[k v] r IH]; simpl; [constructor|].
    inversion_clear Hnd as [|? ? Hk Hr].
    destruct (minCount <=? _)%Z; simpl; [|auto].
    constructor; [|auto]. intros Hin. apply Hk.
    apply in_map_iff in Hin as (e & <- & He).
    apply filter_In in He as [He _]. now apply in_map.
Qed.

Lemma members_of_nonempty k items :
  members_of keyFn k items <> [] <-> In k (map keyFn items).
Proof.
  unfold members_of. split.
  - intros Hne. destruct (filter _ items) as [|y l] eqn:E; [congruence|].
    assert (Hy : In y (filter (fun r => str_eqb (keyFn r) k) items))
      by (rewrite E; now left).
    apply filter_In in Hy as [Hy Hk]. apply str_eqb_eq in Hk. subst k.
    now apply in_map.
  - intros Hin. apply in_map_iff in Hin as (y & <- & Hy).
    assert (In y (filter (fun r => str_eqb (keyFn r) (keyFn y)) items))
      by (apply filter_In; split; [assumption|apply str_eqb_refl]).
    intros E. rewrite E in *. contradiction.
Qed.

Lemma grouping_entry items minCount k v :
  In (k, v) (filterDuplicateGroups localeCompare
               (groupBy items keyFn) minCount)
  <-> v = members_of keyFn k items /\ In k (map keyFn items)
      /\ (minCount <= Z.of_nat (length (members_of keyFn k items)))%Z.
Proof.
  rewrite filterDuplicateGroups_In.
  destruct (groupBy_grouped items) as [_ Hg]. rewrite Hg. simpl.
  rewrite <- members_of_nonempty. split.
  - intros [[-> Hin] Hle]. auto.
  - intros (-> & Hin & Hle). auto.
Qed.

Hypothesis localeCompare_anti :
  forall a b, (0 < localeCompare a b)%Z <-> (localeCompare b a < 0)%Z.
Hypothesis localeCompare_trans :
  forall a b c, (localeCompare a b <= 0)%Z -> (localeCompare b c <= 0)%Z ->
                (localeCompare a c <= 0)%Z.

Lemma compareGroups_le (a b : str * list T) :
  (compareGroups localeCompare a b <= 0)%Z
  <-> ordered_before localeCompare a b.
Proof.
  unfold compareGroups, ordered_before.
  destruct (Z.eqb_spec (Z.of_nat (length (snd b))
                        - Z.of_nat (length (snd a))) 0); lia.
Qed.

Lemma compareGroups_total (a b : str * list T) :
  (0 < compareGroups localeCompare a b)%Z ->
  (compareGroups localeCompare b a <= 0)%Z.
Proof.
  unfold compareGroups.
  destruct (Z.eqb_spec (Z.of_nat (length (snd b))
                        - Z.of_nat (length (snd a))) 0);
    destruct (Z.eqb_spec (Z.of_nat (length (snd a))
                          - Z.of_nat (length (snd b))) 0); try lia.
  intros H. apply localeCompare_anti in H. lia.
Qed.

Lemma compareGroups_trans (a b c : str * list T) :
  (compareGroups localeCompare a b <= 0)%Z ->
  (compareGroups localeCompare b c <= 0)%Z ->
  (compareGroups localeCompare a c <= 0)%Z.
Proof.
  rewrite !compareGroups_le. unfold ordered_before.
  intros [?|[? ?]] [?|[? ?]]; try (left; lia).
  right. split; [lia|]. eauto.
Qed.

Lemma filterDuplicateGroups_StronglySorted
      (groups : JsMap.t (list T)) minCount :
  StronglySorted (ordered_before localeCompare)
                 (filterDuplicateGroups localeCompare groups minCount).
Proof.
  unfold filterDuplicateGroups.
  eapply StronglySorted_weaken;
    [|apply sort_sorted;
      [exact compareGroups_total|exact compareGroups_trans]].
  intros a b. apply compareGroups_le.
Qed.
End GroupingFacts.

Lemma codeUnitCompare_anti a b :
  (0 < codeUnitCompare a b)%Z <-> (codeUnitCompare b a < 0)%Z.
Proof.
  revert b. induction a as [|x a IH]; intros [|y b]; simpl; try lia.
  destruct (N.ltb_spec x y), (N.ltb_spec y x); try lia. apply IH.
Qed.

Lemma codeUnitCompare_trans a b c :
  (codeUnitCompare a b <= 0)%Z -> (codeUnitCompare b c <= 0)%Z ->
  (codeUnitCompare a c <= 0)%Z.
Proof.
  revert b c.
  induction a as [|x a IH]; intros [|y b] [|z c]; simpl; try lia.
  destruct (N.ltb_spec x y), (N.ltb_spec y x), (N.ltb_spec y z),
    (N.ltb_spec z y), (N.ltb_spec x z), (N.ltb_spec z x); try lia.
  apply IH.
Qed.

(** C3 (as the code behaves).  The engine has no guard for the empty
    fingerprint: whenever two or more records have it, grouping by
    fingerprint with [minCount = 2] emits the group keyed by the empty
    string, holding those records in input order. *)
Theorem empty_fingerprint_is_grouped
        (localeCompare : str -> str -> Z) (records : list DeclarationRecord) :
  2 <= length (members_of normalizedShape [] records) ->
  In ([], members_of normalizedShape [] records)
     (filterDuplicateGroups localeCompare
        (groupBy records normalizedShape) 2).
Proof.
  intros H. apply grouping_entry. split; [reflexivity|].
  split; [|lia].
  apply members_of_nonempty. intros E. rewrite E in H. simpl in H. lia.
Qed.

Lemma empty_fingerprint_is_grouped_witness :
  let r1 := mkRecord (js "A") KType (js "a.ts") 1 [] [] false 0 [] in
  let r2 := mkRecord (js "B") KType (js "b.ts") 1 [] [] false 0 [] in
  2 <= length (members_of normalizedShape [] [r1; r2])
  /\ In ([], members_of normalizedShape [] [r1; r2])
        (filterDuplicateGroups codeUnitCompare
           (groupBy [r1; r2] normalizedShape) 2).
Proof.
  intros r1 r2.
  assert (H : 2 <= length (members_of normalizedShape [] [r1; r2]))
    by (vm_compute; lia).
  split; [exact H|].
  exact (empty_fingerprint_is_grouped codeUnitCompare [r1; r2] H).
Defined.

(** C3 (as stated) fails: two records with the empty fingerprint are
    emitted as a group whose key is the empty string. *)
Lemma empty_fingerprint_group_emitted :
  let r1 := mkRecord (js "A") KType (js "a.ts") 1 [] [] false 0 [] in
  let r2 := mkRecord (js "B") KType (js "b.ts") 1 [] [] false 0 [] in
  2 <= length (members_of normalizedShape [] [r1; r2])
  /\ filterDuplicateGroups codeUnitCompare
       (groupBy [r1; r2] normalizedShape) 2
     = [([], [r1; r2])].
Proof. vm_compute. split; [lia|reflexivity]. Qed.

Lemma codeUnitCompare_refl a : codeUnitCompare a a = 0%Z.
Proof.
  induction a as [|x a IH]; [reflexivity|]. cbn [codeUnitCompare].
  now rewrite N.ltb_irrefl.
Qed.

Lemma codeUnitCompare_eq a b : codeUnitCompare a b = 0%Z -> a = b.
Proof.
  revert b. induction a as [|x a IH]; intros [|y b]; cbn [codeUnitCompare];
    try reflexivity; try discriminate.
  destruct (N.ltb_spec x y) as [|Hxy]; [discriminate|].
  destruct (N.ltb_spec y x) as [|Hyx]; [discriminate|].
  intros E. f_equal; [lia|now apply IH].
Qed.

Lemma codeUnitCompare_antisym a b :
  (codeUnitCompare a b <= 0)%Z -> (codeUnitCompare b a <= 0)%Z -> a = b.
Proof.
  intros H1 H2. apply codeUnitCompare_eq.
  destruct (Z.eq_dec (codeUnitCompare a b) 0) as [E|E]; [exact E|].
  assert (L : (codeUnitCompare a b < 0)%Z) by lia.
  apply (codeUnitCompare_anti b a) in L. lia.
Qed.

(** The collation of the ASCII letters is a consistent comparator. *)
Lemma asciiCollate_anti a b :
  (0 < asciiCollate a b)%Z <-> (asciiCollate b a < 0)%Z.
Proof.
  unfold asciiCollate.
  set (la := List.map lowerCase a). set (lb := List.map lowerCase b).
  destruct (Z.eqb_spec (codeUnitCompare la lb) 0) as [E|E].
  - apply codeUnitCompare_eq in E. rewrite <- E, codeUnitCompare_refl.
    cbn. apply codeUnitCompare_anti.
  - destruct (Z.eqb_spec (codeUnitCompare lb la) 0) as [F|F].
    + apply codeUnitCompare_eq in F. rewrite F, codeUnitCompare_refl in E.
      now destruct E.
    + apply codeUnitCompare_anti.
Qed.

Lemma asciiCollate_trans a b c :
  (asciiCollate a b <= 0)%Z -> (asciiCollate b c <= 0)%Z ->
  (asciiCollate a c <= 0)%Z.
Proof.
  unfold asciiCollate.
  set (la := List.map lowerCase a). set (lb := List.map lowerCase b).
  set (lc := List.map lowerCase c).
  intros Hab Hbc.
  assert (Pab : (codeUnitCompare la lb <= 0)%Z)
    by (destruct (Z.eqb_spec (codeUnitCompare la lb) 0); lia).
  assert (Pbc : (codeUnitCompare lb lc <= 0)%Z)
    by (destruct (Z.eqb_spec (codeUnitCompare lb lc) 0); lia).
  pose proof (codeUnitCompare_trans _ _ _ Pab Pbc) as Pac.
  destruct (Z.eqb_spec (codeUnitCompare la lc) 0) as [E|E]; [|exact Pac].
  apply codeUnitCompare_eq in E.
  assert (F : la = lb).
  { apply codeUnitCompare_antisym; [exact Pab|]. now rewrite E. }
  rewrite F, codeUnitCompare_refl in Hab.
  rewrite <- E, F, codeUnitCompare_refl in Hbc. cbn in Hab, Hbc.
  exact (codeUnitCompare_trans _ _ _ Hbc Hab).
Qed.

(** C4 (as the code behaves).  The list [filterDuplicateGroups] returns
    is ordered by member count, descending, and entries with equal counts
    by key, ascending in the collation [localeCompare] of the host (any
    consistent comparator): every entry stands [ordered_before] every
    later one.  So a bucket of three precedes every bucket of two, and of
    the keys Alpha and Beta with two members each, Alpha comes first, in
    any collation that puts Alpha before Beta and in that of the ASCII
    letters. *)
Theorem filterDuplicateGroups_order
        (T : Type) (localeCompare : str -> str -> Z)
        (localeCompare_anti :
           forall a b, (0 < localeCompare a b)%Z
                       <-> (localeCompare b a < 0)%Z)
        (localeCompare_trans :
           forall a b c, (localeCompare a b <= 0)%Z ->
                         (localeCompare b c <= 0)%Z ->
                         (localeCompare a c <= 0)%Z)
        (groups : JsMap.t (list T)) (minCount : Z) :
  StronglySorted (ordered_before localeCompare)
                 (filterDuplicateGroups localeCompare groups minCount)
  /\ (forall a b c d e f g : T,
        (localeCompare (js "Alpha") (js "Beta") < 0)%Z ->
        filterDuplicateGroups localeCompare
          [(js "Beta", [a; b]); (js "Alpha", [c; d]);
           (js "Gamma", [e; f; g])] 2
        = [(js "Gamma", [e; f; g]); (js "Alpha", [c; d]);
           (js "Beta", [a; b])])
  /\ (forall a b c d e f g : T,
        filterDuplicateGroups asciiCollate
          [(js "Beta", [a; b]); (js "Alpha", [c; d]);
           (js "Gamma", [e; f; g])] 2
        = [(js "Gamma", [e; f; g]); (js "Alpha", [c; d]);
           (js "Beta", [a; b])]).
Proof.
  split; [|split].
  - now apply filterDuplicateGroups_StronglySorted.
  - intros a b c d e f g Hab.
    assert (Hba : (0 < localeCompare (js "Beta") (js "Alpha"))%Z)
      by now apply localeCompare_anti.
    unfold filterDuplicateGroups, compareGroups. simpl.
    destruct (Z.leb_spec (localeCompare (js "Beta") (js "Alpha")) 0);
      [|reflexivity].
    unfold js in *. simpl in *. lia.
  - intros a b c d e f g. reflexivity.
Qed.

Lemma filterDuplicateGroups_order_witness :
  let groups :=
    [(js "beta", [1; 2]); (js "Beta", [3; 4]); (js "alpha", [5; 6]);
     (js "Gamma", [7; 8; 9]); (js "Zeta", [10])] in
  StronglySorted (ordered_before asciiCollate)
                 (filterDuplicateGroups asciiCollate groups 2)
  /\ filterDuplicateGroups asciiCollate groups 2
     = [(js "Gamma", [7; 8; 9]); (js "alpha", [5; 6]); (js "beta", [1; 2]);
        (js "Beta", [3; 4])]
  /\ (asciiCollate (js "Alpha") (js "Beta") < 0)%Z.
Proof.
  intros groups.
  destruct (filterDuplicateGroups_order nat asciiCollate
              asciiCollate_anti asciiCollate_trans groups 2) as (Hs & _).
  split; [exact Hs|]. split; vm_compute; reflexivity.
Defined.

(** C4 (as stated) fails: keys with equal counts come in the order of the
    host's collation, which is not the lexicographic order of the keys.
    [B] is before [a] by code units, and a comparison by code units
    would list it first, yet [a] comes first; and no order of the
    letters would do, since [a] comes before [A] but [Ab] before [ac]. *)
Lemma equal_counts_not_lexicographic :
  (codeUnitCompare (js "B") (js "a") < 0)%Z
  /\ filterDuplicateGroups codeUnitCompare
       [(js "B", [1; 2]); (js "a", [3; 4])] 2
     = [(js "B", [1; 2]); (js "a", [3; 4])]
  /\ filterDuplicateGroups asciiCollate
       [(js "B", [1; 2]); (js "a", [3; 4])] 2
     = [(js "a", [3; 4]); (js "B", [1; 2])]
  /\ filterDuplicateGroups asciiCollate
       [(js "A", [1; 2]); (js "a", [3; 4])] 2
     = [(js "a", [3; 4]); (js "A", [1; 2])]
  /\ filterDuplicateGroups asciiCollate
       [(js "ac", [1; 2]); (js "Ab", [3; 4])] 2
     = [(js "Ab", [3; 4]); (js "ac", [1; 2])].
Proof. vm_compute. repeat split. Qed.

(** C5.  For every record list, key function and [minCount], a key [k]
    appears in the grouping output exactly when it is the key of some
    record and at least [minCount] records have it (for [minCount >= 1]:
    exactly when at least [minCount] records have it); the members
    listed under it are the records with that key, in input order; no key
    is listed twice; and a key that exactly one record has does not
    appear when [minCount = 2]. *)
Theorem grouping_keys_and_members
        (T : Type) (localeCompare : str -> str -> Z)
        (records : list T) (keyFn : T -> str) (minCount : Z) (k : str) :
  let group := fun n =>
    filterDuplicateGroups localeCompare (groupBy records keyFn) n in
  let count := Z.of_nat (length (members_of keyFn k records)) in
  (In k (map fst (group minCount))
   <-> In k (map keyFn records) /\ (minCount <= count)%Z)
  /\ ((1 <= minCount)%Z ->
      (In k (map fst (group minCount)) <-> (minCount <= count)%Z))
  /\ (forall members,
        In (k, members) (group minCount) ->
        members = members_of keyFn k records)
  /\ NoDup (map fst (group minCount))
  /\ (count = 1%Z -> ~ In k (map fst (group 2%Z))).
Proof.
  intros group count.
  assert (Hkey : forall n,
             In k (map fst (group n))
             <-> In k (map keyFn records) /\ (n <= count)%Z).
  { intros n. split.
    - intros Hin. apply in_map_iff in Hin as ([k' v] & Hk & Hin).
      simpl in Hk. subst k'. apply grouping_entry in Hin. tauto.
    - intros [Hin Hle].
      change k with (fst (k, members_of keyFn k records)).
      apply in_map, grouping_entry. auto. }
  split; [apply Hkey|]. split; [|split; [|split]].
  - intros Hmin. rewrite Hkey. split; [tauto|]. intros Hle.
    split; [|assumption]. apply members_of_nonempty.
    intros E. subst count. rewrite E in Hle. simpl in Hle. lia.
  - intros members Hin. apply grouping_entry in Hin. tauto.
  - apply filterDuplicateGroups_NoDup.
    apply (groupBy_grouped T keyFn records).
  - intros Hc Hin. apply Hkey in Hin. lia.
Qed.

Lemma grouping_keys_and_members_witness :
  let records := [js "Foo"; js "Bar"; js "Foo"] in
  (1 <= 2)%Z
  /\ (In (js "Foo")
         (map fst (filterDuplicateGroups codeUnitCompare
                     (groupBy records (fun r => r)) 2))
      <-> (2 <= Z.of_nat
                  (length (members_of (fun r => r) (js "Foo") records)))%Z).
Proof.
  intros records. split; [lia|].
  apply (grouping_keys_and_members str codeUnitCompare records
           (fun r => r) 2 (js "Foo")). lia.
Defined.

(* ------------------------------------------------------------------ *)
(** ** The declaration extractor *)
(* ------------------------------------------------------------------ *)

Lemma slice_nat (s : str) (a b : nat) :
  slice s (Z.of_nat a) (Z.of_nat b)
  = firstn (Nat.min b (length s) - Nat.min a (length s))
           (skipn (Nat.min a (length s)) s).
Proof.
  unfold slice, slice_index.
  destruct (Z.ltb_spec (Z.of_nat a) 0); [lia|].
  destruct (Z.ltb_spec (Z.of_nat b) 0); [lia|].
  replace (Z.to_nat (Z.min (Z.of_nat a) (Z.of_nat (length s))))
    with (Nat.min a (length s)) by lia.
  replace (Z.to_nat (Z.min (Z.of_nat b) (Z.of_nat (length s))))
    with (Nat.min b (length s)) by lia.
  reflexivity.
Qed.

Lemma textSpan_middle (pre s post : str) :
  textSpan (pre ++ s ++ post) (length pre) (length pre + length s) = s.
Proof.
  unfold textSpan. rewrite slice_nat, !length_app.
  replace (Nat.min (length pre) _) with (length pre) by lia.
  replace (Nat.min (length pre + length s) _ - length pre)
    with (length s) by lia.
  rewrite skipn_app, skipn_all, Nat.sub_diag. simpl.
  rewrite firstn_app, firstn_all, Nat.sub_diag. simpl.
  apply app_nil_r.
Qed.

Lemma textSpan_whole (s : str) : textSpan s 0 (length s) = s.
Proof.
  unfold textSpan. rewrite slice_nat. simpl.
  rewrite Nat.min_id, Nat.sub_0_r. apply firstn_all.
Qed.

Lemma preorder_eq n : preorder n = n :: flat_map preorder (nodeChildren n).
Proof.
  destruct n as [i s e cs]. reflexivity.
Qed.

Lemma visit_eq text rel enums n :
  visit text rel enums n
  = declarationRecordOf text rel enums n
    ++ flat_map (visit text rel enums) (nodeChildren n).
Proof.
  destruct n as [i s e cs]. reflexivity.
Qed.

Lemma visit_preorder text rel enums n :
  visit text rel enums n
  = flat_map (declarationRecordOf text rel enums) (preorder n).
Proof.
  induction n as [i s e cs IH] using Node_induction.
  rewrite visit_eq, preorder_eq. cbn [flat_map nodeChildren]. f_equal.
  induction IH as [|c r Hc _ IHr]; simpl; [reflexivity|].
  now rewrite flat_map_app, Hc, IHr.
Qed.

Lemma preorder_self n : In n (preorder n).
Proof. rewrite preorder_eq. now left. Qed.

Lemma preorder_child c n : In c (nodeChildren n) -> In c (preorder n).
Proof.
  intros H. rewrite preorder_eq. right.
  apply in_flat_map. exists c. split; [assumption|apply preorder_self].
Qed.


(** C6.  Wherever the statement [export { Foo, Bar } from "./m"] stands
    in a source unit, it contributes exactly two records, named Foo and
    Bar, of kind reexport, with [isReExport = true], no property names and
    the statement text as snippet; a unit made of that statement alone
    yields just these two.  With an alias, [export { Foo as Bar } ...],
    the record carries the exported name Bar.  A wildcard re-export
    yields no record. *)
Theorem reexport_records :
  (forall (pre post rel : str) (cs : list Node),
      let text := pre ++ exportFooBar ++ post in
      let st :=
        mkNode (ExportDeclaration true
                  (Some (NamedExports [mkSpecifier None (js "Foo");
                                       mkSpecifier None (js "Bar")])))
               (length pre) (length pre + length exportFooBar) cs in
      reExportRecordsOf text rel st
      = [ reexportRecord (js "Foo") rel exportFooBar (getLine text st);
          reexportRecord (js "Bar") rel exportFooBar (getLine text st) ])
  /\ (forall (rel : str) (enums : bool),
         collectDeclarations rel exportFooBar exportFooBar_tree enums
         = [ reexportRecord (js "Foo") rel exportFooBar 1;
             reexportRecord (js "Bar") rel exportFooBar 1 ])
  /\ (forall (pre post rel : str) (cs : list Node),
         let text := pre ++ exportFooAsBar ++ post in
         let st :=
           mkNode (ExportDeclaration true
                     (Some (NamedExports
                              [mkSpecifier (Some (js "Foo")) (js "Bar")])))
                  (length pre) (length pre + length exportFooAsBar) cs in
         reExportRecordsOf text rel st
         = [ reexportRecord (js "Bar") rel exportFooAsBar
                            (getLine text st) ])
  /\ (forall (rel : str) (enums : bool),
         collectDeclarations rel exportStar exportStar_tree enums = [])
  /\ (forall (text rel : str) (st : Node) (m : bool),
         nodeInfo st = ExportDeclaration m None
         \/ nodeInfo st = ExportDeclaration m (Some NamespaceExport) ->
         reExportRecordsOf text rel st = []).
Proof.
  assert (H1 : formatSnippet exportFooBar MAX_SNIPPET_LENGTH = exportFooBar)
    by (vm_compute; reflexivity).
  assert (H2 : formatSnippet exportFooAsBar MAX_SNIPPET_LENGTH
               = exportFooAsBar) by (vm_compute; reflexivity).
  split; [|split; [|split; [|split]]].
  - intros pre post rel cs text st. unfold reExportRecordsOf, reexportRecord.
    cbn [nodeInfo st nodeStart nodeStop List.map specName].
    subst text. rewrite textSpan_middle, H1. reflexivity.
  - intros rel enums. unfold collectDeclarations, collectReExportRecords.
    rewrite visit_preorder.
    cbn [exportFooBar_tree nodeChildren flat_map preorder leaf app].
    unfold reExportRecordsOf, declarationRecordOf, reexportRecord.
    cbn [nodeInfo nodeStart nodeStop List.map specName classify app].
    change 30 with (length exportFooBar) at 1 2.
    rewrite textSpan_whole, H1. reflexivity.
  - intros pre post rel cs text st. unfold reExportRecordsOf, reexportRecord.
    cbn [nodeInfo st nodeStart nodeStop List.map specName].
    subst text. rewrite textSpan_middle, H2. reflexivity.
  - intros rel enums. reflexivity.
  - intros text rel st m [H|H]; unfold reExportRecordsOf; rewrite H;
      now destruct m.
Qed.

Lemma reexport_records_witness :
  reExportRecordsOf exportStar (js "index.ts")
    (mkNode (ExportDeclaration true None) 0 19 [leaf 14 19]) = [].
Proof.
  apply (proj2 (proj2 (proj2 (proj2 reexport_records)))) with (m := true).
  left. reflexivity.
Defined.


Lemma reExportRecordsOf_In text rel st r :
  In r (reExportRecordsOf text rel st) ->
  snippet r = formatSnippet (textSpan text (nodeStart st) (nodeStop st))
                            MAX_SNIPPET_LENGTH
  /\ normalizedShape r
     = normalizeShape (textSpan text (nodeStart st) (nodeStop st)) (name r)
  /\ isReExport r = true /\ kind r = KReexport /\ propertyNames r = []
  /\ line r = getLine text st.
Proof.
  unfold reExportRecordsOf.
  destruct (nodeInfo st) as [| | |[|] [[|els]|]|]; try contradiction.
  intros H. apply in_map_iff in H as (el & <- & _). simpl. auto 6.
Qed.

Lemma declarationRecordOf_In text rel enums node r :
  In r (declarationRecordOf text rel enums node) ->
  snippet r = formatSnippet (textSpan text (nodeStart node) (nodeStop node))
                            MAX_SNIPPET_LENGTH
  /\ normalizedShape r
     = normalizeShape (textSpan text (nodeStart node) (nodeStop node))
                      (name r)
  /\ isReExport r = false /\ classify enums node = Some (kind r, name r)
  /\ line r = getLine text node.
Proof.
  unfold declarationRecordOf.
  destruct (classify enums node) as [[k n]|]; [|contradiction].
  destruct n as [|c n]; [contradiction|].
  intros [<-|[]]. simpl. auto 6.
Qed.

Lemma collectDeclarations_In rel text sf enums r :
  In r (collectDeclarations rel text sf enums) ->
  exists node,
    In node (preorder sf)
    /\ (In r (reExportRecordsOf text rel node)
        \/ In r (declarationRecordOf text rel enums node)).
Proof.
  unfold collectDeclarations, collectReExportRecords.
  rewrite visit_preorder, in_app_iff, !in_flat_map.
  intros [(st & Hst & Hr)|(node & Hn & Hr)].
  - exists st. split; [now apply preorder_child|now left].
  - exists node. split; [assumption|now right].
Qed.



Lemma StronglySorted_app (A : Type) (R : A -> A -> Prop) l1 l2 :
  StronglySorted R l1 -> StronglySorted R l2 ->
  (forall a b, In a l1 -> In b l2 -> R a b) ->
  StronglySorted R (l1 ++ l2).
Proof.
  induction 1 as [|x r Hs IH Hx]; intros H2 H12; simpl; [assumption|].
  constructor.
  - apply IH; [assumption|]. intros a b Ha Hb. apply H12; simpl; auto.
  - apply Forall_app. split; [assumption|].
    apply Forall_forall. intros b Hb. apply H12; simpl; auto.
Qed.

Lemma flat_map_sorted (A B : Type) (f : A -> list B) (key : B -> nat)
      (g : A -> nat) (l : list A) :
  (forall a r, In r (f a) -> key r = g a) ->
  StronglySorted (fun a b => g a <= g b) l ->
  StronglySorted le (List.map key (flat_map f l)).
Proof.
  intros Hk. induction 1 as [|x r Hs IH Hx]; simpl; [constructor|].
  rewrite map_app. apply StronglySorted_app; [|assumption|].
  - assert (H : Forall (fun n => n = g x) (List.map key (f x))).
    { apply Forall_forall. intros n Hn.
      apply in_map_iff in Hn as (b & <- & Hb). now apply Hk. }
    induction H as [|n l Hn Hl IHl]; constructor; [assumption|].
    subst n. eapply Forall_impl; [|exact Hl]. simpl. intros ? ->. lia.
  - intros a b Ha Hb.
    apply in_map_iff in Ha as (ra & <- & Hra).
    apply in_map_iff in Hb as (rb & <- & Hrb).
    apply in_flat_map in Hrb as (y & Hy & Hrb).
    rewrite (Hk _ _ Hra), (Hk _ _ Hrb).
    rewrite Forall_forall in Hx. now apply Hx.
Qed.

Lemma well_nested_bounds n :
  well_nested n ->
  forall m, In m (preorder n) ->
            nodeStart n <= nodeStart m /\ nodeStop m <= nodeStop n
            /\ nodeStart m <= nodeStop m.
Proof.
  induction n as [i s e cs IH] using Node_induction.
  intros Hw m. inversion_clear Hw as [? ? ? ? Hse Hin Hord Hcs].
  rewrite preorder_eq. cbn [nodeChildren nodeStart nodeStop].
  intros [<-|Hm]; [simpl; lia|].
  apply in_flat_map in Hm as (c & Hc & Hm).
  rewrite Forall_forall in IH, Hin, Hcs.
  specialize (IH c Hc (Hcs c Hc) m Hm). specialize (Hin c Hc). lia.
Qed.

Lemma well_nested_children_sorted n :
  well_nested n -> StronglySorted starts_before (nodeChildren n).
Proof.
  inversion_clear 1 as [i s e cs Hse Hin Hord Hcs]. simpl. clear Hin.
  induction Hord as [|c r Hs IH Hc]; [constructor|].
  inversion_clear Hcs as [|? ? Hwc Hwr]. constructor; [auto|].
  rewrite Forall_forall in *. intros b Hb. unfold starts_before.
  specialize (Hc b Hb).
  pose proof (well_nested_bounds c Hwc c (preorder_self c)). lia.
Qed.

Lemma well_nested_preorder_sorted n :
  well_nested n -> StronglySorted starts_before (preorder n).
Proof.
  induction n as [i s e cs IH] using Node_induction.
  intros Hw. pose proof (well_nested_bounds _ Hw) as Hb.
  inversion_clear Hw as [? ? ? ? Hse Hin Hord Hcs].
  rewrite preorder_eq in *. cbn [nodeChildren] in *. constructor.
  - clear Hb Hin. induction Hord as [|c r Hs IHr Hc]; simpl; [constructor|].
    inversion_clear IH as [|? ? IHc IHrest].
    inversion_clear Hcs as [|? ? Hwc Hwr].
    apply StronglySorted_app; auto.
    intros a b Ha Hb. apply in_flat_map in Hb as (d & Hd & Hb).
    rewrite Forall_forall in Hc, Hwr.
    pose proof (well_nested_bounds _ Hwc a Ha).
    pose proof (well_nested_bounds _ (Hwr d Hd) b Hb).
    specialize (Hc d Hd). unfold starts_before. lia.
  - apply Forall_forall. intros m Hm. unfold starts_before.
    apply (Hb m). now right.
Qed.

Lemma lineOfPosition_mono text p q :
  p <= q -> lineOfPosition text p <= lineOfPosition text q.
Proof.
  revert p q. induction text as [|c r IH]; intros [|p] [|q] H; simpl;
    try lia.
  assert (lineOfPosition r p <= lineOfPosition r q) by (apply IH; lia).
  lia.
Qed.

(** C9 (as the code behaves).  [collectDeclarations] reads the working
    directory of the process, so it is a function of its arguments and of
    that directory, not of its arguments alone: every record's [file] is
    the path of the unit relative to it, and nothing else in the records
    depends on it.  The list it returns is the re-export records followed
    by the records of the tree traversal.  The former come from the
    statements of the unit in order, the latter from the nodes in the
    order of the traversal; on a tree whose spans are well nested both
    orders are by ascending start position, so the line numbers never
    decrease within a segment.  A record of kind enum is produced only
    when [includeEnums] is true, and an enum declaration (with a name, as
    in a unit that parsed) gets its record exactly when [includeEnums] is
    true. *)
Theorem extraction_order
        (sep : char) (relative : str -> str -> str)
        (createSourceFile : str -> str -> Node)
        (cwd path text : str) (enums : bool) :
  let extract := collectDeclarationsIn sep relative createSourceFile in
  let sf := createSourceFile path text in
  let rel := toPosix sep (relative cwd path) in
  let reexports := collectReExportRecords sf text rel in
  let found := visit text rel enums sf in
  extract cwd path text enums = reexports ++ found
  /\ Forall (fun r => isReExport r = true /\ kind r = KReexport) reexports
  /\ Forall (fun r => isReExport r = false /\ kind r <> KReexport) found
  /\ reexports = flat_map (reExportRecordsOf text rel) (nodeChildren sf)
  /\ found = flat_map (declarationRecordOf text rel enums) (preorder sf)
  /\ (well_nested sf ->
      StronglySorted starts_before (nodeChildren sf)
      /\ StronglySorted starts_before (preorder sf)
      /\ StronglySorted le (List.map line reexports)
      /\ StronglySorted le (List.map line found))
  /\ (forall r, In r (reexports ++ found) -> kind r = KEnum -> enums = true)
  /\ (forall node nm ms,
        In node (preorder sf) ->
        nodeInfo node = EnumDeclaration nm ms -> nm <> [] ->
        (enums = true
         <-> exists r, In r (declarationRecordOf text rel enums node)
                       /\ In r found /\ kind r = KEnum /\ name r = nm))
  /\ Forall (fun r => file r = rel) (extract cwd path text enums)
  /\ (forall cwd',
        Forall2 (fun r r' =>
                   name r = name r' /\ kind r = kind r'
                   /\ line r = line r' /\ snippet r = snippet r'
                   /\ normalizedShape r = normalizedShape r'
                   /\ isReExport r = isReExport r'
                   /\ propertyCount r = propertyCount r'
                   /\ propertyNames r = propertyNames r')
                (extract cwd path text enums)
                (extract cwd' path text enums)).
Proof.
  intros extract sf rel reexports found.
  assert (Hfound : forall rel0,
             visit text rel0 enums sf
             = flat_map (declarationRecordOf text rel0 enums)
                        (preorder sf)) by (intros; apply visit_preorder).
  assert (Hshape : forall rel0,
             collectDeclarations rel0 text sf enums
             = flat_map (reExportRecordsOf text rel0) (nodeChildren sf)
               ++ flat_map (declarationRecordOf text rel0 enums)
                           (preorder sf)).
  { intros rel0. unfold collectDeclarations, collectReExportRecords.
    now rewrite Hfound. }
  split; [reflexivity|]. split; [|split; [|split; [reflexivity|split;
    [apply Hfound|split; [|split; [|split; [|split]]]]]]].
  - apply Forall_forall. intros r Hr.
    apply in_flat_map in Hr as (st & _ & Hr).
    apply reExportRecordsOf_In in Hr. tauto.
  - apply Forall_forall. intros r Hr. unfold found in Hr.
    rewrite Hfound in Hr.
    apply in_flat_map in Hr as (node & _ & Hr).
    apply declarationRecordOf_In in Hr as (_ & _ & Hre & Hc & _).
    split; [assumption|]. intros Hk. rewrite Hk in Hc.
    unfold classify in Hc.
    destruct (nodeInfo node); try discriminate. now destruct enums.
  - intros Hw.
    pose proof (well_nested_children_sorted _ Hw) as Hc.
    pose proof (well_nested_preorder_sorted _ Hw) as Hp.
    split; [assumption|]. split; [assumption|]. split.
    + apply flat_map_sorted with (g := getLine text).
      * intros a r Hr. now apply reExportRecordsOf_In in Hr.
      * eapply StronglySorted_weaken; [|exact Hc].
        intros a b Hab. unfold getLine.
        pose proof (lineOfPosition_mono text _ _ Hab). lia.
    + unfold found. rewrite Hfound.
      apply flat_map_sorted with (g := getLine text).
      * intros a r Hr. now apply declarationRecordOf_In in Hr.
      * eapply StronglySorted_weaken; [|exact Hp].
        intros a b Hab. unfold getLine.
        pose proof (lineOfPosition_mono text _ _ Hab). lia.
  - intros r Hr Hk. apply in_app_iff in Hr as [Hr|Hr].
    + apply in_flat_map in Hr as (st & _ & Hr).
      apply reExportRecordsOf_In in Hr as (_ & _ & _ & Hk' & _). congruence.
    + unfold found in Hr. rewrite Hfound in Hr.
      apply in_flat_map in Hr as (node & _ & Hr).
      apply declarationRecordOf_In in Hr as (_ & _ & _ & Hc & _).
      rewrite Hk in Hc. unfold classify in Hc.
      destruct (nodeInfo node); try discriminate. now destruct enums.
  - intros node nm ms Hin Hinfo Hnm. split.
    + intros ->. unfold declarationRecordOf, classify. rewrite Hinfo.
      destruct nm as [|c nm]; [contradiction|]. eexists. split; [now left|].
      split; [|split; reflexivity]. unfold found. rewrite Hfound.
      apply in_flat_map.
      exists node. split; [assumption|].
      unfold declarationRecordOf, classify. rewrite Hinfo. now left.
    + intros (r & Hr & _). unfold declarationRecordOf, classify in Hr.
      rewrite Hinfo in Hr. now destruct enums.
  - unfold extract, collectDeclarationsIn. fold sf. fold rel.
    rewrite Hshape. apply Forall_forall. intros r Hr.
    apply in_app_iff in Hr as [Hr|Hr];
      apply in_flat_map in Hr as (node & _ & Hr).
    + unfold reExportRecordsOf in Hr.
      destruct (nodeInfo node) as [| | |[|] [[|els]|]|]; try contradiction.
      now apply in_map_iff in Hr as (el & <- & _).
    + unfold declarationRecordOf in Hr.
      destruct (classify enums node) as [[k [|c nm]]|]; try contradiction.
      now destruct Hr as [<-|[]].
  - intros cwd'. unfold extract, collectDeclarationsIn. fold sf.
    rewrite !Hshape.
    set (rel' := toPosix sep (relative cwd' path)). fold rel.
    clear Hshape Hfound. apply Forall2_app.
    + induction (nodeChildren sf) as [|st sts IH]; [constructor|].
      cbn [flat_map]. apply Forall2_app; [|exact IH].
      unfold reExportRecordsOf.
      destruct (nodeInfo st) as [| | |[|] [[|els]|]|]; try constructor.
      induction els as [|el els IHe]; [constructor|].
      cbn [List.map]. constructor; [|exact IHe]. cbn. repeat split.
    + induction (preorder sf) as [|node nodes IH]; [constructor|].
      cbn [flat_map]. apply Forall2_app; [|exact IH].
      unfold declarationRecordOf.
      destruct (classify enums node) as [[k [|c nm]]|]; try constructor;
        [|constructor]. cbn. repeat split.
Qed.

Lemma extraction_order_witness :
  let records :=
    collectDeclarationsIn SLASH relative_posix (fun _ _ => mixedUnit_tree)
      (js "/a") (js "/a/src/x.ts") mixedUnit true in
  well_nested mixedUnit_tree
  /\ List.map (fun r => (name r, kind r, line r)) records
     = [ (js "Foo", KReexport, 2); (js "Baz", KReexport, 2);
         (js "Qux", KReexport, 7); (js "A", KInterface, 1);
         (js "B", KType, 4); (js "E", KEnum, 5) ]
  /\ StronglySorted le
       (List.map line
          (collectReExportRecords mixedUnit_tree mixedUnit (js "src/x.ts")))
  /\ StronglySorted le
       (List.map line
          (visit mixedUnit (js "src/x.ts") true mixedUnit_tree)).
Proof.
  intros records.
  assert (H : well_nested mixedUnit_tree).
  { unfold mixedUnit_tree, leaf.
    repeat first [ constructor | simpl; lia ]. }
  split; [exact H|]. split; [vm_compute; reflexivity|].
  destruct (extraction_order SLASH relative_posix
              (fun _ _ => mixedUnit_tree) (js "/a") (js "/a/src/x.ts")
              mixedUnit true)
    as (_ & _ & _ & _ & _ & Hs & _).
  destruct (Hs H) as (_ & _ & Hr & Hf).
  split; [exact Hr|exact Hf].
Defined.

(** C9 (as stated) fails: extraction is not a function of the unit, its
    text and [includeEnums] alone.  Run from [/a] and from [/a/src] on
    the same file and text, it returns different records: their [file]
    is [src/x.ts] in one case and [x.ts] in the other. *)
Lemma extraction_reads_working_directory :
  let extract :=
    collectDeclarationsIn SLASH relative_posix (fun _ _ => mixedUnit_tree) in
  extract (js "/a") (js "/a/src/x.ts") mixedUnit true
  <> extract (js "/a/src") (js "/a/src/x.ts") mixedUnit true
  /\ List.map file (extract (js "/a") (js "/a/src/x.ts") mixedUnit true)
     = repeat (js "src/x.ts") 6
  /\ List.map file (extract (js "/a/src") (js "/a/src/x.ts") mixedUnit true)
     = repeat (js "x.ts") 6.
Proof.
  intros extract.
  assert (A : List.map file
                (extract (js "/a") (js "/a/src/x.ts") mixedUnit true)
              = repeat (js "src/x.ts") 6) by (vm_compute; reflexivity).
  assert (B : List.map file
                (extract (js "/a/src") (js "/a/src/x.ts") mixedUnit true)
              = repeat (js "x.ts") 6) by (vm_compute; reflexivity).
  split; [|split; [exact A|exact B]].
  intros E. rewrite E, B in A. discriminate A.
Qed.

(* ------------------------------------------------------------------ *)
(** ** The replace engines *)
(* ------------------------------------------------------------------ *)

Lemma last_opt_app p a b : last_opt p (a ++ b) = last_opt (last_opt p a) b.
Proof. revert p. induction a as [|c a IH]; intros p; simpl; auto. Qed.

Lemma starts_with_app p s : starts_with p (p ++ s) = true.
Proof.
  induction p as [|c p IH]; simpl; [reflexivity|].
  now rewrite N.eqb_refl, IH.
Qed.

Lemma starts_with_split p s :
  starts_with p s = true -> s = p ++ skipn (length p) s.
Proof.
  revert s. induction p as [|c p IH]; intros [|d s]; simpl; try discriminate;
    [reflexivity..|].
  intros H. apply andb_prop in H as [Hc Hp]. apply N.eqb_eq in Hc. subst d.
  f_equal. now apply IH.
Qed.

Section Engine.
Variable m : matcher.
Variable r : str.

(** While [skip] code units of a match remain, they are dropped. *)
Lemma replaceAll_from_skip prev x rest :
  replaceAll_from m r prev (length x) (x ++ rest)
  = replaceAll_from m r (last_opt prev x) 0 rest.
Proof.
  revert prev. induction x as [|c x IH]; intros prev; simpl; auto.
Qed.

Lemma replaceAll_from_none prev c t :
  m prev (c :: t) = None ->
  replaceAll_from m r prev 0 (c :: t)
  = c :: replaceAll_from m r (Some c) 0 t.
Proof. intros H. simpl. now rewrite H. Qed.

(** A match [x], not empty, is replaced and the scan goes on behind it. *)
Lemma replaceAll_from_match prev x rest :
  x <> [] ->
  m prev (x ++ rest) = Some (length x) ->
  replaceAll_from m r prev 0 (x ++ rest)
  = r ++ replaceAll_from m r (last_opt prev x) 0 rest.
Proof.
  destruct x as [|c x]; [congruence|]. intros _ H.
  cbn [app replaceAll_from]. change (c :: x ++ rest) with ((c :: x) ++ rest).
  rewrite H. cbn [length]. f_equal. apply (replaceAll_from_skip (Some c)).
Qed.

(** Matchers that do not look behind make the scan independent of the
    code unit before it. *)
Hypothesis m_forward : forall p q s, m p s = m q s.

Lemma replaceAll_from_forward p q k s :
  replaceAll_from m r p k s = replaceAll_from m r q k s.
Proof.
  revert p q k. induction s as [|c t IH]; intros p q k; simpl.
  - now rewrite (m_forward p q).
  - destruct k; [|apply IH]. rewrite (m_forward p q).
    destruct (m q (c :: t)) as [[|k]|]; repeat f_equal; apply IH.
Qed.
End Engine.

(* ------------------------------------------------------------------ *)
(** ** Words *)
(* ------------------------------------------------------------------ *)

Lemma is_word_range c : is_word c = true -> (48 <= c <= 122)%N.
Proof.
  unfold is_word.
  rewrite !orb_true_iff, !andb_true_iff, !N.leb_le, N.eqb_eq. lia.
Qed.

Lemma is_word_not_space c : is_word c = true -> is_space c = false.
Proof.
  intros H. apply is_word_range in H. unfold is_space.
  rewrite !orb_false_iff, !andb_false_iff, !N.leb_gt, !N.eqb_neq. lia.
Qed.

Lemma is_space_not_word c : is_space c = true -> is_word c = false.
Proof.
  intros H. destruct (is_word c) eqn:E; [|reflexivity].
  apply is_word_not_space in E. congruence.
Qed.

Lemma flush_In w cur : In w (flush cur) <-> w = cur /\ cur <> [].
Proof.
  destruct cur as [|c cur]; simpl.
  - split; [tauto|]. intros [_ H]. congruence.
  - split.
    + intros [<-|[]]. split; [reflexivity|discriminate].
    + intros [-> _]. now left.
Qed.

Lemma words_from_word_run cur w t :
  Forall (fun c => is_word c = true) w ->
  words_from cur (w ++ t) = words_from (cur ++ w) t.
Proof.
  intros H. revert cur. induction H as [|c w Hc _ IH]; intros cur; simpl.
  - now rewrite app_nil_r.
  - rewrite Hc, IH, <- app_assoc. reflexivity.
Qed.

Lemma last_opt_In p c s :
  exists x, last_opt p (c :: s) = Some x /\ In x (c :: s).
Proof.
  revert p c. induction s as [|d s IH]; intros p c.
  - exists c. simpl. auto.
  - destruct (IH (Some c) d) as (x & Hx & Hi). exists x.
    split; [exact Hx|now right].
Qed.

Lemma last_opt_word p w :
  w <> [] -> Forall (fun c => is_word c = true) w ->
  opt_word (last_opt p w) = true.
Proof.
  destruct w as [|c w]; [congruence|]. intros _ H.
  destruct (last_opt_In p c w) as (x & -> & Hi).
  rewrite Forall_forall in H. now apply H.
Qed.

Lemma words_from_app cur a b :
  Forall (fun c => is_word c = true) cur ->
  opt_word (last_opt (last_opt None cur) a) = false
  \/ opt_word (hd_error b) = false ->
  words_from cur (a ++ b) = words_from cur a ++ words_from [] b.
Proof.
  revert cur. induction a as [|c a IH]; intros cur Hcur H; simpl.
  - destruct cur as [|d cur]; [reflexivity|].
    destruct H as [H|H].
    + assert (Hl : opt_word (last_opt None (d :: cur)) = true)
        by (apply last_opt_word; [discriminate|assumption]).
      simpl in H, Hl. congruence.
    + destruct b as [|e b]; simpl; [reflexivity|].
      simpl in H. now rewrite H.
  - destruct (is_word c) eqn:Hc.
    + apply IH.
      * apply Forall_app. split; [assumption|]. now repeat constructor.
      * rewrite last_opt_app. exact H.
    + rewrite <- app_assoc. f_equal. apply IH; [apply Forall_nil|].
      destruct H as [H|H]; [left|now right].
      destruct a; simpl in *; [reflexivity|exact H].
Qed.

Lemma words_app a b : hard a b -> words (a ++ b) = words a ++ words b.
Proof. intros H. apply words_from_app; [constructor|exact H]. Qed.

Lemma words_cons_nonword c t : is_word c = false -> words (c :: t) = words t.
Proof. intros H. unfold words. simpl. now rewrite H. Qed.

Lemma words_run w t :
  wordy w -> opt_word (hd_error t) = false ->
  words (w ++ t) = w :: words t.
Proof.
  intros [Hne Hw] Ht. unfold words.
  rewrite words_from_word_run by assumption. simpl.
  destruct t as [|c t]; simpl.
  - destruct w; [congruence|reflexivity].
  - simpl in Ht. rewrite Ht. destruct w; [congruence|reflexivity].
Qed.

Lemma occurrence_in_words n s :
  wordy n -> whole_word_occurrence n s -> In n (words s).
Proof.
  intros Hn (pre & post & -> & Hb & He).
  destruct Hn as [Hne Hw].
  assert (Hh : opt_word (hd_error (n ++ post)) = true).
  { destruct n as [|c n]; [congruence|]. simpl. now inversion Hw. }
  unfold word_boundary in *.
  rewrite (last_opt_word _ n Hne Hw) in He. rewrite Hh in Hb.
  destruct (opt_word (last_opt None pre)) eqn:Hp; [discriminate|].
  destruct (opt_word (hd_error post)) eqn:Hq; [discriminate|].
  rewrite words_app by (left; exact Hp).
  apply in_or_app. right. rewrite words_run; [now left|now split|exact Hq].
Qed.

(* ------------------------------------------------------------------ *)
(** ** Replacing the declaration name *)
(* ------------------------------------------------------------------ *)

Lemma not_special_not_backslash a :
  is_regexp_special a = false -> (a =? BACKSLASH)%N = false.
Proof.
  unfold is_regexp_special. simpl. rewrite !orb_false_iff. tauto.
Qed.

(** [escapeRegExp] yields a pattern that matches its argument, code unit
    for code unit. *)
Lemma pattern_literal_escape n : pattern_literal (escapeRegExp n) = Some n.
Proof.
  induction n as [|a n IH]; [reflexivity|].
  unfold escapeRegExp in *. cbn [flat_map].
  destruct (is_regexp_special a) eqn:E.
  - cbn [app pattern_literal]. rewrite N.eqb_refl, E, IH. reflexivity.
  - cbn [app pattern_literal].
    rewrite (not_special_not_backslash _ E), E, IH. reflexivity.
Qed.

Lemma namedPattern_eq n : namedPattern n = re_whole_word n.
Proof. unfold namedPattern. now rewrite pattern_literal_escape. Qed.

Lemma word_span s :
  exists w t, s = w ++ t /\ Forall (fun c => is_word c = true) w
              /\ opt_word (hd_error t) = false.
Proof.
  induction s as [|c s (w & t & -> & Hw & Ht)].
  - exists [], []. auto.
  - destruct (is_word c) eqn:Hc.
    + exists (c :: w), t. auto.
    + exists [], (c :: w ++ t). simpl. auto.
Qed.

Lemma word_prefix_unique w n t u :
  Forall (fun c => is_word c = true) w ->
  Forall (fun c => is_word c = true) n ->
  opt_word (hd_error t) = false -> opt_word (hd_error u) = false ->
  w ++ t = n ++ u -> w = n.
Proof.
  intros Hw. revert n. induction Hw as [|c w Hc _ IH]; intros n Hn Ht Hu E.
  - destruct Hn as [|d n Hd _]; [reflexivity|].
    simpl in E. subst t. simpl in Ht. congruence.
  - destruct Hn as [|d n Hd Hn].
    + simpl in E. subst u. simpl in Hu. congruence.
    + injection E as -> E. f_equal. now apply IH.
Qed.

Section NameReplacement.
Variable n : str.
Hypothesis n_wordy : wordy n.

Let R := replaceAll_from (re_whole_word n) PLACEHOLDER.
Let subst (w : str) : str := if str_eqb w n then PLACEHOLDER else w.

Lemma re_whole_word_nonword p c t :
  is_word c = false -> re_whole_word n p (c :: t) = None.
Proof.
  intros Hc. unfold re_whole_word.
  destruct n_wordy as [Hne Hw]. destruct n as [|d n']; [congruence|].
  simpl. destruct (N.eqb_spec d c) as [->|_].
  - inversion Hw; congruence.
  - now rewrite andb_false_r.
Qed.

Lemma re_whole_word_inside p c t :
  opt_word p = true -> is_word c = true ->
  re_whole_word n p (c :: t) = None.
Proof.
  intros Hp Hc. unfold re_whole_word, word_boundary. simpl.
  now rewrite Hp, Hc.
Qed.

Lemma R_nil p : R p 0 [] = [].
Proof.
  unfold R. simpl. unfold re_whole_word.
  destruct n_wordy as [Hne _]. destruct n; [congruence|].
  simpl. now rewrite andb_false_r.
Qed.

Lemma R_nonword p c t :
  is_word c = false -> R p 0 (c :: t) = c :: R (Some c) 0 t.
Proof.
  intros Hc. apply replaceAll_from_none. now apply re_whole_word_nonword.
Qed.

Lemma R_inside p w t :
  opt_word p = true -> Forall (fun c => is_word c = true) w ->
  R p 0 (w ++ t) = w ++ R (last_opt p w) 0 t.
Proof.
  intros Hp Hw. revert p Hp.
  induction Hw as [|c w Hc _ IH]; intros p Hp; [reflexivity|].
  cbn [app last_opt]. unfold R.
  rewrite replaceAll_from_none by now apply re_whole_word_inside.
  f_equal. now apply IH.
Qed.

Lemma R_run p w t :
  opt_word p = false -> wordy w -> opt_word (hd_error t) = false ->
  R p 0 (w ++ t) = subst w ++ R (last_opt p w) 0 t.
Proof.
  intros Hp [Hne Hw] Ht. unfold subst.
  destruct n_wordy as [Hnne Hnw].
  assert (Hhead : opt_word (hd_error (w ++ t)) = true).
  { destruct w as [|c w]; [congruence|]. simpl. now inversion Hw. }
  destruct (str_eqb w n) eqn:E.
  - apply str_eqb_eq in E. subst w. apply replaceAll_from_match; [assumption|].
    unfold re_whole_word, word_boundary.
    rewrite Hp, Hhead, starts_with_app, skipn_app, skipn_all, Nat.sub_diag.
    simpl. now rewrite (last_opt_word p n Hnne Hnw), Ht.
  - apply str_eqb_neq in E.
    assert (Hnone : re_whole_word n p (w ++ t) = None).
    { unfold re_whole_word, word_boundary. rewrite Hp, Hhead. simpl.
      destruct (starts_with n (w ++ t)) eqn:Hs; [|reflexivity].
      rewrite (last_opt_word p n Hnne Hnw). simpl.
      destruct (opt_word (hd_error (skipn (length n) (w ++ t)))) eqn:Hu;
        [reflexivity|].
      exfalso. apply E. apply starts_with_split in Hs.
      exact (word_prefix_unique w n t _ Hw Hnw Ht Hu Hs). }
    destruct w as [|c w]; [congruence|].
    cbn [app] in *. unfold R.
    rewrite replaceAll_from_none by assumption.
    f_equal. inversion_clear Hw as [|? ? Hc Hw'].
    apply (R_inside (Some c) w t); assumption.
Qed.

Lemma R_head p t :
  opt_word (hd_error t) = false -> opt_word (hd_error (R p 0 t)) = false.
Proof.
  destruct t as [|c t]; intros H.
  - now rewrite R_nil.
  - simpl in H. now rewrite R_nonword.
Qed.

Lemma PLACEHOLDER_wordy : wordy PLACEHOLDER.
Proof. split; [discriminate|]. repeat constructor. Qed.

Lemma subst_wordy w : wordy w -> wordy (subst w).
Proof.
  unfold subst. destruct (str_eqb w n); auto using PLACEHOLDER_wordy.
Qed.

(** The words of the result are the words of the input, the name
    replaced by the placeholder. *)
Lemma words_R len :
  forall s p,
    length s <= len ->
    opt_word p = false \/ opt_word (hd_error s) = false ->
    words (R p 0 s) = List.map subst (words s).
Proof.
  induction len as [|len IH]; intros s p Hlen Hstart.
  - destruct s; [|simpl in Hlen; lia]. now rewrite R_nil.
  - destruct s as [|c s]; [now rewrite R_nil|].
    destruct (is_word c) eqn:Hc.
    + destruct Hstart as [Hp|Hs]; [|simpl in Hs; congruence].
      destruct (word_span (c :: s)) as (w & t & E & Hw & Ht).
      assert (Hwne : w <> []).
      { intros ->. simpl in E. subst t. simpl in Ht. congruence. }
      assert (Hlt : length t <= len).
      { apply (f_equal (@length _)) in E. rewrite length_app in E.
        simpl in E, Hlen. destruct w; [congruence|]. simpl in E. lia. }
      rewrite E, R_run by (try split; assumption).
      rewrite (words_run w t) by (try split; assumption).
      rewrite (words_run (subst w) (R (last_opt p w) 0 t));
        [|apply subst_wordy; now split|now apply R_head].
      cbn [List.map]. f_equal. apply IH; [assumption|now right].
    + rewrite R_nonword, !words_cons_nonword by assumption.
      apply IH; [simpl in Hlen; lia|]. left. exact Hc.
Qed.

Lemma words_replace_name s :
  words (replaceAll (namedPattern n) PLACEHOLDER s)
  = List.map subst (words s).
Proof.
  rewrite namedPattern_eq. apply (words_R (length s)); [lia|now left].
Qed.

Lemma name_replaced s :
  n <> PLACEHOLDER ->
  ~ In n (words (replaceAll (namedPattern n) PLACEHOLDER s)).
Proof.
  intros Hne. rewrite words_replace_name. intros H.
  apply in_map_iff in H as (w & Hw & _). unfold subst in Hw.
  destruct (str_eqb w n) eqn:E; [congruence|].
  apply str_eqb_neq in E. congruence.
Qed.
End NameReplacement.

(* ------------------------------------------------------------------ *)
(** ** The single rewrites of [normalizeShape] *)
(* ------------------------------------------------------------------ *)

Lemma replaceFirst_from_spec m r p s :
  replaceFirst_from m r p s = s
  \/ exists a b k,
       s = a ++ b /\ m (last_opt p a) b = Some k
       /\ replaceFirst_from m r p s = a ++ r ++ skipn k b.
Proof.
  revert p. induction s as [|c t IH]; intros p; simpl.
  - destruct (m p []) as [k|] eqn:E; [|now left].
    right. exists [], [], k. auto.
  - destruct (m p (c :: t)) as [k|] eqn:E.
    + right. exists [], (c :: t), k. auto.
    + destruct (IH (Some c)) as [->|(a & b & k & -> & Hm & ->)];
        [now left|].
      right. exists (c :: a), b, k. auto.
Qed.

Lemma span_len_split f s :
  s = firstn (span_len f s) s ++ skipn (span_len f s) s
  /\ Forall (fun c => f c = true) (firstn (span_len f s) s)
  /\ length (firstn (span_len f s) s) = span_len f s.
Proof.
  induction s as [|c s (E & Hf & Hl)]; simpl; [auto|].
  destruct (f c) eqn:Hc; simpl; [|auto].
  repeat split; [now f_equal|now constructor|now f_equal].
Qed.

Lemma span_len_all f s : Forall (fun c => f c = true) s -> span_len f s = length s.
Proof. induction 1 as [|c s Hc _ IH]; simpl; [reflexivity|]. now rewrite Hc, IH. Qed.

Lemma span_len_app f w t :
  Forall (fun c => f c = true) w ->
  span_len f (w ++ t) = length w + span_len f t.
Proof. induction 1 as [|c w Hc _ IH]; simpl; [reflexivity|]. now rewrite Hc, IH. Qed.

Lemma span_dec f s :
  exists w t, s = w ++ t /\ Forall (fun c => f c = true) w
              /\ span_len f s = length w /\ skipn (span_len f s) s = t.
Proof.
  destruct (span_len_split f s) as (E & Hf & Hl).
  exists (firstn (span_len f s) s), (skipn (span_len f s) s). auto.
Qed.

Lemma starts_with_dec p s : starts_with p s = true -> exists t, s = p ++ t.
Proof. intros H. eexists. now apply starts_with_split. Qed.

Lemma skipn_length_app (x y : str) : skipn (length x) (x ++ y) = y.
Proof. induction x; simpl; auto. Qed.

Lemma skipn_exact (x rest s : str) k :
  s = x ++ rest -> k = length x -> skipn k s = rest.
Proof. intros -> ->. apply skipn_length_app. Qed.

Lemma last_opt_Forall (P : char -> Prop) p w :
  w <> [] -> Forall P w -> exists x, last_opt p w = Some x /\ P x.
Proof.
  destruct w as [|c w]; [congruence|]. intros _ H.
  destruct (last_opt_In p c w) as (x & Hx & Hi). exists x.
  split; [assumption|]. rewrite Forall_forall in H. now apply H.
Qed.

Lemma last_opt_space p w :
  w <> [] -> Forall (fun c => is_space c = true) w ->
  opt_word (last_opt p w) = false.
Proof.
  intros Hne Hw.
  destruct (last_opt_Forall (fun c => is_space c = true) p w Hne Hw)
    as (x & -> & Hx).
  simpl. now apply is_space_not_word.
Qed.

Lemma boundary_before_word p c :
  is_word c = true -> word_boundary p (Some c) = true -> opt_word p = false.
Proof.
  unfold word_boundary. simpl. intros ->. now destruct (opt_word p).
Qed.

Lemma re_interface_shape p b k :
  re_interface p b = Some k ->
  opt_word p = false
  /\ exists w1 w2 rest,
       b = js "interface" ++ w1 ++ PLACEHOLDER ++ w2 ++ 123%N :: rest
       /\ w1 <> [] /\ Forall (fun c => is_space c = true) w1
       /\ skipn k b = rest.
Proof.
  unfold re_interface.
  destruct (word_boundary p (hd_error b)) eqn:Hb; [|discriminate].
  destruct (starts_with (js "interface") b) eqn:Hs; [|discriminate].
  apply starts_with_dec in Hs as [s1 ->].
  change (skipn 9 (js "interface" ++ s1)) with s1. cbn [andb].
  destruct (span_dec is_space s1) as (w1 & t1 & -> & Hw1 & -> & ->).
  destruct (Nat.leb_spec 1 (length w1)) as [Hl|]; [|discriminate].
  cbn [andb].
  destruct (starts_with PLACEHOLDER t1) eqn:Hp; [|discriminate].
  apply starts_with_dec in Hp as [s2 ->].
  change (skipn 8 (PLACEHOLDER ++ s2)) with s2.
  destruct (span_dec is_space s2) as (w2 & t2 & -> & Hw2 & -> & ->).
  destruct (starts_with (js "{") t2) eqn:Hc; [|discriminate].
  apply starts_with_dec in Hc as [rest ->]. intros [= <-].
  split; [now apply (boundary_before_word p 105%N)|].
  exists w1, w2, rest. repeat split; try assumption.
  - destruct w1; [simpl in Hl; lia|discriminate].
  - apply (skipn_exact
             (js "interface" ++ w1 ++ PLACEHOLDER ++ w2 ++ js "{")).
    + now rewrite <- !app_assoc.
    + rewrite !length_app.
      change (length (js "interface")) with 9.
      change (length PLACEHOLDER) with 8.
      change (length (js "{")) with 1. lia.
Qed.

Lemma re_export_shape p b k :
  re_export p b = Some k ->
  p = None
  /\ exists w,
       b = js "export" ++ w ++ skipn k b
       /\ w <> [] /\ Forall (fun c => is_space c = true) w.
Proof.
  unfold re_export. destruct p; [discriminate|].
  destruct (starts_with (js "export") b) eqn:Hs; [|discriminate].
  apply starts_with_dec in Hs as [s1 ->].
  change (skipn 6 (js "export" ++ s1)) with s1.
  destruct (span_dec is_space s1) as (w1 & t1 & -> & Hw1 & -> & _).
  destruct (Nat.leb_spec 1 (length w1)) as [Hl|]; [|discriminate].
  intros [= <-]. split; [reflexivity|]. exists w1.
  erewrite (skipn_exact (js "export" ++ w1) t1);
    [|now rewrite <- !app_assoc|rewrite length_app; reflexivity].
  repeat split; [|assumption].
  destruct w1; [simpl in Hl; lia|discriminate].
Qed.

Lemma re_const_enum_shape p b k :
  re_const_enum p b = Some k ->
  opt_word p = false
  /\ exists w,
       b = js "const" ++ w ++ js "enum" ++ skipn k b
       /\ w <> [] /\ Forall (fun c => is_space c = true) w
       /\ opt_word (hd_error (skipn k b)) = false.
Proof.
  unfold re_const_enum.
  destruct (word_boundary p (hd_error b)) eqn:Hb; [|discriminate].
  destruct (starts_with (js "const") b) eqn:Hs; [|discriminate].
  apply starts_with_dec in Hs as [s1 ->].
  change (skipn 5 (js "const" ++ s1)) with s1. cbn [andb].
  destruct (span_dec is_space s1) as (w1 & t1 & -> & Hw1 & -> & ->).
  destruct (Nat.leb_spec 1 (length w1)) as [Hl|]; [|discriminate].
  cbn [andb].
  destruct (starts_with (js "enum") t1) eqn:Hp; [|discriminate].
  apply starts_with_dec in Hp as [rest ->].
  change (skipn 4 (js "enum" ++ rest)) with rest. cbn [andb].
  destruct (word_boundary (Some 109%N) (hd_error rest)) eqn:He;
    [|discriminate].
  intros [= <-].
  split; [now apply (boundary_before_word p 99%N)|].
  exists w1.
  erewrite (skipn_exact (js "const" ++ w1 ++ js "enum") rest);
    [|now rewrite <- !app_assoc|].
  - repeat split; try assumption.
    + destruct w1; [simpl in Hl; lia|discriminate].
    + unfold word_boundary in He. simpl in He.
      now destruct (opt_word (hd_error rest)).
  - rewrite !length_app. change (length (js "const")) with 5.
    change (length (js "enum")) with 4. lia.
Qed.

Lemma re_trailing_semicolon_shape p b k :
  re_trailing_semicolon p b = Some k ->
  k = length b /\ opt_word (hd_error b) = false.
Proof.
  unfold re_trailing_semicolon.
  destruct (span_dec is_space b) as (w & t & -> & Hw & -> & ->).
  destruct t as [|c r]; [discriminate|].
  destruct (N.eqb_spec c 59) as [->|]; [|discriminate].
  destruct (span_len is_space r =? length r); [|discriminate].
  intros [= <-]. split; [reflexivity|].
  destruct Hw as [|d w Hd _]; [reflexivity|].
  simpl. now apply is_space_not_word.
Qed.

Lemma last_opt_snoc p x c : last_opt p (x ++ [c]) = Some c.
Proof. now rewrite last_opt_app. Qed.

Lemma last_opt_None_nil a : last_opt None a = None -> a = [].
Proof.
  destruct a as [|c a]; [reflexivity|].
  destruct (last_opt_In None c a) as (x & Hx & _). congruence.
Qed.

Lemma words_suffix x y w : hard x y -> In w (words y) -> In w (words (x ++ y)).
Proof. intros H Hw. rewrite words_app by assumption. apply in_or_app. auto. Qed.

Lemma words_prefix x y w : hard x y -> In w (words x) -> In w (words (x ++ y)).
Proof. intros H Hw. rewrite words_app by assumption. apply in_or_app. auto. Qed.

Lemma words_interface_rewrite s w :
  In w (words (replaceFirst re_interface (js "type __NAME__ = {") s)) ->
  In w (words s) \/ w = js "type" \/ w = PLACEHOLDER.
Proof.
  unfold replaceFirst.
  destruct (replaceFirst_from_spec re_interface (js "type __NAME__ = {")
              None s) as [->|(a & b & k & -> & Hm & ->)]; [auto|].
  apply re_interface_shape in Hm
    as (Hp & w1 & w2 & rest & -> & Hne & Hw1 & ->).
  intros H. rewrite words_app in H by (left; exact Hp).
  apply in_app_iff in H as [H|H].
  { left. apply words_prefix; [left; exact Hp|exact H]. }
  change (js "type __NAME__ = {" ++ rest)
    with ((js "type __NAME__ = " ++ [123%N]) ++ rest) in H.
  rewrite words_app in H by (left; now rewrite last_opt_snoc).
  apply in_app_iff in H as [H|H].
  - right. vm_compute in H. destruct H as [<-|[<-|[]]]; auto.
  - left. apply words_suffix; [left; exact Hp|].
    replace (js "interface" ++ w1 ++ PLACEHOLDER ++ w2 ++ 123%N :: rest)
      with ((js "interface" ++ w1 ++ PLACEHOLDER ++ w2 ++ [123%N]) ++ rest)
      by (now rewrite <- !app_assoc).
    apply words_suffix; [|assumption].
    left. rewrite !app_assoc. now rewrite last_opt_snoc.
Qed.

Lemma words_export_strip s w :
  In w (words (replaceFirst re_export [] s)) -> In w (words s).
Proof.
  unfold replaceFirst.
  destruct (replaceFirst_from_spec re_export [] None s)
    as [->|(a & b & k & -> & Hm & ->)]; [auto|].
  apply re_export_shape in Hm as (Hp & w1 & E & Hne & Hw1).
  apply last_opt_None_nil in Hp. subst a. simpl. rewrite E at 2.
  rewrite app_assoc. apply words_suffix.
  left. rewrite last_opt_app. now apply last_opt_space.
Qed.

Lemma words_const_enum s w :
  In w (words (replaceFirst re_const_enum (js "enum") s)) -> In w (words s).
Proof.
  unfold replaceFirst.
  destruct (replaceFirst_from_spec re_const_enum (js "enum") None s)
    as [->|(a & b & k & -> & Hm & ->)]; [auto|].
  apply re_const_enum_shape in Hm as (Hp & w1 & E & Hne & Hw1 & Hr).
  intros H. rewrite words_app in H by (left; exact Hp).
  apply in_app_iff in H as [H|H].
  { apply words_prefix; [left; exact Hp|exact H]. }
  apply words_suffix; [left; exact Hp|].
  rewrite E, app_assoc. apply words_suffix; [|assumption].
  left. rewrite last_opt_app. now apply last_opt_space.
Qed.

Lemma words_semicolon_strip s w :
  In w (words (replaceFirst re_trailing_semicolon [] s)) -> In w (words s).
Proof.
  unfold replaceFirst.
  destruct (replaceFirst_from_spec re_trailing_semicolon [] None s)
    as [->|(a & b & k & -> & Hm & ->)]; [auto|].
  apply re_trailing_semicolon_shape in Hm as (-> & Hb).
  rewrite skipn_all. simpl. rewrite app_nil_r.
  apply words_prefix. now right.
Qed.

(** After the name has been replaced, the later rewrites bring in no word
    but [type]. *)
Lemma words_normalizeShape n s w :
  In w (words (normalizeShape s n)) ->
  In w (words (replaceAll (namedPattern n) PLACEHOLDER
                 (normalizeWhitespace s)))
  \/ w = js "type" \/ w = PLACEHOLDER.
Proof.
  unfold normalizeShape. intros H.
  apply words_semicolon_strip, words_const_enum, words_export_strip in H.
  now apply words_interface_rewrite in H.
Qed.

(** C2 (as the code behaves).  For a name made of letters, digits and
    underscores, other than [type] and the placeholder itself, the
    fingerprint holds no whole-word occurrence of the name, whatever the
    snippet.  Normalizing the self-referencing TreeNode interface gives a
    fingerprint without TreeNode and with the placeholder twice. *)
Theorem declared_name_replaced (n s : str) :
  wordy n -> n <> PLACEHOLDER -> n <> js "type" ->
  ~ whole_word_occurrence n (normalizeShape s n)
  /\ ~ In n (words (normalizeShape s n))
  /\ let fp := normalizeShape
                 (js "interface TreeNode { children: TreeNode[]; }")
                 (js "TreeNode") in
     fp = js "type __NAME__ = { children: __NAME__[]; }"
     /\ occurrences (js "TreeNode") fp = 0
     /\ occurrences PLACEHOLDER fp = 2.
Proof.
  intros Hn Hph Hty.
  assert (Hw : ~ In n (words (normalizeShape s n))).
  { intros H. apply words_normalizeShape in H as [H|[H|H]]; try congruence.
    now apply (name_replaced n Hn (normalizeWhitespace s)) in H. }
  split; [|split; [exact Hw|]].
  - intros H. apply Hw. now apply occurrence_in_words.
  - vm_compute. auto.
Qed.

Lemma declared_name_replaced_witness :
  wordy (js "Foo") /\ js "Foo" <> PLACEHOLDER /\ js "Foo" <> js "type"
  /\ ~ whole_word_occurrence (js "Foo")
         (normalizeShape (js "interface Foo { next: Foo | FooBar; }")
            (js "Foo")).
Proof.
  assert (H1 : wordy (js "Foo"))
    by (split; [discriminate|repeat constructor]).
  assert (H2 : js "Foo" <> PLACEHOLDER) by discriminate.
  assert (H3 : js "Foo" <> js "type") by discriminate.
  split; [exact H1|split; [exact H2|split; [exact H3|]]].
  exact (proj1 (declared_name_replaced (js "Foo")
                  (js "interface Foo { next: Foo | FooBar; }") H1 H2 H3)).
Defined.

(** C2 (as stated) fails for the names [type] and [__NAME__], both
    identifiers: the fingerprint of an interface so named holds the name
    as a whole word. *)
Lemma declared_name_survives :
  whole_word_occurrence (js "type")
    (normalizeShape (js "interface type { a: string; }") (js "type"))
  /\ whole_word_occurrence PLACEHOLDER
       (normalizeShape (js "interface __NAME__ { a: string; }") PLACEHOLDER).
Proof.
  split.
  - exists [], (js " __NAME__ = { a: string; }").
    split; [vm_compute; reflexivity|]. split; reflexivity.
  - exists (js "type "), (js " = { a: string; }").
    split; [vm_compute; reflexivity|]. split; reflexivity.
Qed.

(* ------------------------------------------------------------------ *)
(** ** Comments and white space *)
(* ------------------------------------------------------------------ *)

Lemma re_block_forward p q s : re_block_comment p s = re_block_comment q s.
Proof. reflexivity. Qed.

Lemma re_line_forward p q s : re_line_comment p s = re_line_comment q s.
Proof. reflexivity. Qed.

Lemma re_spaces_forward p q s : re_spaces p s = re_spaces q s.
Proof. reflexivity. Qed.

Lemma stripBlock_copy p c t :
  re_block_comment p (c :: t) = None ->
  stripBlock (c :: t) = c :: stripBlock t.
Proof.
  intros H. unfold stripBlock, replaceAll.
  rewrite replaceAll_from_none by (now rewrite (re_block_forward None p)).
  f_equal. apply replaceAll_from_forward, re_block_forward.
Qed.

Lemma stripLine_copy p c t :
  re_line_comment p (c :: t) = None ->
  stripLine (c :: t) = c :: stripLine t.
Proof.
  intros H. unfold stripLine, replaceAll.
  rewrite replaceAll_from_none by (now rewrite (re_line_forward None p)).
  f_equal. apply replaceAll_from_forward, re_line_forward.
Qed.

Lemma not_slash c : c <> SLASH -> (c =? SLASH)%N = false.
Proof. intros H. now apply N.eqb_neq. Qed.

Lemma stripBlock_unit c t : c <> SLASH -> stripBlock (c :: t) = c :: stripBlock t.
Proof.
  intros H. apply (stripBlock_copy None). unfold re_block_comment.
  destruct t; [reflexivity|]. now rewrite (not_slash c H).
Qed.

Lemma stripLine_unit c t : c <> SLASH -> stripLine (c :: t) = c :: stripLine t.
Proof.
  intros H. apply (stripLine_copy None). unfold re_line_comment.
  destruct t; [reflexivity|]. now rewrite (not_slash c H).
Qed.

Lemma find_close_cons a b t :
  find_close (a :: b :: t)
  = if ((a =? STAR) && (b =? SLASH))%N then Some 0
    else option_map S (find_close (b :: t)).
Proof. reflexivity. Qed.

Lemma find_close_end body rest :
  find_close body = None ->
  find_close (body ++ STAR :: SLASH :: rest) = Some (length body).
Proof.
  induction body as [|a body IH]; intros H; [reflexivity|].
  destruct body as [|b body].
  - simpl. destruct (N.eqb_spec a STAR); reflexivity.
  - rewrite find_close_cons in H.
    change ((a :: b :: body) ++ STAR :: SLASH :: rest)
      with (a :: b :: body ++ STAR :: SLASH :: rest).
    rewrite find_close_cons.
    destruct ((a =? STAR) && (b =? SLASH))%N; [discriminate|].
    destruct (find_close (b :: body)) eqn:E; [discriminate|].
    change (b :: body ++ STAR :: SLASH :: rest)
      with ((b :: body) ++ STAR :: SLASH :: rest).
    rewrite IH by reflexivity. reflexivity.
Qed.

Lemma stripBlock_comment body rest :
  find_close body = None ->
  stripBlock (SLASH :: STAR :: body ++ [STAR; SLASH] ++ rest)
  = SPACE :: stripBlock rest.
Proof.
  intros H. unfold stripBlock, replaceAll.
  change (SLASH :: STAR :: body ++ [STAR; SLASH] ++ rest)
    with ((SLASH :: STAR :: body) ++ [STAR; SLASH] ++ rest).
  rewrite app_assoc.
  rewrite replaceAll_from_match.
  - cbn [app]. f_equal. apply replaceAll_from_forward, re_block_forward.
  - discriminate.
  - rewrite <- app_assoc. cbn [app re_block_comment].
    rewrite !N.eqb_refl. cbn [andb].
    rewrite (find_close_end body rest H). cbn [option_map].
    f_equal. cbn [length]. rewrite length_app. simpl. lia.
Qed.

Lemma terminator_not_slash t : is_line_terminator t = true -> t <> SLASH.
Proof. intros H ->. discriminate. Qed.

Lemma terminator_not_star t : is_line_terminator t = true -> t <> STAR.
Proof. intros H ->. discriminate. Qed.

Lemma terminator_is_space t : is_line_terminator t = true -> is_space t = true.
Proof.
  unfold is_line_terminator, is_space.
  rewrite !orb_true_iff, !andb_true_iff, !N.leb_le, !N.eqb_eq. lia.
Qed.

Lemma stripBlock_units s rest :
  Forall (fun c => c <> SLASH) s ->
  stripBlock (s ++ rest) = s ++ stripBlock rest.
Proof.
  induction 1 as [|c s Hc _ IH]; [reflexivity|].
  cbn [app]. rewrite stripBlock_unit by assumption. now f_equal.
Qed.

Lemma stripLine_units s rest :
  Forall (fun c => c <> SLASH) s ->
  stripLine (s ++ rest) = s ++ stripLine rest.
Proof.
  induction 1 as [|c s Hc _ IH]; [reflexivity|].
  cbn [app]. rewrite stripLine_unit by assumption. now f_equal.
Qed.

Section LineComment.
Variables (body : str) (t : char).
Hypothesis body_plain :
  Forall (fun c => is_line_terminator c = false /\ c <> STAR) body.
Hypothesis t_terminator : is_line_terminator t = true.

Lemma stripBlock_starless w rest :
  Forall (fun c => c <> STAR) w ->
  stripBlock (w ++ t :: rest) = w ++ t :: stripBlock rest.
Proof.
  induction 1 as [|c w Hc Hw IH]; cbn [app].
  - apply stripBlock_unit. now apply terminator_not_slash.
  - rewrite (stripBlock_copy None); [now f_equal|].
    unfold re_block_comment.
    destruct (N.eqb_spec c SLASH) as [_|_]; [|now destruct (w ++ t :: rest)].
    destruct w as [|d w]; cbn [app andb].
    + destruct (N.eqb_spec t STAR) as [E|_]; [|reflexivity].
      now apply terminator_not_star in E.
    + inversion_clear Hw as [|? ? Hd _].
      now apply N.eqb_neq in Hd as ->.
Qed.

Lemma stripBlock_line_comment rest :
  stripBlock (SLASH :: SLASH :: body ++ [t] ++ rest)
  = SLASH :: SLASH :: body ++ t :: stripBlock rest.
Proof.
  apply (stripBlock_starless (SLASH :: SLASH :: body)).
  repeat constructor; try discriminate.
  eapply Forall_impl; [|exact body_plain]. simpl. tauto.
Qed.

Lemma stripLine_line_comment rest :
  stripLine (SLASH :: SLASH :: body ++ [t] ++ rest)
  = SPACE :: t :: stripLine rest.
Proof.
  unfold stripLine, replaceAll.
  change (SLASH :: SLASH :: body ++ [t] ++ rest)
    with ((SLASH :: SLASH :: body) ++ t :: rest).
  rewrite replaceAll_from_match.
  - cbn [app]. f_equal.
    rewrite replaceAll_from_none.
    + f_equal. apply replaceAll_from_forward, re_line_forward.
    + unfold re_line_comment. destruct rest; [reflexivity|].
      now rewrite (not_slash t (terminator_not_slash t t_terminator)).
  - discriminate.
  - cbn [app re_line_comment]. rewrite N.eqb_refl. cbn [andb].
    rewrite span_len_app.
    + cbn [span_len]. rewrite t_terminator. cbn [negb length]. f_equal. lia.
    + eapply Forall_impl; [|exact body_plain].
      simpl. intros c (-> & _). reflexivity.
Qed.
End LineComment.

Lemma last_opt_cons p q c y : last_opt p (c :: y) = last_opt q (c :: y).
Proof. reflexivity. Qed.

Lemma ends_space_app b x y :
  ends_space b (x ++ y) = ends_space (ends_space b x) y.
Proof.
  unfold ends_space. rewrite last_opt_app.
  destruct y as [|c y]; [reflexivity|].
  rewrite (last_opt_cons (last_opt None x) None).
  destruct (last_opt_In None c y) as (z & -> & _). reflexivity.
Qed.

Lemma ends_space_snoc b x c : ends_space b (x ++ [c]) = is_space c.
Proof. unfold ends_space. now rewrite last_opt_snoc. Qed.

(** How the comment passes act on a settled prefix: it turns into [s'],
    and the scan behind it starts afresh. *)
Lemma strip_text U s :
  text U s ->
  exists sb s',
    (forall rest, stripBlock (s ++ rest) = sb ++ stripBlock rest)
    /\ (forall rest, stripLine (sb ++ rest) = s' ++ stripLine rest)
    /\ ((forall c, U c = true -> is_space c = true) ->
        Forall (fun c => is_space c = true) s')
    /\ (forall b b', (b = true -> b' = true) ->
                     ends_space b s = true -> ends_space b' s' = true).
Proof.
  induction 1 as [|x s Hx _ (sb & s' & Hb & Hl & Hsp & He)].
  - exists [], []. repeat split; auto.
  - destruct Hx as [c Hc Hns|c Hus Hc Hns Hnt|body Hbody|body t Hbody Ht].
    + exists (c :: sb), (c :: s'). repeat split.
      * intros rest. cbn [app].
        rewrite stripBlock_unit by assumption. now rewrite Hb.
      * intros rest. cbn [app].
        rewrite stripLine_unit by assumption. now rewrite Hl.
      * intros HU. constructor; auto.
      * intros b b' Hbb.
        change (c :: s') with ([c] ++ s'). rewrite !ends_space_app.
        apply He. auto.
    + exists (SLASH :: c :: sb), (SLASH :: c :: s'). repeat split.
      * intros rest. cbn [app].
        rewrite (stripBlock_copy None)
          by (unfold re_block_comment;
              now rewrite (proj2 (N.eqb_neq c STAR) Hnt), andb_false_r).
        rewrite stripBlock_unit by assumption. now rewrite Hb.
      * intros rest. cbn [app].
        rewrite (stripLine_copy None)
          by (unfold re_line_comment;
              now rewrite (not_slash c Hns), andb_false_r).
        rewrite stripLine_unit by assumption. now rewrite Hl.
      * intros HU. apply HU in Hus. discriminate.
      * intros b b' Hbb.
        change (SLASH :: c :: s') with ([SLASH; c] ++ s').
        rewrite !ends_space_app. apply He. auto.
    + exists (SPACE :: sb), (SPACE :: s'). repeat split.
      * intros rest. rewrite <- app_assoc.
        change ((SLASH :: STAR :: body ++ [STAR; SLASH]) ++ s ++ rest)
          with (SLASH :: STAR :: (body ++ [STAR; SLASH]) ++ s ++ rest).
        rewrite <- app_assoc, stripBlock_comment by assumption.
        cbn [app]. now rewrite Hb.
      * intros rest. cbn [app].
        rewrite stripLine_unit by discriminate. now rewrite Hl.
      * intros HU. constructor; auto.
      * intros b b' Hbb.
        change (SPACE :: s') with ([SPACE] ++ s'). rewrite !ends_space_app.
        apply He. intros _. reflexivity.
    + exists (SLASH :: SLASH :: body ++ t :: sb), (SPACE :: t :: s').
      repeat split.
      * intros rest. rewrite <- app_assoc.
        change ((SLASH :: SLASH :: body ++ [t]) ++ s ++ rest)
          with (SLASH :: SLASH :: (body ++ [t]) ++ s ++ rest).
        rewrite <- app_assoc, stripBlock_line_comment by assumption.
        cbn [app]. rewrite <- app_assoc. cbn [app]. now rewrite Hb.
      * intros rest.
        change ((SLASH :: SLASH :: body ++ t :: sb) ++ rest)
          with (SLASH :: SLASH :: (body ++ t :: sb) ++ rest).
        rewrite <- app_assoc.
        change (SLASH :: SLASH :: body ++ (t :: sb) ++ rest)
          with (SLASH :: SLASH :: body ++ [t] ++ sb ++ rest).
        rewrite stripLine_line_comment by assumption.
        cbn [app]. now rewrite Hl.
      * intros HU. repeat constructor; auto using terminator_is_space.
      * intros b b' Hbb.
        change (SPACE :: t :: s') with ([SPACE; t] ++ s').
        rewrite !ends_space_app. apply He. intros _.
        change [SPACE; t] with ([SPACE] ++ [t]). rewrite ends_space_snoc.
        now apply terminator_is_space.
Qed.

Lemma collapse_engine s :
  forall p,
    replaceAll_from re_spaces [SPACE] p 0 s = collapse false s
    /\ replaceAll_from re_spaces [SPACE] p (span_len is_space s) s
       = collapse true s.
Proof.
  induction s as [|c t IH]; intros p; [split; reflexivity|].
  destruct (IH (Some c)) as [IH0 IH1].
  assert (H0 : replaceAll_from re_spaces [SPACE] p 0 (c :: t)
               = collapse false (c :: t)).
  { cbn [replaceAll_from collapse]. unfold re_spaces. cbn [span_len].
    destruct (is_space c); cbn [app]; now f_equal. }
  split; [exact H0|].
  cbn [span_len]. destruct (is_space c) eqn:Hc.
  - cbn [replaceAll_from collapse]. now rewrite Hc.
  - rewrite H0. cbn [collapse]. now rewrite Hc.
Qed.

Lemma collapse_spaces s : replaceAll re_spaces [SPACE] s = collapse false s.
Proof. apply collapse_engine. Qed.

Lemma normalizeWhitespace_eq s :
  normalizeWhitespace s = trim (collapse false (stripLine (stripBlock s))).
Proof. unfold normalizeWhitespace. now rewrite collapse_spaces. Qed.

Lemma ends_space_cons b c x : ends_space b (c :: x) = ends_space (is_space c) x.
Proof.
  change (c :: x) with ([c] ++ x). now rewrite ends_space_app.
Qed.

Lemma collapse_app b x y :
  collapse b (x ++ y) = collapse b x ++ collapse (ends_space b x) y.
Proof.
  revert b. induction x as [|c x IH]; intros b; [reflexivity|].
  cbn [app collapse]. rewrite ends_space_cons.
  destruct (is_space c); rewrite IH.
  - now rewrite app_assoc.
  - reflexivity.
Qed.

Lemma collapse_insert b w y :
  Forall (fun c => is_space c = true) w ->
  b = true \/ opt_space (hd_error y) = true ->
  collapse b (w ++ y) = collapse b y.
Proof.
  intros Hw H. revert b H.
  induction Hw as [|c w Hc _ IH]; intros b H; [reflexivity|].
  cbn [app collapse]. rewrite Hc, IH by now left.
  destruct H as [->|H]; [reflexivity|].
  destruct y as [|d t]; [discriminate|]. simpl in H.
  cbn [collapse]. rewrite H. now destruct b.
Qed.

Lemma space_not_slash d : is_space d = true -> d <> SLASH.
Proof. intros H ->. discriminate. Qed.

(** C7 (as the code behaves).  White space and comments -- block
    comments, and line comments with their line terminator -- inserted
    next to white space, behind text whose comments are complete (each
    [/] of it is part of a comment or opens none), leave
    [normalizeWhitespace] and so the fingerprint as they are; read from
    right to left, so does their removal. *)
Theorem fingerprint_ignores_fillers (pre ins post n : str) :
  settled pre -> filler ins ->
  opt_space (last_opt None pre) = true \/ opt_space (hd_error post) = true ->
  normalizeWhitespace (pre ++ ins ++ post) = normalizeWhitespace (pre ++ post)
  /\ normalizeShape (pre ++ ins ++ post) n = normalizeShape (pre ++ post) n.
Proof.
  intros Hpre Hins Hadj.
  assert (H : normalizeWhitespace (pre ++ ins ++ post)
              = normalizeWhitespace (pre ++ post)).
  { destruct (strip_text _ pre Hpre) as (pb & pre' & Hpb & Hpl & _ & Hpe).
    destruct (strip_text _ ins Hins) as (ib & ins' & Hib & Hil & His & _).
    rewrite !normalizeWhitespace_eq, !Hpb, !Hpl, Hib, Hil.
    f_equal.
    rewrite (collapse_app false pre' (ins' ++ stripLine (stripBlock post))).
    rewrite (collapse_app false pre' (stripLine (stripBlock post))).
    f_equal. apply collapse_insert; [now apply His|].
    destruct Hadj as [Hadj|Hadj].
    - left. apply (Hpe false false); [auto|].
      unfold ends_space. now destruct (last_opt None pre).
    - right. destruct post as [|d post']; [discriminate|]. simpl in Hadj.
      pose proof (space_not_slash d Hadj) as Hd.
      now rewrite stripBlock_unit, stripLine_unit. }
  split; [exact H|]. unfold normalizeShape. now rewrite H.
Qed.

Lemma text_units U s :
  Forall (fun c => U c = true /\ c <> SLASH) s -> text U s.
Proof.
  induction 1 as [|c s [Hu Hc] _ IH]; [constructor|].
  change (c :: s) with ([c] ++ s). constructor; [now constructor|assumption].
Qed.

Lemma fingerprint_ignores_fillers_witness :
  let pre := js "interface Foo { " in
  let ins := SLASH :: STAR :: js " the bar " ++ [STAR; SLASH] ++ [LF; SPACE] in
  let post := js "bar: string; }" in
  settled pre /\ filler ins
  /\ (opt_space (last_opt None pre) = true
      \/ opt_space (hd_error post) = true)
  /\ normalizeShape (pre ++ ins ++ post) (js "Foo")
     = normalizeShape (pre ++ post) (js "Foo").
Proof.
  intros pre ins post.
  assert (H1 : settled pre).
  { apply text_units. repeat constructor; discriminate. }
  assert (H2 : filler ins).
  { change ins with ((SLASH :: STAR :: js " the bar " ++ [STAR; SLASH])
                       ++ [LF; SPACE]).
    constructor; [now constructor|].
    apply text_units. repeat constructor; discriminate. }
  assert (H3 : opt_space (last_opt None pre) = true
               \/ opt_space (hd_error post) = true) by (left; reflexivity).
  split; [exact H1|split; [exact H2|split; [exact H3|]]].
  exact (proj2 (fingerprint_ignores_fillers pre ins post (js "Foo")
                  H1 H2 H3)).
Defined.

(** C7 (as stated) fails: a comment, or white space, put between two
    tokens that stood together changes the fingerprint. *)
Lemma fingerprint_changes_between_tokens :
  normalizeShape (js "interface Foo { bar:/* c */string; }") (js "Foo")
  <> normalizeShape (js "interface Foo { bar:string; }") (js "Foo")
  /\ normalizeShape (js "interface Foo { bar : string; }") (js "Foo")
     <> normalizeShape (js "interface Foo { bar: string; }") (js "Foo").
Proof. split; vm_compute; discriminate. Qed.

(* ------------------------------------------------------------------ *)
(** ** Words survive [normalizeWhitespace] unchanged or not at all *)
(* ------------------------------------------------------------------ *)

Lemma words_from_nonword cur c t :
  is_word c = false -> words_from cur (c :: t) = flush cur ++ words_from [] t.
Proof. intros H. simpl. now rewrite H. Qed.

Lemma words_replaceAll_isolating m w :
  isolating m ->
  forall len s cur p,
    length s <= len ->
    Forall (fun c => is_word c = true) cur ->
    In w (words_from cur (replaceAll_from m [SPACE] p 0 s)) ->
    In w (words_from cur s).
Proof.
  intros Hm. induction len as [|len IH]; intros s cur p Hlen Hcur.
  - destruct s; [|simpl in Hlen; lia]. simpl.
    destruct (m p []) as [k|] eqn:E; [|auto].
    apply Hm in E as (c & x & rest & E & _). discriminate.
  - destruct s as [|c t].
    { simpl. destruct (m p []) as [k|] eqn:E; [|auto].
      apply Hm in E as (c & x & rest & E & _). discriminate. }
    destruct (m p (c :: t)) as [k|] eqn:E.
    + destruct (Hm _ _ _ E) as (c' & x & rest & Es & -> & Hc' & Hcut).
      rewrite Es in E |- *.
      rewrite replaceAll_from_match by (assumption || discriminate).
      cbn [app]. rewrite words_from_nonword by reflexivity.
      intros H. change (c' :: x ++ rest) with ((c' :: x) ++ rest).
      rewrite words_from_app; [|assumption|].
      * rewrite words_from_nonword by assumption.
        apply in_app_iff in H as [H|H].
        -- apply in_or_app. left. apply in_or_app. now left.
        -- apply in_or_app. right. eapply IH; [|constructor|exact H].
           apply (f_equal (@length _)) in Es.
           rewrite length_app in Es. simpl in Es, Hlen. lia.
      * destruct Hcut as [Hcut|Hcut]; [left|now right].
        now rewrite (last_opt_cons _ None).
    + rewrite replaceAll_from_none by assumption.
      cbn [words_from]. destruct (is_word c) eqn:Hc.
      * apply IH; [simpl in Hlen; lia|].
        apply Forall_app. split; [assumption|now repeat constructor].
      * intros H. apply in_app_iff in H as [H|H];
          apply in_or_app; [now left|right].
        eapply IH; [|constructor|exact H]. simpl in Hlen. lia.
Qed.

Lemma find_close_Some s j :
  find_close s = Some j ->
  exists a rest, s = a ++ STAR :: SLASH :: rest /\ length a = j.
Proof.
  revert j. induction s as [|a s IH]; intros j; [discriminate|].
  destruct s as [|b s]; [discriminate|]. rewrite find_close_cons.
  destruct (N.eqb_spec a STAR) as [->|_];
    [destruct (N.eqb_spec b SLASH) as [->|_]|]; cbn [andb].
  - intros [= <-]. exists [], s. auto.
  - destruct (find_close (b :: s)) as [j'|]; [|discriminate].
    intros [= <-]. destruct (IH j' eq_refl) as (x & rest & -> & <-).
    exists (STAR :: x), rest. auto.
  - destruct (find_close (b :: s)) as [j'|]; [|discriminate].
    intros [= <-]. destruct (IH j' eq_refl) as (x & rest & -> & <-).
    exists (a :: x), rest. auto.
Qed.

Lemma span_stop f s :
  match hd_error (skipn (span_len f s) s) with
  | Some c => f c = false
  | None => True
  end.
Proof.
  induction s as [|c s IH]; simpl; [exact I|].
  destruct (f c) eqn:E; simpl; auto.
Qed.

Lemma re_block_isolating : isolating re_block_comment.
Proof.
  intros p s k. unfold re_block_comment.
  destruct s as [|a [|b rest0]]; try discriminate.
  destruct (N.eqb_spec a SLASH) as [->|_]; [|discriminate].
  destruct (N.eqb_spec b STAR) as [->|_]; [|discriminate]. cbn [andb].
  destruct (find_close rest0) as [j|] eqn:E; [|discriminate].
  intros [= <-]. apply find_close_Some in E as (x & rest & -> & <-).
  exists SLASH, (STAR :: x ++ [STAR; SLASH]), rest. repeat split.
  - cbn [app]. now rewrite <- app_assoc.
  - cbn [length]. rewrite length_app. simpl. lia.
  - left.
    replace (SLASH :: STAR :: x ++ [STAR; SLASH])
      with ((SLASH :: STAR :: x ++ [STAR]) ++ [SLASH])
      by (cbn [app]; now rewrite <- app_assoc).
    now rewrite last_opt_snoc.
Qed.

Lemma re_line_isolating : isolating re_line_comment.
Proof.
  intros p s k. unfold re_line_comment.
  destruct s as [|a [|b rest0]]; try discriminate.
  destruct (N.eqb_spec a SLASH) as [->|_]; [|discriminate].
  destruct (N.eqb_spec b SLASH) as [->|_]; [|discriminate]. cbn [andb].
  intros [= <-].
  pose proof (span_stop (fun c => negb (is_line_terminator c)) rest0) as Hs.
  destruct (span_dec (fun c => negb (is_line_terminator c)) rest0)
    as (x & rest & E & _ & Hl & Hsk).
  rewrite Hsk in Hs. rewrite Hl.
  exists SLASH, (SLASH :: x), rest. repeat split.
  - now rewrite E.
  - right. destruct rest as [|c rest]; [reflexivity|]. simpl in *.
    apply negb_false_iff in Hs.
    now apply is_space_not_word, terminator_is_space.
Qed.

Lemma words_stripBlock s w : In w (words (stripBlock s)) -> In w (words s).
Proof.
  unfold words, stripBlock, replaceAll.
  apply (words_replaceAll_isolating re_block_comment w re_block_isolating
           (length s)); [lia|constructor].
Qed.

Lemma words_stripLine s w : In w (words (stripLine s)) -> In w (words s).
Proof.
  unfold words, stripLine, replaceAll.
  apply (words_replaceAll_isolating re_line_comment w re_line_isolating
           (length s)); [lia|constructor].
Qed.

Lemma words_from_collapse s :
  forall b cur,
    (b = true -> cur = []) ->
    words_from cur (collapse b s) = words_from cur s.
Proof.
  induction s as [|c s IH]; intros b cur Hb; [reflexivity|].
  cbn [collapse words_from]. destruct (is_space c) eqn:Hc.
  - rewrite (is_space_not_word c Hc). destruct b.
    + rewrite (Hb eq_refl). cbn [app flush]. now apply IH.
    + cbn [app words_from]. change (is_word SPACE) with false.
      cbn iota. f_equal. now apply IH.
  - cbn [words_from]. destruct (is_word c); [|f_equal]; apply IH; discriminate.
Qed.

Lemma trimStart_split s :
  exists w, s = w ++ trimStart s /\ Forall (fun c => is_space c = true) w.
Proof.
  induction s as [|c s (w & E & Hw)]; [exists []; auto|].
  simpl. destruct (is_space c) eqn:Hc.
  - exists (c :: w). split; [|now constructor].
    cbn [app]. now rewrite <- E.
  - exists []. auto.
Qed.

Lemma trimEnd_split s :
  exists w, s = trimEnd s ++ w /\ Forall (fun c => is_space c = true) w.
Proof.
  destruct (trimStart_split (rev s)) as (w & E & Hw).
  exists (rev w). split.
  - unfold trimEnd. rewrite <- rev_app_distr, <- E. now rewrite rev_involutive.
  - now apply Forall_rev.
Qed.

Lemma words_trimEnd s w : In w (words (trimEnd s)) -> In w (words s).
Proof.
  destruct (trimEnd_split s) as (sp & E & Hsp). intros H.
  rewrite E. apply words_prefix; [|assumption].
  right. destruct Hsp as [|c sp Hc _]; [reflexivity|].
  simpl. now apply is_space_not_word.
Qed.

Lemma words_tail_normalized body w :
  In w (words (tail_normalized body)) -> In w (words body).
Proof.
  unfold tail_normalized. intros H. apply words_trimEnd in H.
  unfold words in H. rewrite words_from_collapse in H by discriminate.
  now apply words_stripBlock, words_stripLine.
Qed.

(* ------------------------------------------------------------------ *)
(** ** Interface and type alias *)
(* ------------------------------------------------------------------ *)

Lemma trimStart_app_nonspace l c m :
  is_space c = false -> trimStart (l ++ c :: m) = trimStart l ++ c :: m.
Proof.
  intros Hc. induction l as [|d l IH]; simpl; [now rewrite Hc|].
  destruct (is_space d); [exact IH|reflexivity].
Qed.

Lemma trimEnd_behind p0 c z :
  is_space c = false ->
  trimEnd ((p0 ++ [c]) ++ z) = (p0 ++ [c]) ++ trimEnd z.
Proof.
  intros Hc. unfold trimEnd.
  rewrite !rev_app_distr. cbn [rev app].
  rewrite trimStart_app_nonspace by assumption.
  rewrite rev_app_distr. cbn [rev]. now rewrite rev_involutive.
Qed.

Lemma collapse_nonspace b w y :
  w <> [] -> Forall (fun c => is_space c = false) w ->
  collapse b (w ++ y) = w ++ collapse false y.
Proof.
  intros Hne Hw. revert b Hne.
  induction Hw as [|c w Hc Hw IH]; intros b Hne; [congruence|].
  cbn [app collapse]. rewrite Hc. f_equal.
  destruct w as [|d w]; [reflexivity|]. apply IH. discriminate.
Qed.

Lemma normalizeWhitespace_behind (p p0 : str) c body :
  p = p0 ++ [c] -> is_space c = false ->
  Forall (fun c => c <> SLASH) p ->
  (forall y, collapse false (p ++ y) = p ++ collapse false y) ->
  (forall z, trimStart (p ++ z) = p ++ z) ->
  normalizeWhitespace (p ++ body) = p ++ tail_normalized body.
Proof.
  intros Hp Hc Hs Hcol Htrim.
  rewrite normalizeWhitespace_eq, stripBlock_units, stripLine_units
    by assumption.
  rewrite Hcol. unfold trim. rewrite Htrim. subst p.
  now rewrite trimEnd_behind.
Qed.

Lemma word_not_slash c : is_word c = true -> c <> SLASH.
Proof. intros H ->. discriminate. Qed.

Section InterfaceAlias.
Variable n : str.
Hypothesis n_wordy : wordy n.

Lemma n_no_slash : Forall (fun c => c <> SLASH) n.
Proof.
  destruct n_wordy as [_ H]. eapply Forall_impl; [|exact H].
  apply word_not_slash.
Qed.

Lemma n_no_space : Forall (fun c => is_space c = false) n.
Proof.
  destruct n_wordy as [_ H]. eapply Forall_impl; [|exact H].
  apply is_word_not_space.
Qed.

Lemma normalizeWhitespace_interface body :
  normalizeWhitespace (js "interface " ++ n ++ js " {" ++ body)
  = js "interface " ++ n ++ js " {" ++ tail_normalized body.
Proof.
  pose proof (normalizeWhitespace_behind
                (js "interface " ++ n ++ js " {")
                (js "interface " ++ n ++ js " ") 123%N body) as H.
  rewrite <- !app_assoc in H. apply H; clear H.
  - reflexivity.
  - reflexivity.
  - repeat (apply Forall_app; split);
      [repeat constructor; discriminate|apply n_no_slash|
        repeat constructor; discriminate].
  - intros y. rewrite <- !app_assoc.
    change (collapse false (js "interface " ++ n ++ js " {" ++ y))
      with (js "interface " ++ collapse true (n ++ js " {" ++ y)).
    rewrite collapse_nonspace by (apply n_wordy || apply n_no_space).
    reflexivity.
  - reflexivity.
Qed.

Lemma normalizeWhitespace_alias body :
  normalizeWhitespace (js "type " ++ n ++ js " = {" ++ body)
  = js "type " ++ n ++ js " = {" ++ tail_normalized body.
Proof.
  pose proof (normalizeWhitespace_behind
                (js "type " ++ n ++ js " = {")
                (js "type " ++ n ++ js " = ") 123%N body) as H.
  rewrite <- !app_assoc in H. apply H; clear H.
  - reflexivity.
  - reflexivity.
  - repeat (apply Forall_app; split);
      [repeat constructor; discriminate|apply n_no_slash|
        repeat constructor; discriminate].
  - intros y. rewrite <- !app_assoc.
    change (collapse false (js "type " ++ n ++ js " = {" ++ y))
      with (js "type " ++ collapse true (n ++ js " = {" ++ y)).
    rewrite collapse_nonspace by (apply n_wordy || apply n_no_space).
    reflexivity.
  - reflexivity.
Qed.

Let R := replaceAll_from (re_whole_word n) PLACEHOLDER.

Lemma replace_name_interface b :
  n <> js "interface" ->
  replaceAll (namedPattern n) PLACEHOLDER
    (js "interface " ++ n ++ js " {" ++ b)
  = js "interface __NAME__ {" ++ R (Some 123%N) 0 b.
Proof.
  intros Hne. rewrite namedPattern_eq. unfold replaceAll.
  change (js "interface " ++ n ++ js " {" ++ b)
    with (js "interface" ++ SPACE :: n ++ SPACE :: 123%N :: b).
  rewrite (R_run n n_wordy None (js "interface"));
    [|reflexivity|split; [discriminate|repeat constructor]|reflexivity].
  destruct (str_eqb (js "interface") n) eqn:E;
    [apply str_eqb_eq in E; congruence|].
  rewrite R_nonword by (assumption || reflexivity).
  rewrite (R_run n n_wordy (Some SPACE) n);
    [|reflexivity|assumption|reflexivity].
  rewrite str_eqb_refl.
  rewrite !R_nonword by (assumption || reflexivity).
  reflexivity.
Qed.

Lemma replace_name_alias b :
  n <> js "type" ->
  replaceAll (namedPattern n) PLACEHOLDER
    (js "type " ++ n ++ js " = {" ++ b)
  = js "type __NAME__ = {" ++ R (Some 123%N) 0 b.
Proof.
  intros Hne. rewrite namedPattern_eq. unfold replaceAll.
  change (js "type " ++ n ++ js " = {" ++ b)
    with (js "type" ++ SPACE :: n ++ SPACE :: 61%N :: SPACE :: 123%N :: b).
  rewrite (R_run n n_wordy None (js "type"));
    [|reflexivity|split; [discriminate|repeat constructor]|reflexivity].
  destruct (str_eqb (js "type") n) eqn:E;
    [apply str_eqb_eq in E; congruence|].
  rewrite R_nonword by (assumption || reflexivity).
  rewrite (R_run n n_wordy (Some SPACE) n);
    [|reflexivity|assumption|reflexivity].
  rewrite str_eqb_refl.
  rewrite !R_nonword by (assumption || reflexivity).
  reflexivity.
Qed.
End InterfaceAlias.

(** Without the word [interface] there is nothing to rewrite. *)
Lemma no_interface_no_rewrite r s :
  ~ In (js "interface") (words s) -> replaceFirst re_interface r s = s.
Proof.
  intros Hno. unfold replaceFirst.
  destruct (replaceFirst_from_spec re_interface r None s)
    as [H|(a & b & k & -> & Hm & _)]; [exact H|].
  exfalso. apply Hno.
  apply re_interface_shape in Hm
    as (Hp & w1 & w2 & rest & -> & Hne & Hw1 & _).
  apply words_suffix; [left; exact Hp|].
  rewrite words_run; [now left|split; [discriminate|repeat constructor]|].
  destruct Hw1 as [|c w1 Hc _]; [congruence|].
  simpl. now apply is_space_not_word.
Qed.

(** C1 (as the code behaves).  The interface and the type alias of the
    spec's example both have the fingerprint [type __NAME__ = { bar:
    string; }].  In general [interface N {body] and [type N = {body] have
    equal fingerprints when the name N is made of letters, digits and
    underscores, is neither [interface] nor [type], and the word
    [interface] does not occur in the body. *)
Theorem interface_and_alias_agree (n body : str) :
  wordy n -> n <> js "interface" -> n <> js "type" ->
  ~ In (js "interface") (words body) ->
  normalizeShape (js "interface " ++ n ++ js " {" ++ body) n
  = normalizeShape (js "type " ++ n ++ js " = {" ++ body) n
  /\ normalizeShape (js "interface Foo { bar: string; }") (js "Foo")
     = js "type __NAME__ = { bar: string; }"
  /\ normalizeShape (js "type Foo = { bar: string; }") (js "Foo")
     = js "type __NAME__ = { bar: string; }".
Proof.
  intros Hn Hi Ht Hbody. split; [|split; vm_compute; reflexivity].
  unfold normalizeShape.
  rewrite (normalizeWhitespace_interface n Hn).
  rewrite (normalizeWhitespace_alias n Hn).
  rewrite (replace_name_interface n Hn) by assumption.
  rewrite (replace_name_alias n Hn) by assumption.
  set (b := replaceAll_from (re_whole_word n) PLACEHOLDER (Some 123%N) 0
              (tail_normalized body)).
  assert (H1 : replaceFirst re_interface (js "type __NAME__ = {")
                 (js "interface __NAME__ {" ++ b)
               = js "type __NAME__ = {" ++ b) by reflexivity.
  assert (H2 : replaceFirst re_interface (js "type __NAME__ = {")
                 (js "type __NAME__ = {" ++ b)
               = js "type __NAME__ = {" ++ b).
  { apply no_interface_no_rewrite.
    change (js "type __NAME__ = {" ++ b)
      with ((js "type __NAME__ = " ++ [123%N]) ++ b).
    rewrite words_app by (left; now rewrite last_opt_snoc).
    intros H. apply in_app_iff in H as [H|H].
    - vm_compute in H. destruct H as [H|[H|[]]]; discriminate.
    - unfold b in H.
      rewrite (words_R n Hn (length (tail_normalized body))) in H;
        [|lia|now left].
      apply in_map_iff in H as (w & Hw & Hin).
      apply Hbody. apply words_tail_normalized.
      destruct (str_eqb w n); [discriminate|]. now subst w. }
  now rewrite H1, H2.
Qed.

Lemma interface_and_alias_agree_witness :
  let n := js "User" in
  let body := js " id: string; name: string; }" in
  wordy n /\ n <> js "interface" /\ n <> js "type"
  /\ ~ In (js "interface") (words body)
  /\ normalizeShape (js "interface " ++ n ++ js " {" ++ body) n
     = normalizeShape (js "type " ++ n ++ js " = {" ++ body) n.
Proof.
  intros n body.
  assert (H1 : wordy n) by (split; [discriminate|repeat constructor]).
  assert (H2 : n <> js "interface") by discriminate.
  assert (H3 : n <> js "type") by discriminate.
  assert (H4 : ~ In (js "interface") (words body)).
  { vm_compute. intros H.
    repeat (destruct H as [H|H]; [discriminate|]). exact H. }
  split; [exact H1|split; [exact H2|split; [exact H3|split; [exact H4|]]]].
  exact (proj1 (interface_and_alias_agree n body H1 H2 H3 H4)).
Defined.

(** C1 (as stated) fails in general: an interface and a type alias with
    the same members get different fingerprints when the name is [type],
    and when a member holds the text of an interface header. *)
Lemma interface_and_alias_differ :
  normalizeShape (js "interface type { bar: string; }") (js "type")
  <> normalizeShape (js "type type = { bar: string; }") (js "type")
  /\ (let member := js " bar: " ++ [dq] ++ js "interface Foo {" ++ [dq]
                    ++ js "; }" in
      normalizeShape (js "interface Foo {" ++ member) (js "Foo")
      <> normalizeShape (js "type Foo = {" ++ member) (js "Foo")).
Proof. split; vm_compute; discriminate. Qed.

(** A name that starts with [$] has no word boundary in front of it when
    it follows a space: it is left in place, and the interface header is
    not rewritten. *)
Example dollar_name_left_in_place :
  normalizeShape (js "interface $Scope { id: string; }") (js "$Scope")
  = js "interface $Scope { id: string; }"
  /\ normalizeShape (js "type $Scope = { id: string; }") (js "$Scope")
     = js "type $Scope = { id: string; }".
Proof. split; vm_compute; reflexivity. Qed.

(* ================================================================== *)
(** * Further properties of the code *)
(* ================================================================== *)

(* ------------------------------------------------------------------ *)
(** ** [normalizeWhitespace]: what its result looks like *)
(* ------------------------------------------------------------------ *)

Lemma find_close_tail c t : find_close (c :: t) = None -> find_close t = None.
Proof.
  destruct t as [|d t]; [reflexivity|]. rewrite find_close_cons.
  destruct ((c =? STAR) && (d =? SLASH))%N; [discriminate|].
  now destruct (find_close (d :: t)).
Qed.

Lemma find_close_cons_none c R :
  find_close R = None ->
  (c = STAR -> hd_error R <> Some SLASH) ->
  find_close (c :: R) = None.
Proof.
  intros HR Hc. destruct R as [|d R]; [reflexivity|].
  rewrite find_close_cons, HR.
  destruct (N.eqb_spec c STAR) as [->|_]; [|reflexivity].
  destruct (N.eqb_spec d SLASH) as [->|_]; [|reflexivity].
  now destruct (Hc eq_refl).
Qed.

Lemma find_close_app_none x y :
  find_close (x ++ y) = None -> find_close x = None.
Proof.
  induction x as [|c x IH]; [reflexivity|]. cbn [app]. intros H.
  apply find_close_cons_none.
  - apply IH. now apply find_close_tail in H.
  - intros -> Hh. destruct x as [|d x]; [discriminate|].
    injection Hh as ->. cbn [app] in H. now rewrite find_close_cons in H.
Qed.

Lemma find_close_found x r : find_close (x ++ STAR :: SLASH :: r) <> None.
Proof.
  induction x as [|c x IH]; [discriminate|].
  cbn [app]. intros H. apply find_close_tail in H. now apply IH.
Qed.

(** A pass that writes one space for each match. *)
Section SpacePass.
Variable m : matcher.
Hypothesis m_nonempty : forall p s, m p s <> Some 0.

Lemma pass_nil p k : replaceAll_from m [SPACE] p k [] = [].
Proof.
  destruct k; cbn; [|reflexivity].
  destruct (m p []) as [[|j]|] eqn:E; try reflexivity.
  now apply m_nonempty in E.
Qed.

Lemma pass_cons p c t :
  (m p (c :: t) = None
   /\ replaceAll_from m [SPACE] p 0 (c :: t)
      = c :: replaceAll_from m [SPACE] (Some c) 0 t)
  \/ exists k, replaceAll_from m [SPACE] p 0 (c :: t)
               = SPACE :: replaceAll_from m [SPACE] (Some c) k t.
Proof.
  cbn [replaceAll_from]. destruct (m p (c :: t)) as [[|k]|] eqn:E.
  - now apply m_nonempty in E.
  - right. now exists k.
  - left. now split.
Qed.

Lemma pass_head p t :
  hd_error (replaceAll_from m [SPACE] p 0 t) = hd_error t
  \/ hd_error (replaceAll_from m [SPACE] p 0 t) = Some SPACE.
Proof.
  destruct t as [|c t]; [rewrite pass_nil; now left|].
  destruct (pass_cons p c t) as [[_ ->]|[k ->]]; [now left|now right].
Qed.

Lemma pass_find_close s :
  forall p k,
    find_close s = None ->
    find_close (replaceAll_from m [SPACE] p k s) = None.
Proof.
  induction s as [|c t IH]; intros p k H; [now rewrite pass_nil|].
  pose proof (find_close_tail _ _ H) as Ht.
  destruct k as [|k]; [|now apply IH].
  destruct (pass_cons p c t) as [[_ ->]|[k ->]].
  - apply find_close_cons_none; [now apply IH|].
    intros -> Hh. destruct (pass_head (Some STAR) t) as [E|E];
      rewrite E in Hh; [|discriminate].
    destruct t as [|d t]; [discriminate|]. injection Hh as ->.
    now rewrite find_close_cons in H.
  - apply find_close_cons_none; [now apply IH|discriminate].
Qed.

Section Quiet.
Variable m0 : matcher.
Hypothesis m0_nil : m0 None [] = None.
Hypothesis m0_space : forall R, m0 None (SPACE :: R) = None.
Hypothesis m0_stable :
  forall c t,
    m0 None (c :: t) = None ->
    m0 None (c :: replaceAll_from m [SPACE] (Some c) 0 t) = None.

Lemma guards_tail c t : guards m m0 (c :: t) -> guards m m0 t.
Proof. now intros [_ H]. Qed.

Lemma quiet_pass s :
  forall p k, guards m m0 s -> quiet m0 (replaceAll_from m [SPACE] p k s).
Proof.
  induction s as [|c t IH]; intros p k G.
  - rewrite pass_nil. now split.
  - pose proof (guards_tail _ _ G) as Gt.
    destruct k as [|k]; [|now apply IH].
    destruct (pass_cons p c t) as [[E ->]|[k ->]].
    + split; [|now apply IH]. apply m0_stable. now apply (proj1 G p).
    + split; [apply m0_space|now apply IH].
Qed.
End Quiet.
End SpacePass.

Lemma quiet_guards m m0 s : quiet m0 s -> guards m m0 s.
Proof.
  induction s as [|c t IH]; intros [H Ht]; (split; [auto|]); [exact I|auto].
Qed.

Lemma self_guards m s :
  (forall p q x, m p x = m q x) -> guards m m s.
Proof.
  intros F. induction s as [|c t IH]; (split; [|auto]);
    intros p H; now rewrite (F None p).
Qed.

Lemma quiet_suffix m0 a b : quiet m0 (a ++ b) -> quiet m0 b.
Proof.
  induction a as [|c a IH]; [auto|]. cbn [app]. intros [_ H]. now apply IH.
Qed.

Lemma quiet_identity m r s :
  (forall p q x, m p x = m q x) ->
  quiet m s -> forall p, replaceAll_from m r p 0 s = s.
Proof.
  intros F. induction s as [|c t IH]; intros [H Ht] p.
  - cbn. now rewrite (F p None), H.
  - cbn [replaceAll_from]. rewrite (F p None), H. f_equal. now apply IH.
Qed.

Lemma re_block_nonempty p s : re_block_comment p s <> Some 0.
Proof.
  unfold re_block_comment. destruct s as [|a [|b rest]]; try discriminate.
  destruct ((a =? SLASH) && (b =? STAR))%N; [|discriminate].
  now destruct (find_close rest).
Qed.

Lemma re_line_nonempty p s : re_line_comment p s <> Some 0.
Proof.
  unfold re_line_comment. destruct s as [|a [|b rest]]; try discriminate.
  now destruct ((a =? SLASH) && (b =? SLASH))%N.
Qed.

Lemma re_spaces_nonempty p s : re_spaces p s <> Some 0.
Proof. unfold re_spaces. now destruct (span_len is_space s). Qed.

Lemma re_block_none c t :
  re_block_comment None (c :: t) = None
  <-> (c = SLASH -> forall rest, t = STAR :: rest -> find_close rest = None).
Proof.
  unfold re_block_comment. destruct t as [|b rest].
  - split; [intros _ _ rest; discriminate|reflexivity].
  - destruct (N.eqb_spec c SLASH) as [->|Hc];
      [|split; [intros _ E; now destruct (Hc E)|reflexivity]].
    destruct (N.eqb_spec b STAR) as [->|Hb]; cbn [andb].
    + split.
      * intros H _ r [= <-]. now destruct (find_close rest).
      * intros H. now rewrite (H eq_refl rest eq_refl).
    + split; [intros _ _ r [= E _]; now destruct (Hb E)|reflexivity].
Qed.

Lemma re_line_none c t :
  re_line_comment None (c :: t) = None
  <-> (c = SLASH -> hd_error t <> Some SLASH).
Proof.
  unfold re_line_comment. destruct t as [|b rest].
  - split; [intros _ _; discriminate|reflexivity].
  - destruct (N.eqb_spec c SLASH) as [->|Hc];
      [|split; [intros _ E; now destruct (Hc E)|reflexivity]].
    destruct (N.eqb_spec b SLASH) as [->|Hb]; cbn [andb hd_error].
    + split; [discriminate|]. intros H. now destruct (H eq_refl).
    + split; [intros _ _ [= E]; now destruct (Hb E)|reflexivity].
Qed.

Lemma re_block_stable m :
  (forall p s, m p s <> Some 0) ->
  forall c t,
    re_block_comment None (c :: t) = None ->
    re_block_comment None (c :: replaceAll_from m [SPACE] (Some c) 0 t) = None.
Proof.
  intros Hm c t H. rewrite re_block_none in *. intros Hc rest E.
  destruct t as [|d t]; [now rewrite pass_nil in E|].
  destruct (pass_cons m Hm (Some c) d t) as [[_ E']|[k E']];
    rewrite E' in E; [|discriminate].
  injection E as -> <-. apply pass_find_close; [exact Hm|].
  now apply (H Hc t).
Qed.

Lemma re_line_stable m :
  (forall p s, m p s <> Some 0) ->
  forall c t,
    re_line_comment None (c :: t) = None ->
    re_line_comment None (c :: replaceAll_from m [SPACE] (Some c) 0 t) = None.
Proof.
  intros Hm c t H. rewrite re_line_none in *. intros Hc E.
  destruct (pass_head m Hm (Some c) t) as [E'|E']; rewrite E' in E;
    [now apply H|discriminate].
Qed.

Lemma quiet_block_pass m s :
  (forall p s, m p s <> Some 0) ->
  guards m re_block_comment s ->
  forall p k, quiet re_block_comment (replaceAll_from m [SPACE] p k s).
Proof.
  intros Hm G p k. apply (quiet_pass m Hm re_block_comment); auto.
  - intros [|b R]; reflexivity.
  - now apply re_block_stable.
Qed.

Lemma quiet_line_pass m s :
  (forall p s, m p s <> Some 0) ->
  guards m re_line_comment s ->
  forall p k, quiet re_line_comment (replaceAll_from m [SPACE] p k s).
Proof.
  intros Hm G p k. apply (quiet_pass m Hm re_line_comment); auto.
  - intros [|b R]; reflexivity.
  - now apply re_line_stable.
Qed.

Lemma quiet_block_prefix a b :
  quiet re_block_comment (a ++ b) -> quiet re_block_comment a.
Proof.
  induction a as [|c a IH]; [now split|]. cbn [app]. intros [H Ht].
  split; [|now apply IH]. rewrite re_block_none in *.
  intros Hc rest ->. cbn [app] in H.
  apply (find_close_app_none rest b). now apply (H Hc).
Qed.

Lemma quiet_line_prefix a b :
  quiet re_line_comment (a ++ b) -> quiet re_line_comment a.
Proof.
  induction a as [|c a IH]; [now split|]. cbn [app]. intros [H Ht].
  split; [|now apply IH]. rewrite re_line_none in *.
  intros Hc E. destruct a as [|d a]; [discriminate|]. now apply H.
Qed.

(** The white-space pass and [trim]. *)
Lemma collapse_length b s : length (collapse b s) <= length s.
Proof.
  revert b. induction s as [|c t IH]; intros b; [apply le_n|].
  cbn [collapse]. destruct (is_space c).
  - rewrite length_app. specialize (IH true). destruct b; cbn; lia.
  - cbn. specialize (IH false). lia.
Qed.

Lemma collapse_idem s : forall b, collapse b (collapse b s) = collapse b s.
Proof.
  induction s as [|c t IH]; intros b; [reflexivity|].
  cbn [collapse]. destruct (is_space c) eqn:E.
  - destruct b; cbn [app]; [apply IH|].
    cbn [collapse]. change (is_space SPACE) with true. cbn [app].
    f_equal. apply IH.
  - cbn [collapse]. rewrite E. f_equal. apply IH.
Qed.

Lemma collapse_true_fixed z : collapse true z = z -> collapse false z = z.
Proof.
  destruct z as [|d z]; [reflexivity|]. cbn [collapse].
  destruct (is_space d); [|auto]. cbn [app]. intros H.
  pose proof (collapse_length true z) as L. rewrite H in L. cbn in L. lia.
Qed.

Lemma collapse_fixed_prefix b x y :
  collapse b (x ++ y) = x ++ y -> collapse b x = x.
Proof.
  rewrite collapse_app. intros H.
  pose proof (collapse_length b x) as Lx.
  pose proof (collapse_length (ends_space b x) y) as Ly.
  assert (L : length (collapse b x) = length x).
  { apply (f_equal (@length _)) in H. rewrite !length_app in H. lia. }
  apply (f_equal (firstn (length x))) in H.
  rewrite <- L in H at 1. now rewrite !firstn_app, !Nat.sub_diag, !firstn_all,
    !firstn_O, !app_nil_r in H.
Qed.

Lemma collapse_fixed_suffix x y :
  collapse false (x ++ y) = x ++ y -> collapse false y = y.
Proof.
  induction x as [|c x IH]; [auto|]. cbn [app collapse].
  destruct (is_space c).
  - cbn [app]. intros [= _ H]. apply IH. now apply collapse_true_fixed.
  - intros [= H]. now apply IH.
Qed.

Lemma trimStart_idem s : trimStart (trimStart s) = trimStart s.
Proof.
  induction s as [|c t IH]; [reflexivity|]. cbn [trimStart].
  destruct (is_space c) eqn:E; [exact IH|]. cbn [trimStart]. now rewrite E.
Qed.

Lemma trimStart_head s : opt_space (hd_error (trimStart s)) = false.
Proof.
  induction s as [|c t IH]; [reflexivity|]. cbn [trimStart].
  destruct (is_space c) eqn:E; [exact IH|]. exact E.
Qed.

Lemma trimStart_fixed s : opt_space (hd_error s) = false -> trimStart s = s.
Proof. destruct s as [|c t]; [reflexivity|]. cbn. now intros ->. Qed.

Lemma trimEnd_idem s : trimEnd (trimEnd s) = trimEnd s.
Proof. unfold trimEnd. now rewrite rev_involutive, trimStart_idem. Qed.

Lemma trimEnd_head s :
  opt_space (hd_error s) = false -> opt_space (hd_error (trimEnd s)) = false.
Proof.
  destruct s as [|c t]; [reflexivity|]. cbn [hd_error opt_space]. intros E.
  change (c :: t) with (([] ++ [c]) ++ t).
  now rewrite (trimEnd_behind [] c t E).
Qed.

Lemma trimEnd_last s : opt_space (last_opt None (trimEnd s)) = false.
Proof.
  unfold trimEnd. pose proof (trimStart_head (rev s)) as H.
  destruct (trimStart (rev s)) as [|c t]; [reflexivity|].
  cbn [rev]. now rewrite last_opt_snoc.
Qed.

Lemma trim_idem s : trim (trim s) = trim s.
Proof.
  unfold trim.
  rewrite (trimStart_fixed (trimEnd (trimStart s)))
    by apply trimEnd_head, trimStart_head.
  apply trimEnd_idem.
Qed.

Lemma trim_middle s :
  exists a b, s = a ++ trim s ++ b.
Proof.
  destruct (trimStart_split s) as (a & Ha & _).
  destruct (trimEnd_split (trimStart s)) as (b & Hb & _).
  exists a, b. unfold trim. now rewrite <- Hb.
Qed.

(** What the three passes leave behind, and [trim] keeps. *)
Lemma normalizeWhitespace_quiet s :
  quiet re_block_comment (normalizeWhitespace s)
  /\ quiet re_line_comment (normalizeWhitespace s)
  /\ collapse false (normalizeWhitespace s) = normalizeWhitespace s.
Proof.
  destruct (trim_middle
              (replaceAll re_spaces [SPACE]
                 (replaceAll re_line_comment [SPACE]
                    (replaceAll re_block_comment [SPACE] s))))
    as (a & b & E).
  fold (normalizeWhitespace s) in E.
  set (o := normalizeWhitespace s) in *.
  assert (Hb : quiet re_block_comment (a ++ o ++ b)).
  { rewrite <- E. unfold replaceAll.
    apply quiet_block_pass; [apply re_spaces_nonempty|].
    apply quiet_guards.
    apply quiet_block_pass; [apply re_line_nonempty|].
    apply quiet_guards.
    apply quiet_block_pass; [apply re_block_nonempty|].
    apply self_guards, re_block_forward. }
  assert (Hl : quiet re_line_comment (a ++ o ++ b)).
  { rewrite <- E. unfold replaceAll.
    apply quiet_line_pass; [apply re_spaces_nonempty|].
    apply quiet_guards.
    apply quiet_line_pass; [apply re_line_nonempty|].
    apply self_guards, re_line_forward. }
  assert (Hc : collapse false (a ++ o ++ b) = a ++ o ++ b).
  { rewrite <- E, collapse_spaces. apply collapse_idem. }
  split; [|split].
  - now apply quiet_suffix, quiet_block_prefix in Hb.
  - now apply quiet_suffix, quiet_line_prefix in Hl.
  - now apply collapse_fixed_suffix, collapse_fixed_prefix in Hc.
Qed.

(** X1.  [normalizeWhitespace] is idempotent: applied to its own result
    it changes nothing. *)
Theorem normalizeWhitespace_idempotent (s : str) :
  normalizeWhitespace (normalizeWhitespace s) = normalizeWhitespace s.
Proof.
  destruct (normalizeWhitespace_quiet s) as (Hb & Hl & Hc).
  rewrite (normalizeWhitespace_eq (normalizeWhitespace s)).
  unfold stripBlock, stripLine, replaceAll.
  rewrite (quiet_identity _ _ _ re_block_forward Hb).
  rewrite (quiet_identity _ _ _ re_line_forward Hl).
  rewrite Hc. unfold normalizeWhitespace at 2. apply trim_idem.
Qed.

Lemma collapse_fixed_units o :
  collapse false o = o -> Forall (fun c => is_space c = true -> c = SPACE) o.
Proof.
  intros H. apply Forall_forall. intros c Hin Hc.
  destruct (in_split _ _ Hin) as (a & b & ->).
  apply collapse_fixed_suffix in H. cbn [collapse] in H. rewrite Hc in H.
  now injection H.
Qed.

Lemma collapse_fixed_single o a b :
  collapse false o = o -> o <> a ++ SPACE :: SPACE :: b.
Proof.
  intros H ->. apply collapse_fixed_suffix in H. cbn in H.
  injection H as H. pose proof (collapse_length true b) as L.
  rewrite H in L. cbn in L. lia.
Qed.

Lemma quiet_line_occurrences o :
  quiet re_line_comment o -> occurrences (js "//") o = 0.
Proof.
  induction o as [|c t IH]; intros [H Ht]; [reflexivity|].
  cbn [occurrences]. rewrite (IH Ht), Nat.add_0_r.
  pose proof (proj1 (re_line_none c t) H) as H'.
  change (js "//") with [SLASH; SLASH].
  cbn [starts_with]. destruct (N.eqb_spec SLASH c) as [<-|_]; [|reflexivity].
  destruct t as [|d t]; [reflexivity|].
  destruct (N.eqb_spec SLASH d) as [<-|_]; [|reflexivity].
  now destruct (H' eq_refl).
Qed.

(** X2.  The result of [normalizeWhitespace] neither starts nor ends with
    white space; its only white space is the single space, never two in
    a row; it holds no [//] and no complete block comment. *)
Theorem normalizeWhitespace_normal_form (s : str) :
  let o := normalizeWhitespace s in
  opt_space (hd_error o) = false
  /\ opt_space (last_opt None o) = false
  /\ Forall (fun c => is_space c = true -> c = SPACE) o
  /\ (forall a b, o <> a ++ SPACE :: SPACE :: b)
  /\ occurrences (js "//") o = 0
  /\ (forall a body b, o <> a ++ js "/*" ++ body ++ js "*/" ++ b).
Proof.
  intros o. destruct (normalizeWhitespace_quiet s) as (Hb & Hl & Hc).
  fold o in Hb, Hl, Hc.
  split; [apply trimEnd_head, trimStart_head|].
  split; [apply trimEnd_last|].
  split; [now apply collapse_fixed_units|].
  split; [intros a b; now apply collapse_fixed_single|].
  split; [now apply quiet_line_occurrences|].
  intros a body b E. rewrite E in Hb. apply quiet_suffix in Hb.
  destruct Hb as [Hb _].
  change (js "/*" ++ body ++ js "*/" ++ b)
    with (SLASH :: STAR :: body ++ STAR :: SLASH :: b) in Hb.
  pose proof (proj1 (re_block_none _ _) Hb eq_refl _ eq_refl) as Hn.
  now apply (find_close_found body b).
Qed.

Lemma trim_spaces w : Forall (fun c => is_space c = true) w -> trim w = [].
Proof.
  intros H. unfold trim.
  assert (E : trimStart w = []).
  { induction H as [|c w Hc _ IH]; [reflexivity|]. cbn. now rewrite Hc. }
  now rewrite E.
Qed.

Lemma collapse_all_spaces b w :
  Forall (fun c => is_space c = true) w ->
  Forall (fun c => is_space c = true) (collapse b w).
Proof.
  intros H. revert b. induction H as [|c w Hc _ IH]; intros b; [constructor|].
  cbn [collapse]. rewrite Hc. apply Forall_app. split; [|apply IH].
  destruct b; repeat constructor.
Qed.

Lemma normalizeShape_nil n : normalizeShape [] n = [].
Proof.
  unfold normalizeShape.
  assert (E : normalizeWhitespace [] = []) by reflexivity.
  rewrite E, namedPattern_eq. reflexivity.
Qed.

(** X3.  A snippet made only of white space, complete block comments and
    line comments that hold no [*] and end with their line terminator has
    the empty compact form, the empty fingerprint and the empty display
    snippet. *)
Theorem comment_only_snippet_is_empty (s n : str) (maxLength : Z) :
  filler s -> (0 <= maxLength)%Z ->
  normalizeWhitespace s = []
  /\ normalizeShape s n = []
  /\ formatSnippet s maxLength = [].
Proof.
  intros Hs Hm.
  assert (E : normalizeWhitespace s = []).
  { destruct (strip_text _ s Hs) as (sb & s' & Hb & Hl & Hsp & _).
    rewrite normalizeWhitespace_eq.
    specialize (Hb []). specialize (Hl []). rewrite app_nil_r in Hb, Hl.
    change (stripBlock []) with (@nil char) in Hb.
    change (stripLine []) with (@nil char) in Hl.
    rewrite app_nil_r in Hb, Hl. rewrite Hb, Hl.
    apply trim_spaces, collapse_all_spaces, Hsp. auto. }
  split; [exact E|]. split.
  - pose proof (normalizeShape_nil n) as H. unfold normalizeShape in *.
    now rewrite E.
  - unfold formatSnippet. rewrite E. cbn [length Z.of_nat].
    now apply Z.leb_le in Hm as ->.
Qed.

Lemma comment_only_snippet_is_empty_witness :
  let s := SLASH :: STAR :: js " nothing here " ++ [STAR; SLASH]
           ++ [SPACE; LF] in
  filler s /\ (0 <= MAX_SNIPPET_LENGTH)%Z
  /\ normalizeShape s (js "Foo") = [].
Proof.
  intros s.
  assert (H1 : filler s).
  { change s with ((SLASH :: STAR :: js " nothing here " ++ [STAR; SLASH])
                     ++ [SPACE; LF]).
    constructor; [now constructor|].
    apply text_units. repeat constructor; discriminate. }
  assert (H2 : (0 <= MAX_SNIPPET_LENGTH)%Z) by discriminate.
  split; [exact H1|split; [exact H2|]].
  exact (proj1 (proj2 (comment_only_snippet_is_empty s (js "Foo")
                         MAX_SNIPPET_LENGTH H1 H2))).
Defined.

(* ------------------------------------------------------------------ *)
(** ** [formatSnippet] for any bound *)
(* ------------------------------------------------------------------ *)

Lemma slice_prefix (s : str) (k : Z) :
  (0 <= k)%Z -> slice s 0 k = firstn (Z.to_nat k) s.
Proof.
  intros Hk. replace k with (Z.of_nat (Z.to_nat k)) at 1 by lia.
  change 0%Z with (Z.of_nat 0). rewrite slice_nat.
  cbn [Nat.min skipn]. rewrite Nat.sub_0_r.
  destruct (Nat.le_ge_cases (Z.to_nat k) (length s)) as [L|L].
  - now rewrite Nat.min_l.
  - rewrite Nat.min_r by exact L. now rewrite !firstn_all2 by lia.
Qed.

(** X4.  For a bound of three or more, the display snippet is never
    longer than the bound: a compact form that fits is returned as it is,
    a longer one is cut to [maxLength - 3] code units and three dots,
    which is [maxLength] code units exactly. *)
Theorem formatSnippet_bound (rawSnippet : str) (maxLength : Z) :
  (3 <= maxLength)%Z ->
  let compact := normalizeWhitespace rawSnippet in
  let out := formatSnippet rawSnippet maxLength in
  (Z.of_nat (length out) <= maxLength)%Z
  /\ ((Z.of_nat (length compact) <= maxLength)%Z -> out = compact)
  /\ ((maxLength < Z.of_nat (length compact))%Z ->
      out = firstn (Z.to_nat (maxLength - 3)) compact ++ js "..."
      /\ Z.of_nat (length out) = maxLength).
Proof.
  intros Hm compact out. unfold out, formatSnippet. fold compact.
  destruct (Z.leb_spec (Z.of_nat (length compact)) maxLength) as [L|L].
  - split; [exact L|]. split; [reflexivity|lia].
  - rewrite slice_prefix by lia.
    assert (E : Z.of_nat (length (firstn (Z.to_nat (maxLength - 3)) compact
                                   ++ js "...")) = maxLength).
    { rewrite length_app, firstn_length_le by lia.
      change (length (js "...")) with 3. lia. }
    split; [lia|]. split; [lia|]. intros _. now split.
Qed.

Lemma formatSnippet_bound_witness :
  (3 <= 10)%Z
  /\ formatSnippet (js "type  A = { a : string }") 10 = js "type A ...".
Proof.
  split; [discriminate|].
  assert (L : (10 < Z.of_nat (length (normalizeWhitespace
                                        (js "type  A = { a : string }"))))%Z)
    by (vm_compute; reflexivity).
  assert (H : (3 <= 10)%Z) by discriminate.
  rewrite (proj1 (proj2 (proj2 (formatSnippet_bound
                                  (js "type  A = { a : string }") 10 H)) L)).
  reflexivity.
Defined.

Lemma hd_error_rev (s : str) : hd_error (rev s) = last_opt None s.
Proof.
  destruct s as [|c t] using rev_ind; [reflexivity|].
  now rewrite rev_app_distr, last_opt_snoc.
Qed.

Lemma trimEnd_fixed s : opt_space (last_opt None s) = false -> trimEnd s = s.
Proof.
  intros H. unfold trimEnd. rewrite trimStart_fixed; [apply rev_involutive|].
  now rewrite hd_error_rev.
Qed.

(** A text the passes of [normalizeWhitespace] have nothing to do on. *)
Lemma normalizeWhitespace_fixed o :
  quiet re_block_comment o -> quiet re_line_comment o ->
  collapse false o = o ->
  opt_space (hd_error o) = false -> opt_space (last_opt None o) = false ->
  normalizeWhitespace o = o.
Proof.
  intros Hb Hl Hc Hh Ht. rewrite normalizeWhitespace_eq.
  unfold stripBlock, stripLine, replaceAll.
  rewrite (quiet_identity _ _ _ re_block_forward Hb).
  rewrite (quiet_identity _ _ _ re_line_forward Hl).
  rewrite Hc. unfold trim. now rewrite (trimStart_fixed o Hh), trimEnd_fixed.
Qed.

Lemma find_close_dots r :
  find_close r = None -> find_close (r ++ js "...") = None.
Proof.
  induction r as [|c r IH]; [reflexivity|]. intros H. cbn [app].
  apply find_close_cons_none; [apply IH; now apply find_close_tail in H|].
  intros -> Hh. destruct r as [|d r]; [discriminate|].
  injection Hh as ->. now rewrite find_close_cons in H.
Qed.

Lemma quiet_block_dots p :
  quiet re_block_comment p -> quiet re_block_comment (p ++ js "...").
Proof.
  induction p as [|c p IH]; [intros _; cbn; tauto|]. intros [H Hp].
  cbn [app]. split; [|now apply IH].
  pose proof (proj1 (re_block_none _ _) H) as H'.
  apply re_block_none. intros Hc rest E.
  destruct p as [|d p]; [discriminate|]. injection E as -> <-.
  apply find_close_dots. now apply (H' Hc p).
Qed.

Lemma quiet_line_dots p :
  quiet re_line_comment p -> quiet re_line_comment (p ++ js "...").
Proof.
  induction p as [|c p IH]; [intros _; cbn; tauto|]. intros [H Hp].
  cbn [app]. split; [|now apply IH].
  pose proof (proj1 (re_line_none _ _) H) as H'.
  apply re_line_none. intros Hc E.
  destruct p as [|d p]; [discriminate|]. now apply H'.
Qed.

(** X5.  Formatting a display snippet again, with the same bound of three
    or more, gives it back unchanged. *)
Theorem formatSnippet_idempotent (rawSnippet : str) (maxLength : Z) :
  (3 <= maxLength)%Z ->
  formatSnippet (formatSnippet rawSnippet maxLength) maxLength
  = formatSnippet rawSnippet maxLength.
Proof.
  intros Hm.
  destruct (normalizeWhitespace_quiet rawSnippet) as (Hb & Hl & Hc).
  assert (Hh : opt_space (hd_error (normalizeWhitespace rawSnippet)) = false)
    by apply trimEnd_head, trimStart_head.
  assert (Ht : opt_space (last_opt None (normalizeWhitespace rawSnippet))
               = false) by apply trimEnd_last.
  set (o := normalizeWhitespace rawSnippet) in *.
  assert (F : forall out,
             normalizeWhitespace out = out ->
             (Z.of_nat (length out) <= maxLength)%Z ->
             formatSnippet out maxLength = out).
  { intros out E L. unfold formatSnippet. rewrite E.
    now apply Z.leb_le in L as ->. }
  unfold formatSnippet at 2 3. fold o.
  destruct (Z.leb_spec (Z.of_nat (length o)) maxLength) as [L|L].
  - apply F; [|exact L]. now apply normalizeWhitespace_fixed.
  - rewrite slice_prefix by lia.
    set (k := Z.to_nat (maxLength - 3)).
    assert (Eo : o = firstn k o ++ skipn k o)
      by (symmetry; apply firstn_skipn).
    apply F.
    + apply normalizeWhitespace_fixed.
      * apply quiet_block_dots. rewrite Eo in Hb.
        now apply quiet_block_prefix in Hb.
      * apply quiet_line_dots. rewrite Eo in Hl.
        now apply quiet_line_prefix in Hl.
      * rewrite collapse_app. rewrite Eo in Hc.
        apply collapse_fixed_prefix in Hc. rewrite Hc.
        now destruct (ends_space false (firstn k o)).
      * destruct k as [|k]; [reflexivity|].
        destruct o as [|c o']; [reflexivity|exact Hh].
      * now rewrite last_opt_app.
    + rewrite length_app, firstn_length_le by lia.
      change (length (js "...")) with 3. lia.
Qed.

Lemma formatSnippet_idempotent_witness :
  (3 <= MAX_SNIPPET_LENGTH)%Z
  /\ formatSnippet (formatSnippet longAlias MAX_SNIPPET_LENGTH)
                   MAX_SNIPPET_LENGTH
     = formatSnippet longAlias MAX_SNIPPET_LENGTH.
Proof.
  assert (H : (3 <= MAX_SNIPPET_LENGTH)%Z) by discriminate.
  split; [exact H|].
  exact (formatSnippet_idempotent longAlias MAX_SNIPPET_LENGTH H).
Defined.

(* ------------------------------------------------------------------ *)
(** ** [escapeRegExp] and the pattern of a name *)
(* ------------------------------------------------------------------ *)

Lemma escapeRegExp_length v :
  length (escapeRegExp v) = length v + length (filter is_regexp_special v).
Proof.
  induction v as [|c v IH]; [reflexivity|].
  change (escapeRegExp (c :: v))
    with ((if is_regexp_special c then [BACKSLASH; c] else [c])
            ++ escapeRegExp v).
  rewrite length_app, IH. cbn [filter].
  destruct (is_regexp_special c); cbn [length]; lia.
Qed.

Lemma filter_nil_Forall (A : Type) (f : A -> bool) (l : list A) :
  filter f l = [] <-> Forall (fun x => f x = false) l.
Proof.
  induction l as [|x l IH]; cbn [filter]; [split; constructor|].
  destruct (f x) eqn:E.
  - split; [discriminate|]. intros H. inversion H. congruence.
  - rewrite IH. split; [now constructor|]. intros H. now inversion H.
Qed.

(** X6.  [escapeRegExp] puts a backslash before each of its fourteen
    syntax characters and nothing else, so the pattern built from a name
    stands for the name itself: a match of [namedPattern] is an occurrence
    of the name, code unit for code unit, whatever the name contains. *)
Theorem escaped_name_is_literal (name : str) :
  pattern_literal (escapeRegExp name) = Some name
  /\ (forall prev s k,
        namedPattern name prev s = Some k ->
        k = length name /\ exists rest, s = name ++ rest)
  /\ length (escapeRegExp name)
     = length name + length (filter is_regexp_special name)
  /\ (escapeRegExp name = name
      <-> Forall (fun c => is_regexp_special c = false) name).
Proof.
  split; [apply pattern_literal_escape|].
  split; [|split; [apply escapeRegExp_length|]].
  - intros prev s k. rewrite namedPattern_eq. unfold re_whole_word.
    destruct (word_boundary prev (hd_error s)); [|discriminate].
    destruct (starts_with name s) eqn:E; [|discriminate].
    destruct (word_boundary _ _); [|discriminate].
    intros [= <-]. split; [reflexivity|].
    now apply starts_with_dec.
  - split.
    + intros E. apply filter_nil_Forall, length_zero_iff_nil.
      pose proof (escapeRegExp_length name) as L. rewrite E in L. lia.
    + intros H. induction H as [|c v Hc _ IH]; [reflexivity|].
      change (escapeRegExp (c :: v))
        with ((if is_regexp_special c then [BACKSLASH; c] else [c])
                ++ escapeRegExp v).
      now rewrite Hc, IH.
Qed.

(* ------------------------------------------------------------------ *)
(** ** Path utilities: [matchesExclude] and [toPosix] *)
(* ------------------------------------------------------------------ *)

Lemma starts_with_nil p : starts_with p [] = true <-> p = [].
Proof. destruct p; split; (reflexivity || discriminate). Qed.

Lemma includes_spec p s :
  includes p s = true <-> exists a b, s = a ++ p ++ b.
Proof.
  induction s as [|c t IH]; cbn [includes].
  - rewrite starts_with_nil. split.
    + intros ->. now exists [], [].
    + intros (a & b & E). symmetry in E.
      apply app_eq_nil in E as [_ E]. now apply app_eq_nil in E.
  - rewrite orb_true_iff, IH. split.
    + intros [H|(a & b & ->)].
      * destruct (starts_with_dec _ _ H) as (r & E). now exists [], r.
      * now exists (c :: a), b.
    + intros ([|d a] & b & E).
      * left. cbn [app] in E. rewrite E. apply starts_with_app.
      * right. injection E as _ ->. now exists a, b.
Qed.

Lemma dot_slashes_behind c s :
  replaceFirst_from re_dot_slashes [] (Some c) s = s.
Proof.
  revert c. induction s as [|d s IH]; intros c; [reflexivity|].
  cbn. f_equal. apply IH.
Qed.

Lemma dot_slashes_none s :
  starts_with (js "./") s = false -> replaceFirst re_dot_slashes [] s = s.
Proof.
  unfold replaceFirst. destruct s as [|a s]; [reflexivity|].
  change (js "./") with [DOT; SLASH]. cbn [starts_with replaceFirst_from].
  unfold re_dot_slashes. rewrite (N.eqb_sym DOT a).
  destruct (a =? DOT)%N.
  - destruct s as [|b s]; [intros _; reflexivity|].
    cbn [span_len andb]. rewrite (N.eqb_sym SLASH b).
    destruct (b =? SLASH)%N; [discriminate|]. intros _.
    f_equal. apply dot_slashes_behind.
  - intros _. f_equal. apply dot_slashes_behind.
Qed.

Lemma dot_slashes_strip k rest :
  hd_error rest <> Some SLASH ->
  replaceFirst re_dot_slashes [] (DOT :: repeat SLASH (S k) ++ rest) = rest.
Proof.
  intros H. unfold replaceFirst. cbn [replaceFirst_from].
  assert (E : span_len (fun c => (c =? SLASH)%N) (repeat SLASH (S k) ++ rest)
              = S k).
  { rewrite span_len_app by (apply Forall_forall; intros c Hc;
                             apply repeat_spec in Hc; now subst).
    rewrite repeat_length. destruct rest as [|d rest]; [cbn; lia|].
    cbn [span_len]. destruct (N.eqb_spec d SLASH) as [->|_];
      [now destruct H|lia]. }
  unfold re_dot_slashes. rewrite N.eqb_refl, E. cbn [app].
  change (skipn (1 + S k) (DOT :: repeat SLASH (S k) ++ rest))
    with (skipn (S k) (repeat SLASH (S k) ++ rest)).
  rewrite <- (repeat_length SLASH (S k)) at 1. apply skipn_length_app.
Qed.

(** X7.  [matchesExclude] is a substring test: a path is excluded exactly
    when some pattern, trimmed and with a leading [./] taken off, is not
    empty and occurs somewhere in the path (its leading [./] taken off
    too).  The tests for equality and for a directory prefix add
    nothing. *)
Theorem matchesExclude_is_substring_test
        (relPathPosix : str) (patterns : list str) :
  matchesExclude relPathPosix patterns = true
  <-> exists raw a b,
        In raw patterns
        /\ replaceFirst re_dot_slashes [] (trim raw) <> []
        /\ replaceFirst re_dot_slashes [] relPathPosix
           = a ++ replaceFirst re_dot_slashes [] (trim raw) ++ b.
Proof.
  unfold matchesExclude. destruct patterns as [|q qs].
  - split; [discriminate|]. now intros (raw & _ & _ & [] & _).
  - set (ps := q :: qs). rewrite existsb_exists. split.
    + intros (raw & Hin & H). exists raw.
      destruct (replaceFirst re_dot_slashes [] (trim raw)) as [|c p] eqn:E;
        [discriminate|].
      apply orb_true_iff in H as [H|H];
        [apply orb_true_iff in H as [H|H]|].
      * apply str_eqb_eq in H. exists [], []. rewrite app_nil_r.
        now repeat split.
      * destruct (starts_with_dec _ _ H) as (r & Er).
        exists [], (SLASH :: r). rewrite Er, <- app_assoc.
        now repeat split.
      * apply includes_spec in H as (a & b & Eab). exists a, b.
        now repeat split.
    + intros (raw & a & b & Hin & Hp & E). exists raw. split; [exact Hin|].
      destruct (replaceFirst re_dot_slashes [] (trim raw)) as [|c p] eqn:Ep;
        [now destruct Hp|].
      apply orb_true_iff. right. apply includes_spec. now exists a, b.
Qed.

Lemma matchesExclude_existsb rel (patterns : list str) :
  matchesExclude rel patterns
  = existsb
      (fun raw =>
         match replaceFirst re_dot_slashes [] (trim raw) with
         | [] => false
         | p =>
             str_eqb (replaceFirst re_dot_slashes [] rel) p
             || starts_with (p ++ [SLASH]) (replaceFirst re_dot_slashes [] rel)
             || includes p (replaceFirst re_dot_slashes [] rel)
         end)
      patterns.
Proof.
  destruct patterns as [|q qs]; [reflexivity|]. unfold matchesExclude.
  generalize (q :: qs). intros l. induction l as [|raw l IH]; [reflexivity|].
  cbn [existsb]. rewrite IH. f_equal.
  now destruct (replaceFirst re_dot_slashes [] (trim raw)).
Qed.

(** X8.  Patterns act one by one, and a pattern that is blank, or is
    [./] alone, excludes nothing: such patterns can be dropped from the
    list, and a list of them (the empty list too) excludes no path. *)
Theorem matchesExclude_blank_patterns
        (relPathPosix : str) (blank patterns : list str) :
  Forall (fun raw =>
            Forall (fun c => is_space c = true) raw
            \/ exists k, trim raw = DOT :: repeat SLASH (S k)) blank ->
  matchesExclude relPathPosix (blank ++ patterns)
  = matchesExclude relPathPosix patterns
  /\ matchesExclude relPathPosix (patterns ++ blank)
     = matchesExclude relPathPosix patterns
  /\ matchesExclude relPathPosix blank = false.
Proof.
  intros H.
  assert (E : matchesExclude relPathPosix blank = false).
  { rewrite matchesExclude_existsb.
    match goal with |- existsb ?g _ = _ => set (f := g) end.
    induction H as [|raw l Hraw _ IH]; [reflexivity|].
    cbn [existsb]. rewrite IH, orb_false_r. unfold f.
    destruct Hraw as [Hs|(k & Hk)].
    - now rewrite (trim_spaces raw Hs).
    - rewrite Hk.
      replace (DOT :: repeat SLASH (S k))
        with (DOT :: repeat SLASH (S k) ++ []) by now rewrite app_nil_r.
      now rewrite dot_slashes_strip. }
  rewrite matchesExclude_existsb in E.
  rewrite !matchesExclude_existsb, !existsb_app, E.
  now rewrite orb_false_r.
Qed.

Lemma matchesExclude_blank_patterns_witness :
  let blank := [js "  "; []; js " ./ "] in
  Forall (fun raw =>
            Forall (fun c => is_space c = true) raw
            \/ exists k, trim raw = DOT :: repeat SLASH (S k)) blank
  /\ matchesExclude (js "src/a.ts") (blank ++ [js "vendor"])
     = matchesExclude (js "src/a.ts") [js "vendor"].
Proof.
  intros blank.
  assert (H : Forall (fun raw =>
                        Forall (fun c => is_space c = true) raw
                        \/ exists k, trim raw = DOT :: repeat SLASH (S k))
                     blank).
  { constructor; [left; repeat constructor|].
    constructor; [left; constructor|].
    constructor; [right; now exists 0|constructor]. }
  split; [exact H|].
  exact (proj1 (matchesExclude_blank_patterns (js "src/a.ts") blank
                  [js "vendor"] H)).
Defined.

Lemma split_on_cons sep s : exists w ws, split_on sep s = w :: ws.
Proof.
  destruct s as [|c r]; cbn [split_on]; [now eexists _, _|].
  destruct (c =? sep)%N; [now eexists _, _|].
  destruct (split_on sep r); now eexists _, _.
Qed.

Lemma join_with_cons glue a w ws :
  join_with glue (a :: w :: ws) = a ++ glue ++ join_with glue (w :: ws).
Proof. reflexivity. Qed.

Lemma join_split sep glue c r :
  join_with glue (split_on sep (c :: r))
  = (if (c =? sep)%N then glue else [c]) ++ join_with glue (split_on sep r).
Proof.
  cbn [split_on]. destruct (split_on_cons sep r) as (w & ws & E).
  rewrite E. destruct (c =? sep)%N.
  - now rewrite join_with_cons.
  - destruct ws as [|w' ws]; [reflexivity|].
    now rewrite !join_with_cons.
Qed.

(** X9.  [toPosix] writes [/] for each separator and leaves every other
    code unit alone: the length is kept, the function is the identity
    where the separator is [/] already, and applying it twice is applying
    it once. *)
Theorem toPosix_replaces_separators (sep : char) (filePath : str) :
  toPosix sep filePath
  = List.map (fun c => if (c =? sep)%N then SLASH else c) filePath
  /\ length (toPosix sep filePath) = length filePath
  /\ toPosix SLASH filePath = filePath
  /\ toPosix sep (toPosix sep filePath) = toPosix sep filePath.
Proof.
  assert (E : forall sp s,
             toPosix sp s
             = List.map (fun c => if (c =? sp)%N then SLASH else c) s).
  { intros sp s. unfold toPosix. induction s as [|c r IH]; [reflexivity|].
    rewrite join_split, IH. cbn [List.map].
    now destruct (c =? sp)%N. }
  split; [apply E|]. split; [now rewrite E, length_map|]. split.
  - rewrite E. induction filePath as [|c r IH]; [reflexivity|].
    cbn [List.map]. rewrite IH.
    now destruct (N.eqb_spec c SLASH) as [->|_].
  - rewrite !E, map_map. apply map_ext. intros c.
    destruct (N.eqb_spec c sep) as [->|H]; [|now apply N.eqb_neq in H as ->].
    now destruct (N.eqb_spec SLASH sep) as [E'|_].
Qed.

Lemma split_comma_split_on s : split_comma s = split_on 44%N s.
Proof.
  induction s as [|c r IH]; [reflexivity|].
  cbn [split_comma split_on]. now rewrite IH.
Qed.

Lemma split_on_tokens sep s : Forall (fun t => ~ In sep t) (split_on sep s).
Proof.
  induction s as [|c r IH]; [repeat constructor; auto|].
  cbn [split_on]. destruct (N.eqb_spec c sep) as [->|Hc].
  - constructor; auto.
  - destruct (split_on sep r) as [|w ws]; [repeat constructor|].
    + intros [E|[]]. now destruct Hc.
    + inversion_clear IH as [|? ? Hw Hws]. constructor; [|exact Hws].
      intros [E|Hin]; [now destruct Hc|now apply Hw].
Qed.

Lemma split_on_length sep s :
  length (split_on sep s) = S (count_occ N.eq_dec s sep).
Proof.
  induction s as [|c r IH]; [reflexivity|]. cbn [split_on count_occ].
  destruct (N.eqb_spec c sep) as [->|Hc].
  - destruct (N.eq_dec sep sep) as [_|F]; [|now destruct F]. cbn. now rewrite IH.
  - destruct (N.eq_dec c sep) as [F|_]; [now destruct Hc|].
    destruct (split_on sep r); [discriminate|exact IH].
Qed.

(** X10.  [value.split(",")], as [--exclude] uses it, loses nothing but
    the commas: no token holds a comma, there is one token more than
    there are commas (so never none), and joining the tokens with commas
    gives the value back. *)
Theorem split_comma_tokens (value : str) :
  Forall (fun t => ~ In 44%N t) (split_comma value)
  /\ length (split_comma value) = S (count_occ N.eq_dec value 44%N)
  /\ join_with [44%N] (split_comma value) = value.
Proof.
  rewrite split_comma_split_on.
  split; [apply split_on_tokens|]. split; [apply split_on_length|].
  induction value as [|c r IH]; [reflexivity|].
  rewrite join_split, IH. now destruct (N.eqb_spec c 44%N) as [->|_].
Qed.

(* ------------------------------------------------------------------ *)
(** ** The grouping engine: nothing lost, nothing reordered *)
(* ------------------------------------------------------------------ *)

Section GroupByFacts.
Variable T : Type.
Variable keyFn : T -> str.

Lemma existsb_str_eqb k (l : list str) :
  existsb (str_eqb k) l = true <-> In k l.
Proof.
  rewrite existsb_exists. split.
  - intros (x & Hin & E). apply str_eqb_eq in E. now subst.
  - intros H. exists k. split; [exact H|apply str_eqb_refl].
Qed.

Lemma groupBy_step_keys (m : JsMap.t (list T)) x :
  List.map fst (groupBy_step keyFn m x)
  = set_add (List.map fst m) (keyFn x).
Proof.
  unfold groupBy_step, set_add.
  assert (E : forall v, List.map fst (JsMap.set (keyFn x) v m)
                        = if existsb (str_eqb (keyFn x)) (List.map fst m)
                          then List.map fst m
                          else List.map fst m ++ [keyFn x]).
  { intros v. rewrite JsMapFacts.set_keys.
    destruct (in_dec _ _ _) as [Hin|Hin].
    - now apply existsb_str_eqb in Hin as ->.
    - destruct (existsb _ _) eqn:F; [|reflexivity].
      now apply existsb_str_eqb in F. }
  destruct (JsMap.get (keyFn x) m); apply E.
Qed.

Lemma groupBy_snoc items x :
  groupBy (items ++ [x]) keyFn = groupBy_step keyFn (groupBy items keyFn) x.
Proof. unfold groupBy. now rewrite fold_left_app. Qed.

Lemma set_members k (v : list T) (m : JsMap.t (list T)) :
  match JsMap.get k m with
  | Some old =>
      Permutation (concat (List.map snd (JsMap.set k v m)) ++ old)
                  (concat (List.map snd m) ++ v)
  | None =>
      concat (List.map snd (JsMap.set k v m)) = concat (List.map snd m) ++ v
  end.
Proof.
  induction m as [|[k' old] m IH].
  - cbn. now rewrite app_nil_r.
  - unfold JsMap.get in *. cbn [find fst JsMap.set].
    destruct (str_eqb k' k) eqn:E.
    + cbn [option_map snd List.map concat].
      rewrite <- !app_assoc.
      etransitivity; [apply Permutation_app_comm|].
      rewrite <- !app_assoc. apply Permutation_app_swap_app.
    + cbn [List.map concat snd].
      destruct (find _ m) as [[k0 old0]|]; cbn [option_map snd] in *.
      * rewrite <- !app_assoc. now apply Permutation_app_head.
      * now rewrite IH, app_assoc.
Qed.

Lemma groupBy_step_members (m : JsMap.t (list T)) x :
  Permutation (concat (List.map snd (groupBy_step keyFn m x)))
              (concat (List.map snd m) ++ [x]).
Proof.
  unfold groupBy_step.
  destruct (JsMap.get (keyFn x) m) as [existing|] eqn:E.
  - pose proof (set_members (keyFn x) (existing ++ [x]) m) as H.
    rewrite E in H. rewrite app_assoc in H.
    apply Permutation_app_inv_r with (l := existing).
    rewrite H.
    rewrite <- !app_assoc. apply Permutation_app_head.
    apply Permutation_app_comm.
  - pose proof (set_members (keyFn x) [x] m) as H. rewrite E in H.
    now rewrite H.
Qed.

(** X11.  [groupBy] loses no item and repeats none: the groups, laid end
    to end, are the items rearranged; the keys of the map are the distinct
    keys of the items, each where it was first seen; no group is empty. *)
Theorem groupBy_partition (items : list T) :
  List.map fst (JsMap.entries (groupBy items keyFn))
  = distinct (List.map keyFn items)
  /\ Permutation (concat (List.map snd (JsMap.entries (groupBy items keyFn))))
                 items
  /\ length (concat (List.map snd (JsMap.entries (groupBy items keyFn))))
     = length items
  /\ Forall (fun e => snd e <> []) (JsMap.entries (groupBy items keyFn)).
Proof.
  unfold JsMap.entries.
  assert (K : List.map fst (groupBy items keyFn)
              = distinct (List.map keyFn items)).
  { induction items as [|x l IH] using rev_ind; [reflexivity|].
    rewrite groupBy_snoc, groupBy_step_keys, IH.
    unfold distinct. now rewrite map_app, fold_left_app. }
  assert (P : Permutation (concat (List.map snd (groupBy items keyFn)))
                          items).
  { clear K. induction items as [|x l IH] using rev_ind; [constructor|].
    rewrite groupBy_snoc, groupBy_step_members.
    now apply Permutation_app_tail. }
  split; [exact K|]. split; [exact P|].
  split; [now apply Permutation_length|].
  apply Forall_forall. intros [k v] Hin.
  now apply (proj2 (groupBy_grouped T keyFn items)) in Hin.
Qed.
End GroupByFacts.

Section ThresholdFacts.
Variable A : Type.
Variable cmp : A -> A -> Z.
Hypothesis cmp_total : forall a b, (0 < cmp a b)%Z -> (cmp b a <= 0)%Z.
Hypothesis cmp_trans :
  forall a b c, (cmp a b <= 0)%Z -> (cmp b c <= 0)%Z -> (cmp a c <= 0)%Z.
Variable p : A -> bool.

Lemma sort_insert_head x l :
  (forall h, In h l -> (cmp x h <= 0)%Z) -> sort_insert cmp x l = x :: l.
Proof.
  destruct l as [|h l]; [reflexivity|]. intros H. cbn.
  now rewrite (proj2 (Z.leb_le _ _) (H h (or_introl eq_refl))).
Qed.

Lemma filter_sort_insert x l :
  StronglySorted (fun a b => (cmp a b <= 0)%Z) l ->
  filter p (sort_insert cmp x l)
  = if p x then sort_insert cmp x (filter p l) else filter p l.
Proof.
  induction 1 as [|y r Hr IH Hy]; cbn [sort_insert filter].
  - now destruct (p x).
  - destruct (Z.leb_spec (cmp x y) 0) as [L|L]; cbn [filter].
    + destruct (p x) eqn:Px; [|reflexivity].
      symmetry. apply sort_insert_head.
      intros h Hh. destruct (p y).
      * destruct Hh as [<-|Hh]; [exact L|].
        apply filter_In in Hh as [Hh _].
        apply (cmp_trans x y h L). now apply (proj1 (Forall_forall _ _) Hy).
      * apply filter_In in Hh as [Hh _].
        apply (cmp_trans x y h L). now apply (proj1 (Forall_forall _ _) Hy).
    + rewrite IH. destruct (p y), (p x); try reflexivity.
      cbn [sort_insert].
      now destruct (Z.leb_spec (cmp x y) 0) as [L'|_]; [lia|].
Qed.

Lemma filter_sort l : filter p (sort cmp l) = sort cmp (filter p l).
Proof.
  induction l as [|x l IH]; [reflexivity|]. cbn [sort filter].
  rewrite filter_sort_insert by now apply sort_sorted.
  rewrite IH. now destruct (p x).
Qed.
End ThresholdFacts.

Lemma filter_filter_impl (A : Type) (p q : A -> bool) (l : list A) :
  (forall x, q x = true -> p x = true) ->
  filter q (filter p l) = filter q l.
Proof.
  intros H. induction l as [|x l IH]; [reflexivity|]. cbn [filter].
  destruct (p x) eqn:Px; cbn [filter]; rewrite IH; [reflexivity|].
  destruct (q x) eqn:Qx; [|reflexivity]. apply H in Qx. congruence.
Qed.

(** X12.  Raising the minimum count only takes groups away: the result
    for a higher threshold is the result for a lower one with the groups
    below the higher threshold removed, the others in the same order. *)
Theorem filterDuplicateGroups_threshold
        (T : Type) (localeCompare : str -> str -> Z)
        (groups : JsMap.t (list T)) (low high : Z) :
  (forall a b, (0 < localeCompare a b)%Z <-> (localeCompare b a < 0)%Z) ->
  (forall a b c, (localeCompare a b <= 0)%Z -> (localeCompare b c <= 0)%Z ->
                 (localeCompare a c <= 0)%Z) ->
  (low <= high)%Z ->
  filterDuplicateGroups localeCompare groups high
  = filter (fun e => (high <=? Z.of_nat (length (snd e)))%Z)
           (filterDuplicateGroups localeCompare groups low).
Proof.
  intros Hanti Htrans Hle. unfold filterDuplicateGroups.
  rewrite (filter_sort _ (compareGroups localeCompare)
             (compareGroups_total T localeCompare Hanti)
             (compareGroups_trans T localeCompare Htrans)).
  f_equal. symmetry. apply filter_filter_impl.
  intros e H. apply Z.leb_le in H. apply Z.leb_le. lia.
Qed.

Lemma filterDuplicateGroups_threshold_witness :
  let groups := [(js "Beta", [1; 2]); (js "Alpha", [3; 4]);
                 (js "Gamma", [5; 6; 7])] in
  (2 <= 3)%Z
  /\ filterDuplicateGroups codeUnitCompare groups 3
     = filter (fun e => (3 <=? Z.of_nat (length (snd e)))%Z)
              (filterDuplicateGroups codeUnitCompare groups 2).
Proof.
  intros groups.
  assert (H : (2 <= 3)%Z) by discriminate.
  split; [exact H|].
  exact (filterDuplicateGroups_threshold nat codeUnitCompare groups 2 3
           codeUnitCompare_anti codeUnitCompare_trans H).
Defined.

Ltac flatten :=
  repeat first [rewrite <- app_assoc | rewrite <- app_comm_cons];
  reflexivity.

Section StableFacts.
Variable A : Type.
Variable cmp : A -> A -> Z.

(** [a] stands before [b] in [l]. *)
Let before (a b : A) (l : list A) : Prop :=
  exists l1 l2 l3, l = l1 ++ a :: l2 ++ b :: l3.

Lemma sort_insert_split x l :
  exists l1 l2, l = l1 ++ l2 /\ sort_insert cmp x l = l1 ++ x :: l2
                /\ Forall (fun y => (0 < cmp x y)%Z) l1.
Proof.
  induction l as [|y r (l1 & l2 & E & Es & F)]; [now exists [], []|].
  cbn [sort_insert]. destruct (Z.leb_spec (cmp x y) 0) as [L|L].
  - now exists [], (y :: r).
  - exists (y :: l1), l2. rewrite E at 1. rewrite Es.
    repeat split. now constructor.
Qed.

Lemma sort_insert_before x a b l :
  before a b l -> before a b (sort_insert cmp x l).
Proof.
  intros (l1 & l2 & l3 & E).
  destruct (sort_insert_split x l) as (p1 & p2 & Ep & -> & _).
  rewrite E in Ep.
  (* where the cut between [p1] and [p2] falls *)
  apply app_eq_app in Ep as [u [[E1 E2]|[E1 E2]]].
  - subst l1 p2. exists (p1 ++ x :: u), l2, l3. flatten.
  - subst p1. destruct u as [|a' u].
    + cbn [app] in E2. subst p2. rewrite app_nil_r.
      exists (l1 ++ [x]), l2, l3. flatten.
    + injection E2 as <- E2.
      apply app_eq_app in E2 as [w [[E3 E4]|[E3 E4]]].
      * subst l2 p2. exists l1, (u ++ x :: w), l3. flatten.
      * subst u. destruct w as [|b' w].
        -- cbn [app] in E4. subst p2. rewrite app_nil_r.
           exists l1, (l2 ++ [x]), l3. flatten.
        -- injection E4 as <- E4. subst l3.
           exists l1, l2, (w ++ x :: p2). flatten.
Qed.

Lemma sort_insert_first x b l :
  In b l -> (cmp x b <= 0)%Z -> before x b (sort_insert cmp x l).
Proof.
  intros Hin Hc.
  destruct (sort_insert_split x l) as (p1 & p2 & -> & -> & F).
  apply in_app_or in Hin as [Hin|Hin].
  - apply (proj1 (Forall_forall _ _) F) in Hin. lia.
  - destruct (in_split _ _ Hin) as (u & v & ->). now exists p1, u, v.
Qed.

Lemma sort_before a b l :
  before a b l -> (cmp a b <= 0)%Z -> before a b (sort cmp l).
Proof.
  intros (l1 & l2 & l3 & ->) Hc.
  induction l1 as [|x l1 IH]; cbn [app sort].
  - apply sort_insert_first; [|exact Hc].
    apply sort_In, in_or_app. right. now left.
  - now apply sort_insert_before.
Qed.

Lemma filter_before (p : A -> bool) a b l :
  before a b l -> p a = true -> p b = true -> before a b (filter p l).
Proof.
  intros (l1 & l2 & l3 & ->) Ha Hb.
  exists (filter p l1), (filter p l2), (filter p l3).
  rewrite filter_app. cbn [filter]. rewrite Ha, filter_app. cbn [filter].
  now rewrite Hb.
Qed.
End StableFacts.

(** X13.  The sort keeps the order of the map where the comparator does
    not ask otherwise: of two groups that pass the threshold, the one the
    map holds first comes first in the result unless the other has more
    members or, with as many, a key that collates before.  Groups that tie
    on both counts stay in first-seen order. *)
Theorem filterDuplicateGroups_stable
        (T : Type) (localeCompare : str -> str -> Z)
        (g1 g2 g3 : JsMap.t (list T)) (a b : str * list T) (minCount : Z) :
  (minCount <= Z.of_nat (length (snd a)))%Z ->
  (minCount <= Z.of_nat (length (snd b)))%Z ->
  (compareGroups localeCompare a b <= 0)%Z ->
  exists r1 r2 r3,
    filterDuplicateGroups localeCompare (g1 ++ a :: g2 ++ b :: g3) minCount
    = r1 ++ a :: r2 ++ b :: r3.
Proof.
  intros Ha Hb Hc. unfold filterDuplicateGroups, JsMap.entries.
  apply sort_before; [|exact Hc].
  apply filter_before; [now exists g1, g2, g3| |]; now apply Z.leb_le.
Qed.

Lemma filterDuplicateGroups_stable_witness :
  let a := (js "Beta", [1; 2]) in
  let b := (js "Beta", [3; 4]) in
  (2 <= Z.of_nat (length (snd a)))%Z
  /\ (2 <= Z.of_nat (length (snd b)))%Z
  /\ (compareGroups codeUnitCompare a b <= 0)%Z
  /\ exists r1 r2 r3,
       filterDuplicateGroups codeUnitCompare
         ([] ++ a :: [(js "Alpha", [5; 6])] ++ b :: []) 2
       = r1 ++ a :: r2 ++ b :: r3.
Proof.
  intros a b.
  assert (Ha : (2 <= Z.of_nat (length (snd a)))%Z) by (cbn; lia).
  assert (Hb : (2 <= Z.of_nat (length (snd b)))%Z) by (cbn; lia).
  assert (Hc : (compareGroups codeUnitCompare a b <= 0)%Z)
    by (vm_compute; discriminate).
  split; [exact Ha|split; [exact Hb|split; [exact Hc|]]].
  exact (filterDuplicateGroups_stable nat codeUnitCompare
           [] [(js "Alpha", [5; 6])] [] a b 2 Ha Hb Hc).
Defined.

(* ------------------------------------------------------------------ *)
(** ** The extractor: what every record holds *)
(* ------------------------------------------------------------------ *)

Lemma codeUnitCompare_total a b :
  (0 < codeUnitCompare a b)%Z -> (codeUnitCompare b a <= 0)%Z.
Proof. intros H. apply codeUnitCompare_anti in H. lia. Qed.

Lemma extractPropertyNames_sorted node text :
  StronglySorted (fun a b => (codeUnitCompare a b <= 0)%Z)
                 (extractPropertyNames node text).
Proof.
  unfold extractPropertyNames.
  apply sort_sorted; [apply codeUnitCompare_total|apply codeUnitCompare_trans].
Qed.

(** X14.  The property names of a declaration are the names of its
    property signatures (of all its members, for an enum), sorted
    ascending by code units; methods, index signatures and members
    without a name are left out, and a type alias that is no type literal
    has none. *)
Theorem propertyNames_sorted (node : Node) (sourceText : str) :
  StronglySorted (fun a b => (codeUnitCompare a b <= 0)%Z)
                 (extractPropertyNames node sourceText)
  /\ (forall n ms,
        nodeInfo node = InterfaceDeclaration n ms
        \/ nodeInfo node = TypeAliasDeclaration n (Some (TypeLiteralNode ms)) ->
        Permutation (extractPropertyNames node sourceText)
          (List.map (fun m => match memberName m with
                              | Some (a, b) => textSpan sourceText a b
                              | None => []
                              end)
             (filter (fun m => isPropertySignature m
                               && match memberName m with
                                  | Some _ => true
                                  | None => false
                                  end) ms)))
  /\ (forall n ms,
        nodeInfo node = EnumDeclaration n ms ->
        Permutation (extractPropertyNames node sourceText)
          (List.map (fun m => match memberName m with
                              | Some (a, b) => textSpan sourceText a b
                              | None => []
                              end)
             (filter (fun m => match memberName m with
                               | Some _ => true
                               | None => false
                               end) ms)))
  /\ (forall n,
        nodeInfo node = TypeAliasDeclaration n None
        \/ nodeInfo node = TypeAliasDeclaration n (Some OtherTypeNode)
        \/ nodeInfo node = OtherNode ->
        extractPropertyNames node sourceText = []).
Proof.
  assert (M : forall keep ms,
             memberNames sourceText keep ms
             = List.map (fun m => match memberName m with
                                  | Some (a, b) => textSpan sourceText a b
                                  | None => []
                                  end)
                 (filter (fun m => keep m
                                   && match memberName m with
                                      | Some _ => true
                                      | None => false
                                      end) ms)).
  { intros keep ms. unfold memberNames.
    induction ms as [|m ms IH]; [reflexivity|].
    cbn [flat_map filter]. rewrite IH.
    destruct (memberName m) as [[a b]|] eqn:En; destruct (keep m);
      cbn [andb app List.map]; rewrite ?En; reflexivity. }
  split; [apply extractPropertyNames_sorted|].
  unfold extractPropertyNames. split; [|split].
  - intros n ms [E|E]; rewrite E, M; apply sort_perm.
  - intros n ms E. rewrite E, M. cbn [andb]. apply sort_perm.
  - intros n [E|[E|E]]; now rewrite E.
Qed.

Lemma getLine_positive text node : 1 <= getLine text node.
Proof. unfold getLine. lia. Qed.

(** X15.  Every record [collectDeclarations] returns is well formed: it
    carries the file it was given and a line from 1 up; its property
    count is the number of its property names, which are sorted; it is a
    re-export exactly when its kind says so, and then it has no
    properties; a declaration record has a name that is not empty. *)
Theorem record_well_formed
        (relativeFile sourceText : str) (sourceFile : Node)
        (includeEnums : bool) (r : DeclarationRecord) :
  In r (collectDeclarations relativeFile sourceText sourceFile includeEnums) ->
  file r = relativeFile
  /\ 1 <= line r
  /\ propertyCount r = length (propertyNames r)
  /\ StronglySorted (fun a b => (codeUnitCompare a b <= 0)%Z)
                    (propertyNames r)
  /\ (isReExport r = true <-> kind r = KReexport)
  /\ (isReExport r = true -> propertyNames r = [])
  /\ (isReExport r = false -> name r <> [])
  /\ (kind r = KEnum -> includeEnums = true).
Proof.
  intros Hin. apply collectDeclarations_In in Hin as (node & _ & [H|H]).
  - unfold reExportRecordsOf in H.
    destruct (nodeInfo node) as [| | |[] [[|els]|]|]; try now destruct H.
    apply in_map_iff in H as (el & <- & _). cbn.
    split; [reflexivity|]. split; [apply getLine_positive|].
    split; [reflexivity|]. split; [constructor|].
    split; [split; reflexivity|].
    split; [reflexivity|]. split; discriminate.
  - unfold declarationRecordOf in H.
    destruct (classify includeEnums node) as [[k n]|] eqn:C; [|now destruct H].
    destruct n as [|c n]; [now destruct H|].
    destruct H as [<-|[]]. cbn.
    assert (Hk : k <> KReexport /\ (k = KEnum -> includeEnums = true)).
    { unfold classify in C.
      destruct (nodeInfo node); try discriminate;
        try (injection C as <- _; split; [discriminate|discriminate]).
      destruct includeEnums; [|discriminate].
      injection C as <- _. split; [discriminate|reflexivity]. }
    split; [reflexivity|]. split; [apply getLine_positive|].
    split; [reflexivity|]. split; [apply extractPropertyNames_sorted|].
    split; [split; [discriminate|intros E; now destruct (proj1 Hk)]|].
    split; [discriminate|]. split; [discriminate|exact (proj2 Hk)].
Qed.

Lemma record_well_formed_witness :
  let r :=
    {| name := js "L"; kind := KType; file := js "a.ts"; line := 1;
       snippet := firstn 197 longAlias ++ js "...";
       normalizedShape := normalizeShape longAlias (js "L");
       isReExport := false; propertyCount := 0; propertyNames := [] |} in
  In r (collectDeclarations (js "a.ts") longAlias longAlias_tree true)
  /\ file r = js "a.ts" /\ 1 <= line r.
Proof.
  intros r.
  assert (H : In r (collectDeclarations (js "a.ts") longAlias
                      longAlias_tree true)).
  { left. unfold r. f_equal. }
  split; [exact H|].
  pose proof (record_well_formed (js "a.ts") longAlias longAlias_tree true
                r H) as W.
  split; [exact (proj1 W)|exact (proj1 (proj2 W))].
Defined.

(** X16.  No declaration is missed, at any depth: an interface, a type
    alias or (when enums are included) an enum anywhere in the tree, with
    a name that is not empty, has a record with its name, its kind and
    its line; and every record that is no re-export comes from such a
    node. *)
Theorem every_declaration_found
        (relativeFile sourceText : str) (sourceFile : Node)
        (includeEnums : bool) (k : DeclarationKind) (n : str) (l : nat) :
  (exists r,
      In r (collectDeclarations relativeFile sourceText sourceFile
              includeEnums)
      /\ isReExport r = false /\ kind r = k /\ name r = n /\ line r = l)
  <-> (n <> []
       /\ exists node,
            In node (preorder sourceFile)
            /\ classify includeEnums node = Some (k, n)
            /\ getLine sourceText node = l).
Proof.
  split.
  - intros (r & Hin & Hre & Hk & Hn & Hl).
    apply collectDeclarations_In in Hin as (node & Hnode & [H|H]).
    + apply reExportRecordsOf_In in H as (_ & _ & H & _). congruence.
    + pose proof H as H'.
      apply declarationRecordOf_In in H' as (_ & _ & _ & C & L).
      subst k n l. split; [|now exists node].
      unfold declarationRecordOf in H. rewrite C in H.
      destruct (name r); [now destruct H|discriminate].
  - intros (Hn & node & Hnode & C & <-).
    assert (R : exists r,
               In r (declarationRecordOf sourceText relativeFile
                       includeEnums node)
               /\ kind r = k /\ name r = n).
    { unfold declarationRecordOf. rewrite C.
      destruct n as [|c n]; [now destruct Hn|].
      eexists. split; [left; reflexivity|]. now split. }
    destruct R as (r & Hr & Hk & Hname). exists r.
    pose proof (declarationRecordOf_In _ _ _ _ _ Hr) as (_ & _ & Hre & _ & L).
    split; [|now repeat split].
    unfold collectDeclarations. apply in_or_app. right.
    rewrite visit_preorder. apply in_flat_map. now exists node.
Qed.

Lemma filter_flat_map (A B : Type) (p : B -> bool) (f : A -> list B) l :
  filter p (flat_map f l) = flat_map (fun a => filter p (f a)) l.
Proof.
  induction l as [|a l IH]; [reflexivity|].
  cbn [flat_map]. now rewrite filter_app, IH.
Qed.

(** X17.  Leaving enums out is filtering them out: the records found
    with [includeEnums] off are those found with it on, the enum records
    removed and nothing else changed. *)
Theorem no_enums_is_a_filter
        (relativeFile sourceText : str) (sourceFile : Node) :
  collectDeclarations relativeFile sourceText sourceFile false
  = filter (fun r => match kind r with KEnum => false | _ => true end)
           (collectDeclarations relativeFile sourceText sourceFile true).
Proof.
  unfold collectDeclarations. rewrite filter_app. f_equal.
  - unfold collectReExportRecords. rewrite filter_flat_map.
    apply flat_map_ext. intros st. unfold reExportRecordsOf.
    destruct (nodeInfo st) as [| | |[] [[|els]|]|]; try reflexivity.
    induction els as [|el els IH]; [reflexivity|].
    cbn [List.map filter kind]. now rewrite <- IH.
  - rewrite !visit_preorder, filter_flat_map.
    apply flat_map_ext. intros node.
    unfold declarationRecordOf, classify.
    destruct (nodeInfo node) as [n ms|n t|n ms|m c|]; try reflexivity;
      now destruct n.
Qed.

(* ------------------------------------------------------------------ *)
(** ** [parseArgs]: what it returns, and how arguments compose *)
(* ------------------------------------------------------------------ *)

Lemma readStringArg_value argv i flag v j :
  readStringArg argv i flag = Return (Some (v, j)) ->
  v <> [] /\ (j = i \/ (j = i + 1 /\ nth_error argv (i + 1) = Some v)).
Proof.
  unfold readStringArg.
  destruct (nth_error argv i) as [[|c arg]|]; try discriminate.
  destruct (starts_with (flag ++ js "=") (c :: arg)).
  - destruct (skipn _ _) as [|d w]; [discriminate|].
    intros [= <- <-]. split; [discriminate|now left].
  - destruct (str_eqb (c :: arg) flag); [|discriminate].
    destruct (nth_error argv (i + 1)) as [[|d nxt]|]; try discriminate.
    intros [= <- <-]. split; [discriminate|]. right. now split.
Qed.

Lemma readEnumArg_value argv i flag allowed v j :
  readEnumArg argv i flag allowed = Return (Some (v, j)) ->
  In v allowed
  /\ (j = i \/ (j = i + 1 /\ nth_error argv (i + 1) = Some v)).
Proof.
  unfold readEnumArg.
  destruct (readStringArg argv i flag) as [[[v' j']|]|e] eqn:E;
    try discriminate.
  destruct (existsb (str_eqb v') allowed) eqn:Ha; [|discriminate].
  cbn [negb]. intros [= <- <-].
  split; [now apply existsb_str_eqb|].
  now apply readStringArg_value in E.
Qed.

Section ParseArgsMore.
Variable integerOf : str -> option Z.

Ltac body_cases :=
  repeat match goal with
         | |- context [if ?b then _ else _] => destruct b eqn:?
         end;
  repeat match goal with
         | |- context [readEnumArg ?a ?j ?f ?al] =>
             destruct (readEnumArg a j f al) as [[[? ?]|]|?] eqn:?
         | |- context [readStringArg ?a ?j ?f] =>
             destruct (readStringArg a j f) as [[[? ?]|]|?] eqn:?
         end.

(** One pass of the loop body: the options stay usable, and the index
    stays or moves to a value that was there to read. *)
Lemma parseArgs_body_step argv i o o' j :
  parseArgs_body integerOf argv i o = Return (o', j) ->
  (usable o -> usable o')
  /\ (j = i \/ (j = i + 1 /\ i + 1 < length argv)).
Proof.
  unfold parseArgs_body.
  destruct (nth_error argv i) as [[|c arg]|] eqn:Hn;
    try (intros [= <- <-]; split; [auto|now left]).
  assert (N : forall f v k,
             readStringArg argv i f = Return (Some (v, k)) ->
             v <> [] /\ (k = i \/ (k = i + 1 /\ i + 1 < length argv))).
  { intros f v k H. apply readStringArg_value in H as (Hv & [->|[-> Hk]]).
    - split; [exact Hv|now left].
    - split; [exact Hv|]. right. split; [reflexivity|].
      apply nth_error_Some. congruence. }
  assert (E : forall f al v k,
             readEnumArg argv i f al = Return (Some (v, k)) ->
             In v al /\ (k = i \/ (k = i + 1 /\ i + 1 < length argv))).
  { intros f al v k H. apply readEnumArg_value in H as (Hv & [->|[-> Hk]]).
    - split; [exact Hv|now left].
    - split; [exact Hv|]. right. split; [reflexivity|].
      apply nth_error_Some. congruence. }
  body_cases; try discriminate;
    try (intros [= <- <-]; split; [|now left];
         unfold usable; cbn; intuition (auto; discriminate)).
  all: try match goal with
           | H : readEnumArg _ _ _ _ = Return (Some _) |- _ =>
               apply E in H as (? & ?)
           | H : readStringArg _ _ _ = Return (Some _) |- _ =>
               apply N in H as (? & ?)
           end.
  all: try (intros [= <- <-]; split; [|assumption];
            unfold usable; cbn; intuition (auto; congruence)).
  all: match goal with
       | |- context [integerOf ?v] =>
           destruct (integerOf v) as [z|]; [|discriminate];
           destruct (Z.ltb_spec z 2); [discriminate|]
       end.
  all: intros [= <- <-]; split; [|assumption];
       unfold usable; cbn; intuition (auto; lia).
Qed.

Lemma parseArgs_loop_usable argv :
  forall fuel i o o',
    parseArgs_loop integerOf fuel argv i o = Some (Return o') ->
    usable o -> usable o'.
Proof.
  induction fuel as [|fuel IH]; intros i o o'; cbn [parseArgs_loop].
  - destruct (length argv <=? i); [|discriminate]. now intros [= <-].
  - destruct (length argv <=? i); [now intros [= <-]|].
    destruct (parseArgs_body integerOf argv i o) as [[o1 j]|e] eqn:B;
      [|discriminate].
    intros H U. apply (IH _ _ _ H).
    now apply (proj1 (parseArgs_body_step _ _ _ _ _ B)).
Qed.

Lemma defaultOptions_usable : usable defaultOptions.
Proof.
  unfold usable, defaultOptions, MODES, OUTPUT_FORMATS. cbn.
  repeat split; try discriminate; try lia; auto.
Qed.
End ParseArgsMore.

(** X18.  Whatever [parseArgs] returns can be used as it is: the mode and
    the format are among the allowed ones, the minimum count is 2 or
    more, and no path it holds (root, output file, tsconfig) is the
    empty string. *)
Theorem parseArgs_returns_usable_options
        (integerOf : str -> option Z) (argv : list str) (o : CliOptions) :
  parseArgs integerOf argv = Some (Return o) ->
  In (mode o) MODES
  /\ In (format o) OUTPUT_FORMATS
  /\ (2 <= minCount o)%Z
  /\ root o <> []
  /\ outputFile o <> Some []
  /\ tsconfig o <> Some [].
Proof.
  intros H.
  exact (parseArgs_loop_usable integerOf argv _ _ _ _ H defaultOptions_usable).
Qed.

Lemma parseArgs_returns_usable_options_witness :
  let argv := [js "--mode=name"; js "--min"; js "3"; js "--json"] in
  let o := with_format (js "json")
             (with_minCount 3 (with_mode (js "name") defaultOptions)) in
  parseArgs integerOfDecimal argv = Some (Return o)
  /\ (2 <= minCount o)%Z.
Proof.
  intros argv o.
  assert (H : parseArgs integerOfDecimal argv = Some (Return o))
    by (vm_compute; reflexivity).
  split; [exact H|].
  exact (proj1 (proj2 (proj2 (parseArgs_returns_usable_options
                                integerOfDecimal argv o H)))).
Defined.

Lemma readStringArg_local argv i argv' i' flag :
  nth_error argv' i' = nth_error argv i ->
  nth_error argv' (i' + 1) = nth_error argv (i + 1)
  \/ (forall arg, nth_error argv i = Some arg -> str_eqb arg flag = false) ->
  readStringArg argv' i' flag = moved i i' (readStringArg argv i flag).
Proof.
  intros H1 H2. unfold readStringArg. rewrite H1.
  destruct (nth_error argv i) as [[|c arg]|]; try reflexivity.
  destruct (starts_with (flag ++ js "=") (c :: arg)).
  - destruct (skipn _ _); [reflexivity|].
    cbn [moved]. now rewrite Nat.sub_diag, Nat.add_0_r.
  - destruct H2 as [H2|H2].
    + rewrite H2. destruct (str_eqb (c :: arg) flag); [|reflexivity].
      destruct (nth_error argv (i + 1)) as [[|d nxt]|]; try reflexivity.
      cbn [moved]. do 3 f_equal. lia.
    + now rewrite (H2 _ eq_refl).
Qed.

Lemma readEnumArg_local argv i argv' i' flag allowed :
  nth_error argv' i' = nth_error argv i ->
  nth_error argv' (i' + 1) = nth_error argv (i + 1)
  \/ (forall arg, nth_error argv i = Some arg -> str_eqb arg flag = false) ->
  readEnumArg argv' i' flag allowed
  = moved i i' (readEnumArg argv i flag allowed).
Proof.
  intros H1 H2. unfold readEnumArg.
  rewrite (readStringArg_local argv i argv' i' flag H1 H2).
  destruct (readStringArg argv i flag) as [[[v j]|]|e]; try reflexivity.
  cbn [moved]. now destruct (negb _).
Qed.

Section ParseArgsCompose.
Variable integerOf : str -> option Z.

Lemma parseArgs_body_local argv i argv' i' o :
  nth_error argv' i' = nth_error argv i ->
  nth_error argv' (i' + 1) = nth_error argv (i + 1)
  \/ (forall arg, nth_error argv i = Some arg ->
                  Forall (fun f => str_eqb arg f = false) valueFlags) ->
  parseArgs_body integerOf argv' i' o
  = moved_body i i' (parseArgs_body integerOf argv i o).
Proof.
  intros H1 H2.
  assert (S : forall f, In f valueFlags ->
                        readStringArg argv' i' f
                        = moved i i' (readStringArg argv i f)).
  { intros f Hf. apply readStringArg_local; [exact H1|].
    destruct H2 as [H2|H2]; [now left|right].
    intros arg Ha. now apply (proj1 (Forall_forall _ _) (H2 arg Ha)). }
  assert (E : forall f al, In f valueFlags ->
                           readEnumArg argv' i' f al
                           = moved i i' (readEnumArg argv i f al)).
  { intros f al Hf. apply readEnumArg_local; [exact H1|].
    destruct H2 as [H2|H2]; [now left|right].
    intros arg Ha. now apply (proj1 (Forall_forall _ _) (H2 arg Ha)). }
  unfold parseArgs_body. rewrite H1.
  rewrite !E by (unfold valueFlags; cbn; tauto).
  rewrite !S by (unfold valueFlags; cbn; tauto).
  destruct (nth_error argv i) as [[|c arg]|];
    try (cbn [moved_body]; now rewrite Nat.sub_diag, Nat.add_0_r).
  repeat match goal with
         | |- context [if ?b then _ else _] =>
             destruct b;
             [cbn [moved_body]; now rewrite Nat.sub_diag, Nat.add_0_r|]
         end.
  repeat match goal with
         | |- context [readEnumArg argv i ?f ?al] =>
             destruct (readEnumArg argv i f al) as [[[? ?]|]|?];
             cbn [moved moved_body]; try reflexivity
         | |- context [readStringArg argv i ?f] =>
             destruct (readStringArg argv i f) as [[[? ?]|]|?];
             cbn [moved moved_body]; try reflexivity
         end.
  - match goal with
    | |- context [integerOf ?v] =>
        destruct (integerOf v) as [z|]; [|reflexivity];
        now destruct (z <? 2)%Z
    end.
  - now rewrite Nat.sub_diag, Nat.add_0_r.
Qed.

Lemma parseArgs_body_last argv i o arg o' j :
  nth_error argv i = Some arg ->
  nth_error argv (i + 1) = None ->
  parseArgs_body integerOf argv i o = Return (o', j) ->
  Forall (fun f => str_eqb arg f = false) valueFlags.
Proof.
  intros Hn Hx H. unfold valueFlags.
  repeat constructor;
    match goal with
    | |- str_eqb arg ?f = false =>
        destruct (str_eqb arg f) eqn:E; [|reflexivity];
        apply str_eqb_eq in E; subst arg; exfalso;
        unfold parseArgs_body, readEnumArg, readStringArg in H;
        rewrite Hn, Hx in H; vm_compute in H; discriminate
    end.
Qed.

Lemma parseArgs_loop_fuel argv :
  forall fuel fuel' i o,
    length argv <= i + fuel -> length argv <= i + fuel' ->
    parseArgs_loop integerOf fuel argv i o
    = parseArgs_loop integerOf fuel' argv i o.
Proof.
  induction fuel as [|fuel IH]; intros fuel' i o L L'.
  - cbn [parseArgs_loop]. destruct (Nat.leb_spec (length argv) i); [|lia].
    destruct fuel'; cbn [parseArgs_loop];
      now destruct (Nat.leb_spec (length argv) i); [|lia].
  - cbn [parseArgs_loop].
    destruct (Nat.leb_spec (length argv) i) as [Hi|Hi].
    + destruct fuel'; cbn [parseArgs_loop];
        now destruct (Nat.leb_spec (length argv) i); [|lia].
    + destruct fuel' as [|fuel']; [lia|]. cbn [parseArgs_loop].
      destruct (Nat.leb_spec (length argv) i); [lia|].
      destruct (parseArgs_body integerOf argv i o) as [[o1 j]|e] eqn:B;
        [|reflexivity].
      destruct (proj2 (parseArgs_body_step integerOf _ _ _ _ _ B))
        as [->|[-> _]]; apply IH; lia.
Qed.

Lemma parseArgs_loop_shift pre post :
  forall fuel j o,
    parseArgs_loop integerOf fuel (pre ++ post) (length pre + j) o
    = parseArgs_loop integerOf fuel post j o.
Proof.
  induction fuel as [|fuel IH]; intros j o; cbn [parseArgs_loop];
    rewrite length_app;
    destruct (Nat.leb_spec (length post) j) as [Hj|Hj];
    destruct (Nat.leb_spec (length pre + length post) (length pre + j));
    try lia; try reflexivity.
  rewrite (parseArgs_body_local post j (pre ++ post) (length pre + j) o).
  - destruct (parseArgs_body integerOf post j o) as [[o1 j1]|e] eqn:B;
      [|reflexivity].
    cbn [moved_body].
    destruct (proj2 (parseArgs_body_step integerOf _ _ _ _ _ B))
      as [->|[-> _]].
    + rewrite Nat.sub_diag, Nat.add_0_r.
      replace (length pre + j + 1) with (length pre + (j + 1)) by lia.
      apply IH.
    + replace (length pre + j + (j + 1 - j) + 1)
        with (length pre + (j + 1 + 1)) by lia.
      apply IH.
  - rewrite nth_error_app2 by lia. f_equal. lia.
  - left. rewrite nth_error_app2 by lia. f_equal. lia.
Qed.

Lemma parseArgs_loop_prefix pre post o :
  forall fuel i o0 fuel2,
    i <= length pre ->
    parseArgs_loop integerOf fuel pre i o0 = Some (Return o) ->
    length (pre ++ post) <= i + fuel2 ->
    parseArgs_loop integerOf fuel2 (pre ++ post) i o0
    = parseArgs_loop integerOf (length post) post 0 o.
Proof.
  induction fuel as [|fuel IH]; intros i o0 fuel2 Hi H L;
    cbn [parseArgs_loop] in H;
    destruct (Nat.leb_spec (length pre) i) as [Hp|Hp];
    try discriminate.
  1, 2: injection H as <-; replace i with (length pre + 0) by lia;
        rewrite parseArgs_loop_shift;
        rewrite length_app in L; apply parseArgs_loop_fuel; lia.
  destruct (parseArgs_body integerOf pre i o0) as [[o1 i1]|e] eqn:B;
    [|discriminate].
  pose proof (proj2 (parseArgs_body_step integerOf _ _ _ _ _ B)) as Hi1.
  rewrite length_app in L.
  destruct fuel2 as [|fuel2]; [lia|]. cbn [parseArgs_loop].
  rewrite length_app.
  destruct (Nat.leb_spec (length pre + length post) i); [lia|].
  rewrite (parseArgs_body_local pre i (pre ++ post) i o0), B.
  - cbn [moved_body].
    replace (i + (i1 - i)) with i1 by lia.
    apply (IH (i1 + 1) o1 fuel2); [lia|exact H|rewrite length_app; lia].
  - now rewrite nth_error_app1 by lia.
  - destruct (Nat.eq_dec (i + 1) (length pre)) as [El|Nl].
    + right. intros arg Ha.
      apply (parseArgs_body_last pre i o0 arg o1 i1 Ha); [|exact B].
      apply nth_error_None. lia.
    + left. now rewrite nth_error_app1 by lia.
Qed.
End ParseArgsCompose.



(** X19.  Arguments are read left to right and compose: when a list of
    arguments parses to some options, parsing that list with more
    arguments behind it is parsing the further arguments from those
    options on. *)
Theorem parseArgs_prefix
        (integerOf : str -> option Z) (pre post : list str)
        (o : CliOptions) :
  parseArgs integerOf pre = Some (Return o) ->
  parseArgs integerOf (pre ++ post)
  = parseArgs_loop integerOf (length post) post 0 o.
Proof.
  intros H. unfold parseArgs in *.
  apply (parseArgs_loop_prefix integerOf pre post o (length pre) 0
           defaultOptions (length (pre ++ post)));
    [lia|exact H|lia].
Qed.

Lemma parseArgs_prefix_witness :
  let pre := [js "--mode"; js "shape"] in
  let post := [js "--json"; js "--mode=name"] in
  parseArgs integerOfDecimal pre
  = Some (Return (with_mode (js "shape") defaultOptions))
  /\ parseArgs integerOfDecimal (pre ++ post)
     = Some (Return (with_mode (js "name")
                       (with_format (js "json")
                          (with_mode (js "shape") defaultOptions)))).
Proof.
  intros pre post.
  assert (H : parseArgs integerOfDecimal pre
              = Some (Return (with_mode (js "shape") defaultOptions)))
    by (vm_compute; reflexivity).
  split; [exact H|].
  rewrite (parseArgs_prefix integerOfDecimal pre post _ H).
  vm_compute. reflexivity.
Defined.

(** X20.  What one more flag at the end does to options already parsed:
    a value flag takes the token behind it whatever that token is, its
    two spellings agree, [--exclude] adds its tokens to those collected
    before, a later flag overrides an earlier one, and [--min] is
    checked. *)
Theorem parseArgs_trailing_flag
        (integerOf : str -> option Z) (pre : list str) (o : CliOptions)
        (v : str) :
  parseArgs integerOf pre = Some (Return o) ->
  v <> [] ->
  parseArgs integerOf (pre ++ [js "--root"; v])
  = Some (Return (with_root v o))
  /\ parseArgs integerOf (pre ++ [js "--root=" ++ v])
     = Some (Return (with_root v o))
  /\ parseArgs integerOf (pre ++ [js "--exclude"; v])
     = Some (Return (with_exclude (split_comma v) o))
  /\ parseArgs integerOf (pre ++ [js "--exclude=" ++ v])
     = Some (Return (with_exclude (split_comma v) o))
  /\ parseArgs integerOf (pre ++ [js "--json"])
     = Some (Return (with_format (js "json") o))
  /\ parseArgs integerOf (pre ++ [js "--min"; v])
     = Some (match integerOf v with
             | Some z =>
                 if (z <? 2)%Z
                 then Throw (js "Invalid value for --min; expected integer >= 2")
                 else Return (with_minCount z o)
             | None =>
                 Throw (js "Invalid value for --min; expected integer >= 2")
             end)
  /\ parseArgs integerOf (pre ++ [js "--root"])
     = Some (Throw (js "Missing value for --root")).
Proof.
  intros H Hv. destruct v as [|c v]; [now destruct Hv|].
  assert (P : forall post,
             parseArgs integerOf (pre ++ post)
             = parseArgs_loop integerOf (length post) post 0 o).
  { intros post. unfold parseArgs in *.
    apply (parseArgs_loop_prefix integerOf pre post o (length pre) 0
             defaultOptions (length (pre ++ post)));
      [lia|exact H|lia]. }
  rewrite !P.
  repeat split; try (vm_compute; reflexivity).
  cbn [length parseArgs_loop Nat.leb].
  match goal with
  | |- context [parseArgs_body integerOf ?argv 0 o] =>
      assert (B : parseArgs_body integerOf argv 0 o
                  = match integerOf (c :: v) with
                    | Some z =>
                        if (z <? 2)%Z
                        then Throw (js "Invalid value for --min; expected integer >= 2")
                        else Return (with_minCount z o, 1)
                    | None =>
                        Throw (js "Invalid value for --min; expected integer >= 2")
                    end) by reflexivity;
      rewrite B
  end.
  destruct (integerOf (c :: v)) as [z|]; [|reflexivity].
  now destruct (z <? 2)%Z.
Qed.

Lemma parseArgs_trailing_flag_witness :
  parseArgs integerOfDecimal [js "--root"; js "lib"]
  = Some (Return (with_root (js "lib") defaultOptions))
  /\ js "--json" <> []
  /\ parseArgs integerOfDecimal
       ([js "--root"; js "lib"] ++ [js "--root"; js "--json"])
     = Some (Return (with_root (js "--json")
                       (with_root (js "lib") defaultOptions))).
Proof.
  assert (H : parseArgs integerOfDecimal [js "--root"; js "lib"]
              = Some (Return (with_root (js "lib") defaultOptions)))
    by (vm_compute; reflexivity).
  assert (Hv : js "--json" <> []) by discriminate.
  split; [exact H|split; [exact Hv|]].
  exact (proj1 (parseArgs_trailing_flag integerOfDecimal
                  [js "--root"; js "lib"] _ (js "--json") H Hv)).
Defined.

(* ------------------------------------------------------------------ *)
(** ** cli.ts: batches, and what a run counts *)
(* ------------------------------------------------------------------ *)

Lemma array_slice_nat (A : Type) (l : list A) (a b : nat) :
  array_slice l (Z.of_nat a) (Z.of_nat b)
  = firstn (Nat.min b (length l) - Nat.min a (length l))
           (skipn (Nat.min a (length l)) l).
Proof.
  unfold array_slice, slice_index.
  destruct (Z.ltb_spec (Z.of_nat a) 0); [lia|].
  destruct (Z.ltb_spec (Z.of_nat b) 0); [lia|].
  replace (Z.to_nat (Z.min (Z.of_nat a) (Z.of_nat (length l))))
    with (Nat.min a (length l)) by lia.
  replace (Z.to_nat (Z.min (Z.of_nat b) (Z.of_nat (length l))))
    with (Nat.min b (length l)) by lia.
  reflexivity.
Qed.

Lemma array_slice_batch (A : Type) (l : list A) (offset size : nat) :
  offset < length l ->
  array_slice l (Z.of_nat offset) (Z.of_nat (offset + size))
  = firstn size (skipn offset l).
Proof.
  intros H. rewrite array_slice_nat, (Nat.min_l offset) by lia.
  destruct (Nat.le_ge_cases (offset + size) (length l)) as [L|L].
  - rewrite Nat.min_l by exact L. f_equal. lia.
  - rewrite Nat.min_r by exact L.
    rewrite !firstn_all2; [reflexivity| |]; rewrite length_skipn; lia.
Qed.

Section CollectAllFacts.
Variable analyse : str -> outcome (list DeclarationRecord).
Variable relativeOf : str -> str.

Let found (file : str) : list DeclarationRecord :=
  match analyse file with Return records => records | Throw _ => [] end.

Let failed (file : str) : list FileError.t :=
  match analyse file with
  | Return _ => []
  | Throw message => [FileError.mk (relativeOf file) message]
  end.

Lemma collect_results files acc :
  fold_left (collect_result relativeOf)
            (List.map (fun file => (file, analyse file)) files) acc
  = (fst acc ++ flat_map found files, snd acc ++ flat_map failed files).
Proof.
  revert acc. induction files as [|f files IH]; intros [ds es].
  - cbn. now rewrite !app_nil_r.
  - cbn [List.map fold_left flat_map]. rewrite IH.
    unfold collect_result, found, failed. cbn [fst snd].
    destruct (analyse f); cbn [fst snd app];
      now rewrite <- ?app_assoc.
Qed.

Lemma collectAll_loop_spec files :
  forall fuel offset acc,
    length files <= offset + fuel ->
    collectAll_loop analyse relativeOf fuel files offset acc
    = Some (fold_left (collect_result relativeOf)
              (List.map (fun file => (file, analyse file))
                        (skipn offset files)) acc).
Proof.
  induction fuel as [|fuel IH]; intros offset acc L; cbn [collectAll_loop];
    destruct (Nat.leb_spec (length files) offset) as [H|H];
    try (rewrite skipn_all2 by exact H; reflexivity); [lia|].
  rewrite IH by (unfold FILE_READ_CONCURRENCY; lia).
  rewrite array_slice_batch by exact H.
  rewrite <- fold_left_app, <- map_app. do 3 f_equal.
  rewrite Nat.add_comm, <- skipn_skipn. apply firstn_skipn.
Qed.

(** X21.  Reading in batches changes nothing to the result:
    [collectAllDeclarations] ends, and gives the records of the files
    that could be read, file after file in the order of the list, and
    one error for each file that could not, in that order too. *)
Theorem collectAllDeclarations_in_order (files : list str) :
  collectAllDeclarations analyse relativeOf files
  = Some (flat_map
            (fun file => match analyse file with
                         | Return records => records
                         | Throw _ => []
                         end) files,
          flat_map
            (fun file => match analyse file with
                         | Return _ => []
                         | Throw message =>
                             [FileError.mk (relativeOf file) message]
                         end) files).
Proof.
  unfold collectAllDeclarations.
  rewrite collectAll_loop_spec by lia.
  cbn [skipn]. now rewrite collect_results.
Qed.
End CollectAllFacts.

Lemma members_of_filter (T : Type) (keyFn : T -> str) (p : T -> bool) k l :
  members_of keyFn k (filter p l)
  = filter (fun d => p d && str_eqb (keyFn d) k) l.
Proof.
  unfold members_of. induction l as [|x l IH]; [reflexivity|].
  cbn [filter]. destruct (p x); cbn [filter andb]; now rewrite IH.
Qed.

Section RunFacts.
Variable localeCompare : str -> str -> Z.

Lemma effective_groups (keyFn : DeclarationRecord -> str)
      options declarations k :
  skipReExports options = true ->
  (1 <= minCount options)%Z ->
  let counted :=
    filter (fun d => negb (isReExport d) && str_eqb (keyFn d) k)
           declarations in
  let groups :=
    filterDuplicateGroups localeCompare
      (groupBy (effectiveDeclarations options declarations) keyFn)
      (minCount options) in
  (In k (List.map fst groups)
   <-> (minCount options <= Z.of_nat (length counted))%Z)
  /\ (forall members, In (k, members) groups -> members = counted).
Proof.
  intros Hs Hm counted groups. unfold groups, effectiveDeclarations.
  rewrite Hs. split.
  - rewrite in_map_iff. split.
    + intros ([k' v] & <- & H). apply grouping_entry in H as (_ & _ & H).
      cbn [fst]. now rewrite members_of_filter in H.
    + intros H. exists (k, counted). split; [reflexivity|].
      apply grouping_entry. rewrite members_of_filter.
      split; [reflexivity|]. split; [|exact H].
      apply members_of_nonempty. rewrite members_of_filter.
      fold counted. destruct counted; [cbn in H; lia|discriminate].
  - intros members H. apply grouping_entry in H as (-> & _).
    apply members_of_filter.
Qed.
End RunFacts.

(** X22.  With [skipReExports] on, as it is by default, re-exports count
    for nothing: a name (a fingerprint) is reported exactly when the
    declarations that are no re-export and bear it number [minCount] or
    more, and the group reported is those declarations, in the order
    they were collected. *)
Theorem reexports_are_not_counted
        (localeCompare : str -> str -> Z) (options : CliOptions)
        (declarations : list DeclarationRecord) (k : str) :
  skipReExports options = true ->
  (1 <= minCount options)%Z ->
  let named :=
    filter (fun d => negb (isReExport d) && str_eqb (name d) k)
           declarations in
  let shaped :=
    filter (fun d => negb (isReExport d) && str_eqb (normalizedShape d) k)
           declarations in
  (In k (List.map fst (nameGroups localeCompare options declarations))
   <-> (minCount options <= Z.of_nat (length named))%Z)
  /\ (forall members,
        In (k, members) (nameGroups localeCompare options declarations) ->
        members = named)
  /\ (In k (List.map fst (shapeGroups localeCompare options declarations))
      <-> (minCount options <= Z.of_nat (length shaped))%Z)
  /\ (forall members,
        In (k, members) (shapeGroups localeCompare options declarations) ->
        members = shaped).
Proof.
  intros Hs Hm named shaped.
  destruct (effective_groups localeCompare name options declarations k Hs Hm)
    as [N1 N2].
  destruct (effective_groups localeCompare normalizedShape options
              declarations k Hs Hm) as [S1 S2].
  repeat split; try apply N1; try apply S1; auto.
Qed.

Lemma reexports_are_not_counted_witness :
  let d := mkRecord (js "A") KType (js "a.ts") 1 [] [] false 0 [] in
  let r := mkRecord (js "A") KReexport (js "index.ts") 1 [] [] true 0 [] in
  skipReExports defaultOptions = true
  /\ (1 <= minCount defaultOptions)%Z
  /\ ~ In (js "A")
         (List.map fst (nameGroups codeUnitCompare defaultOptions [r; d; r])).
Proof.
  intros d r.
  assert (Hs : skipReExports defaultOptions = true) by reflexivity.
  assert (Hm : (1 <= minCount defaultOptions)%Z) by discriminate.
  split; [exact Hs|split; [exact Hm|]].
  intros H.
  apply (proj1 (proj1 (reexports_are_not_counted codeUnitCompare
                         defaultOptions [r; d; r] (js "A") Hs Hm))) in H.
  vm_compute in H. now apply H.
Defined.

Lemma groups_nonempty (localeCompare : str -> str -> Z)
      (keyFn : DeclarationRecord -> str) items minCount :
  (1 <= minCount)%Z ->
  filterDuplicateGroups localeCompare (groupBy items keyFn) minCount <> []
  <-> exists k,
        (minCount
         <= Z.of_nat (length (filter (fun d => str_eqb (keyFn d) k) items)))%Z.
Proof.
  intros Hm. split.
  - destruct (filterDuplicateGroups localeCompare (groupBy items keyFn)
                minCount) as [|[k v] l] eqn:E; [now intros []|].
    intros _. exists k.
    assert (H : In (k, v) (filterDuplicateGroups localeCompare
                             (groupBy items keyFn) minCount))
      by (rewrite E; now left).
    now apply grouping_entry in H as (_ & _ & H).
  - intros (k & H) E.
    assert (Hin : In (k, members_of keyFn k items)
                     (filterDuplicateGroups localeCompare
                        (groupBy items keyFn) minCount)).
    { apply grouping_entry. split; [reflexivity|]. split; [|exact H].
      apply members_of_nonempty. unfold members_of.
      destruct (filter _ items); [cbn in H; lia|discriminate]. }
    now rewrite E in Hin.
Qed.

(* ------------------------------------------------------------------ *)
(** ** cli.ts: the exit code *)
(* ------------------------------------------------------------------ *)

Lemma duplicates_found
      (localeCompare : str -> str -> Z) (options : CliOptions)
      (declarations : list DeclarationRecord) :
  failOnDuplicates options
  && (0 <? duplicateCount localeCompare options declarations) = true
  <-> failOnDuplicates options = true
      /\ ((wantsNames (mode options) = true
           /\ nameGroups localeCompare options declarations <> [])
          \/ (wantsShapes (mode options) = true
              /\ shapeGroups localeCompare options declarations <> [])).
Proof.
  unfold duplicateCount, wantsNames, wantsShapes.
  set (n := nameGroups localeCompare options declarations).
  set (s := shapeGroups localeCompare options declarations).
  assert (L : forall (A : Type) (l : list A), l <> [] <-> 0 < length l).
  { intros A [|x l]; cbn; split; (congruence || lia). }
  rewrite andb_true_iff, Nat.ltb_lt, !L.
  destruct (str_eqb (mode options) (js "name")
            || str_eqb (mode options) (js "both"));
    destruct (str_eqb (mode options) (js "shape")
              || str_eqb (mode options) (js "both"));
    split; intros [F H]; (split; [exact F|]); intuition (discriminate || lia).
Qed.

Section CliFacts.
Variable integerOf : str -> option Z.
Variable localeCompare : str -> str -> Z.
Variable resolve : str -> str.
Variable relativeOf : str -> str.
Variable isDirectory : str -> bool.
Variable getTypeFilesFromTsConfig : str -> outcome (list str).
Variable getTypeFilesFromDirectory : str -> list str -> outcome (list str).
Variable analyse : bool -> str -> outcome (list DeclarationRecord).
Variable stringify : ReportPayload.t -> str.
Variable writeFile : str -> str -> outcome unit.

Let discover :=
  discoverFiles resolve relativeOf isDirectory getTypeFilesFromTsConfig
                getTypeFilesFromDirectory.
Let report :=
  writeReport localeCompare resolve relativeOf stringify writeFile.
Let exit :=
  main integerOf localeCompare resolve relativeOf isDirectory
       getTypeFilesFromTsConfig getTypeFilesFromDirectory analyse
       stringify writeFile.

(** X23.  The exit code of the process is 0 or 1, whatever the arguments
    and the disk.  It is 1 when the arguments do not parse.  With
    [--help] it is 0, and nothing is done but printing the help.
    Otherwise it is 1 when the files cannot be listed and 0 when there
    are none; and when there are files, it is 1 exactly when writing the
    output file fails or [--fail-on-duplicates] is set and, in a mode
    that was asked for, some name (for [name] and [both]) or some
    fingerprint (for [shape] and [both]) is borne by [minCount] or more
    of the declarations that are counted.  Without an output file the
    output step cannot fail. *)
Theorem run_exit_code (argv : list str) :
  (exists w code, exit argv = Some (w, code) /\ (code = 0 \/ code = 1)%Z)
  /\ (forall e, parseArgs integerOf argv = Some (Throw e) ->
        exists w, exit argv = Some (w, 1%Z))
  /\ (forall options,
        parseArgs integerOf argv = Some (Return options) ->
        (help options = true ->
         exit argv = Some (logged printHelp Console.empty, 0%Z))
        /\ (help options = false ->
            (forall e, discover options = Throw e ->
                       exists w, exit argv = Some (w, 1%Z))
            /\ (forall fileSource,
                  discover options = Return ([], fileSource) ->
                  exists w, exit argv = Some (w, 0%Z))
            /\ (forall files fileSource declarations errors,
                  discover options = Return (files, fileSource) ->
                  files <> [] ->
                  collectAllDeclarations (analyse (includeEnums options))
                                         relativeOf files
                  = Some (declarations, errors) ->
                  let counted :=
                    effectiveDeclarations options declarations in
                  let written :=
                    report options files fileSource declarations errors
                           (reportErrors options errors Console.empty) in
                  (outputFile options = None -> snd written = Return tt)
                  /\ exists w code,
                       exit argv = Some (w, code)
                       /\ (code = 1%Z
                           <-> (exists e, snd written = Throw e)
                               \/ (failOnDuplicates options = true
                                   /\ ((wantsNames (mode options) = true
                                        /\ exists k,
                                             (minCount options
                                              <= Z.of_nat
                                                   (length
                                                      (filter
                                                         (fun d =>
                                                            str_eqb
                                                              (name d) k)
                                                         counted)))%Z)
                                       \/ (wantsShapes (mode options)
                                           = true
                                           /\ exists k,
                                                (minCount options
                                                 <= Z.of_nat
                                                      (length
                                                         (filter
                                                            (fun d =>
                                                               str_eqb
                                                                 (normalizedShape
                                                                    d) k)
                                                            counted)))%Z))))))).
Proof.
  assert (Collect : forall enums files,
             exists r,
               collectAllDeclarations (analyse enums) relativeOf files
               = Some r).
  { intros enums files. eexists. unfold collectAllDeclarations.
    apply collectAll_loop_spec. lia. }
  unfold exit, main, run.
  destruct (parseArgs integerOf argv) as [[options|e]|] eqn:P.
  2:{ split; [eauto|]. split; [eauto|]. intros options [=]. }
  2:{ exfalso. revert P. unfold parseArgs.
      apply parseArgs_loop_returns. lia. }
  assert (Hmin : (1 <= minCount options)%Z).
  { assert (U : usable options).
    { unfold parseArgs in P.
      apply (parseArgs_loop_usable integerOf argv _ _ _ _ P).
      apply defaultOptions_usable. }
    destruct U as (_ & _ & U & _). lia. }
  assert (Groups : forall declarations,
             failOnDuplicates options
             && (0 <? duplicateCount localeCompare options declarations)
             = true
             <-> failOnDuplicates options = true
                 /\ ((wantsNames (mode options) = true
                      /\ exists k,
                           (minCount options
                            <= Z.of_nat
                                 (length
                                    (filter
                                       (fun d => str_eqb (name d) k)
                                       (effectiveDeclarations options
                                          declarations))))%Z)
                     \/ (wantsShapes (mode options) = true
                         /\ exists k,
                              (minCount options
                               <= Z.of_nat
                                    (length
                                       (filter
                                          (fun d =>
                                             str_eqb (normalizedShape d) k)
                                          (effectiveDeclarations options
                                             declarations))))%Z))).
  { intros declarations. rewrite duplicates_found.
    unfold nameGroups, shapeGroups.
    now rewrite !(groups_nonempty localeCompare _ _ _ Hmin). }
  fold discover. fold report.
  split; [|split; [intros e [=]|]].
  - destruct (help options); [eauto|].
    destruct (discover options) as [[[|f files] fileSource]|e]; eauto.
    destruct (Collect (includeEnums options) (f :: files))
      as ([declarations errors] & ->).
    destruct (report _ _ _ _ _ _) as [w [[]|e]]; [|eauto].
    destruct (failOnDuplicates options && _); eauto.
  - intros o [= <-]. split.
    + intros ->. reflexivity.
    + intros ->. split; [|split].
      * intros e ->. eauto.
      * intros fileSource ->. eauto.
      * intros files fileSource declarations errors Hd Hfiles Hc.
        rewrite Hd. destruct files as [|f files]; [now destruct Hfiles|].
        rewrite Hc.
        set (written :=
               report options (f :: files) fileSource declarations errors
                      (reportErrors options errors Console.empty)).
        split.
        { intros Hout. unfold written, report, writeReport.
          rewrite Hout.
          destruct (str_eqb (format options) (js "json")); [reflexivity|].
          destruct (str_eqb (format options) (js "markdown"));
            reflexivity. }
        destruct written as [w [[]|e]]; cbn [snd].
        -- destruct (failOnDuplicates options && _) eqn:D;
             do 2 eexists; (split; [reflexivity|]).
           ++ split; [intros _; right; now apply Groups|reflexivity].
           ++ split; [discriminate|].
              intros [(e & [=])|H]. apply Groups in H. congruence.
        -- do 2 eexists. split; [reflexivity|].
           split; [intros _; left; eauto|reflexivity].
Qed.
End CliFacts.

Lemma run_exit_code_witness :
  let exit :=
    main integerOfDecimal codeUnitCompare (fun p => p) (fun p => p)
         (fun _ => true) (fun _ => Return [])
         (fun _ _ => Return [js "a.ts"; js "b.ts"])
         (fun _ file =>
            Return [mkRecord (js "A") KType file 1 [] [] false 0 []])
         (fun _ => []) (fun _ _ => Return tt) in
  let o := with_help (with_failOnDuplicates defaultOptions) in
  parseArgs integerOfDecimal [js "--fail-on-duplicates"; js "--help"]
  = Some (Return o)
  /\ help o = true
  /\ exit [js "--fail-on-duplicates"; js "--help"]
     = Some (logged printHelp Console.empty, 0%Z)
  /\ option_map snd (exit [js "--fail-on-duplicates"]) = Some 1%Z
  /\ option_map snd (exit [js "--fail-on-duplicates"; js "--min"; js "3"])
     = Some 0%Z.
Proof.
  intros exit o.
  assert (P : parseArgs integerOfDecimal
                [js "--fail-on-duplicates"; js "--help"]
              = Some (Return o)) by (vm_compute; reflexivity).
  assert (H : help o = true) by reflexivity.
  split; [exact P|]. split; [exact H|]. split.
  - exact (proj1 (proj2 (proj2
             (run_exit_code integerOfDecimal codeUnitCompare
                (fun p => p) (fun p => p) (fun _ => true)
                (fun _ => Return [])
                (fun _ _ => Return [js "a.ts"; js "b.ts"])
                (fun _ file =>
                   Return [mkRecord (js "A") KType file 1 [] [] false 0 []])
                (fun _ => []) (fun _ _ => Return tt)
                [js "--fail-on-duplicates"; js "--help"])) o P) H).
  - split; vm_compute; reflexivity.
Defined.

(* ------------------------------------------------------------------ *)
(** ** formatter.ts: the reports *)
(* ------------------------------------------------------------------ *)

Lemma mapDeclarations_length items :
  length (mapDeclarations items) = length items.
Proof. apply length_map. Qed.

Lemma Forall2_map_right (A B : Type) (R : A -> B -> Prop) (f : A -> B) l :
  (forall x, In x l -> R x (f x)) -> Forall2 R l (List.map f l).
Proof.
  induction l as [|x l IH]; intros H; cbn [List.map]; constructor.
  - apply H. now left.
  - apply IH. intros y Hy. apply H. now right.
Qed.

(** X24.  The JSON payload lists the groups it is given, one entry per
    group and in the same order: unless the mode is [shape], the entries
    of [duplicateNameGroups] are the name groups, each with its name, no
    shape, the number of its declarations as count and its declarations,
    field by field and in order; in mode [shape] there are none.  The
    same holds of [duplicateShapeGroups], the shape groups and mode
    [name].  The count of an entry is the number of declarations it
    lists; the root, mode, file source and totals are passed on; and the
    errors are listed when there are some, and left out otherwise. *)
Theorem buildJsonPayload_groups
        (nameGroups shapeGroups : list (str * list DeclarationRecord))
        (meta : ReportMeta.t) (root : str)
        (errors : option (list FileError.t)) (mode : str) :
  let payload :=
    buildJsonPayload nameGroups shapeGroups meta root errors mode in
  let names := ReportPayload.duplicateNameGroups payload in
  let shapes := ReportPayload.duplicateShapeGroups payload in
  let same (item : DeclarationRecord) (d : DuplicateDeclaration.t) :=
    DuplicateDeclaration.file d = file item
    /\ DuplicateDeclaration.line d = line item
    /\ DuplicateDeclaration.kind d = kind item
    /\ DuplicateDeclaration.name d = name item
    /\ DuplicateDeclaration.snippet d = snippet item
    /\ DuplicateDeclaration.isReExport d = isReExport item in
  let listed (key other : DuplicateGroup.t -> option str)
             (group : str * list DeclarationRecord)
             (entry : DuplicateGroup.t) :=
    key entry = Some (fst group) /\ other entry = None
    /\ DuplicateGroup.count entry = length (snd group)
    /\ Forall2 same (snd group) (DuplicateGroup.declarations entry) in
  (mode = js "shape" -> names = [])
  /\ (mode <> js "shape" ->
      Forall2 (listed DuplicateGroup.name DuplicateGroup.shape)
              nameGroups names)
  /\ (mode = js "name" -> shapes = [])
  /\ (mode <> js "name" ->
      Forall2 (listed DuplicateGroup.shape DuplicateGroup.name)
              shapeGroups shapes)
  /\ Forall (fun entry => DuplicateGroup.count entry
                          = length (DuplicateGroup.declarations entry))
            (names ++ shapes)
  /\ (ReportPayload.root payload = root
      /\ ReportPayload.mode payload = mode
      /\ ReportPayload.fileSource payload = ReportMeta.fileSource meta
      /\ ReportPayload.filesScanned payload = ReportMeta.filesScanned meta
      /\ ReportPayload.declarationsScanned payload
         = ReportMeta.declarationsScanned meta)
  /\ (forall e es, errors = Some (e :: es) ->
                   ReportPayload.errors payload = Some (e :: es))
  /\ (errors = None \/ errors = Some [] ->
      ReportPayload.errors payload = None).
Proof.
  intros payload names shapes same listed.
  unfold names, shapes, payload.
  cbn [buildJsonPayload ReportPayload.duplicateNameGroups
         ReportPayload.duplicateShapeGroups ReportPayload.errors
         ReportPayload.root ReportPayload.mode ReportPayload.fileSource
         ReportPayload.filesScanned ReportPayload.declarationsScanned].
  assert (D : forall items, Forall2 same items (mapDeclarations items)).
  { intros items. apply Forall2_map_right. intros item _.
    unfold same. cbn. repeat split. }
  assert (C : forall (f : str * list DeclarationRecord -> DuplicateGroup.t) l,
             (forall g, DuplicateGroup.count (f g)
                        = length (DuplicateGroup.declarations (f g))) ->
             Forall (fun g => DuplicateGroup.count g
                              = length (DuplicateGroup.declarations g))
                    (List.map f l)).
  { intros f l H. apply Forall_forall. intros g Hg.
    apply in_map_iff in Hg as (x & <- & _). apply H. }
  split; [|split; [|split; [|split; [|split; [|split; [|split]]]]]].
  - intros ->. reflexivity.
  - intros Hm. apply str_eqb_neq in Hm. rewrite Hm.
    apply Forall2_map_right. intros g _. unfold listed. cbn.
    repeat split. apply D.
  - intros ->. reflexivity.
  - intros Hm. apply str_eqb_neq in Hm. rewrite Hm.
    apply Forall2_map_right. intros g _. unfold listed. cbn.
    repeat split. apply D.
  - apply Forall_app. split.
    + destruct (str_eqb mode (js "shape")); [constructor|].
      apply C. intros g. cbn. now rewrite mapDeclarations_length.
    + destruct (str_eqb mode (js "name")); [constructor|].
      apply C. intros g. cbn. now rewrite mapDeclarations_length.
  - repeat split.
  - intros e es ->. reflexivity.
  - intros [->| ->]; reflexivity.
Qed.

Lemma fold_console_log (A : Type) (f : A -> str) (l : list A) written :
  fold_left (fun written item => console_log (f item) written) l written
  = written ++ List.map f l.
Proof.
  revert written. induction l as [|x l IH]; intros written.
  - now rewrite app_nil_r.
  - cbn [fold_left List.map]. rewrite IH. unfold console_log.
    now rewrite <- app_assoc.
Qed.

Lemma printShapeGroups_spec groups :
  forall shapeIndex written,
    snd (fold_left printShapeGroup groups (shapeIndex, written))
    = written ++ renderShapeGroups shapeIndex groups.
Proof.
  induction groups as [|[k items] groups IH]; intros shapeIndex written.
  - cbn. now rewrite app_nil_r.
  - cbn [fold_left renderShapeGroups].
    assert (E : printShapeGroup (shapeIndex, written) (k, items)
                = (shapeIndex + 1,
                   written ++ shapeGroupLine (shapeIndex + 1) items
                   :: List.map shapeItemLine items ++ previewLine items)).
    { unfold printShapeGroup. cbn [fst snd].
      rewrite fold_console_log. unfold console_log, previewLine.
      destruct items as [|r items]; f_equal;
        repeat first [rewrite <- app_assoc | rewrite <- app_comm_cons
                     | rewrite app_nil_r];
        reflexivity. }
    rewrite E, IH. flatten.
Qed.

(** X25.  What [printNameReport] and [printShapeReport] write to the
    console is, line for line, what [renderNameReport] and
    [renderShapeReport] return. *)
Theorem print_writes_what_render_returns
        (groups : list (str * list DeclarationRecord))
        (written : list str) :
  printNameReport groups written = written ++ renderNameReport groups
  /\ printShapeReport groups written = written ++ renderShapeReport groups.
Proof.
  split.
  - unfold printNameReport, renderNameReport.
    assert (G : forall l w,
               fold_left
                 (fun written group =>
                    fold_left (fun written item =>
                                 console_log (nameItemLine item) written)
                              (snd group)
                              (console_log (nameGroupLine group) written))
                 l w
               = w ++ flat_map
                        (fun group => nameGroupLine group
                                      :: List.map nameItemLine (snd group))
                        l).
    { induction l as [|x l IH]; intros w; cbn [fold_left flat_map];
        [now rewrite app_nil_r|].
      rewrite IH, fold_console_log. unfold console_log. flatten. }
    destruct groups as [|g groups]; [unfold console_log; flatten|].
    rewrite G. unfold console_log. flatten.
  - unfold printShapeReport, renderShapeReport.
    destruct groups as [|g groups]; [unfold console_log; flatten|].
    rewrite printShapeGroups_spec. unfold console_log. flatten.
Qed.

Lemma padEnd_length s n : length (padEnd s n) = Nat.max (length s) n.
Proof. unfold padEnd. rewrite length_app, repeat_length. lia. Qed.

Lemma skipn_past (x y : str) k : skipn (length x + k) (x ++ y) = skipn k y.
Proof.
  now rewrite Nat.add_comm, <- skipn_skipn, skipn_length_app.
Qed.

(** X26.  The columns of the text report line up: no kind is longer than
    nine characters, so in every item line the place ([file:line]) starts
    at the same column, in the shape report as long as the name has 24
    characters or fewer; a longer name pushes it to the right. *)
Theorem text_report_columns (item : DeclarationRecord) :
  skipn 15 (nameItemLine item)
  = file item ++ js ":" ++ numberToString (line item)
  /\ skipn (17 + Nat.max (length (name item)) 24) (shapeItemLine item)
     = file item ++ js ":" ++ numberToString (line item)
  /\ length (padEnd (kindText (kind item)) 9) = 9.
Proof.
  assert (K : length (padEnd (kindText (kind item)) 9) = 9)
    by now destruct (kind item).
  split; [|split; [|exact K]].
  - unfold nameItemLine.
    replace 15
      with (length (js "    ")
            + (length (padEnd (kindText (kind item)) 9)
               + (length (js "  ") + 0)))
      by (rewrite K; reflexivity).
    now rewrite !skipn_past.
  - unfold shapeItemLine.
    replace (17 + Nat.max (length (name item)) 24)
      with (length (js "    ")
            + (length (padEnd (kindText (kind item)) 9)
               + (length (js "  ")
                  + (length (padEnd (name item) 24)
                     + (length (js "  ") + 0)))))
      by (rewrite K, padEnd_length; cbn; lia).
    now rewrite !skipn_past.
Qed.

(* ------------------------------------------------------------------ *)
(** ** [normalizeShape]: keywords in front of a declaration *)
(* ------------------------------------------------------------------ *)

Lemma collapse_true_head t : opt_space (hd_error (collapse true t)) = false.
Proof.
  induction t as [|c t IH]; [reflexivity|]. cbn [collapse].
  destruct (is_space c) eqn:E; [exact IH|exact E].
Qed.

Lemma collapse_true_trim y : collapse true y = trimStart (collapse false y).
Proof.
  destruct y as [|c t]; [reflexivity|]. cbn [collapse].
  destruct (is_space c) eqn:E; cbn [app trimStart].
  - change (is_space SPACE) with true. cbn iota.
    symmetry. apply trimStart_fixed, collapse_true_head.
  - now rewrite E.
Qed.

Lemma trimEnd_cons c z : trimEnd z <> [] -> trimEnd (c :: z) = c :: trimEnd z.
Proof.
  intros H. destruct (trimEnd_split z) as (w & E & Hw).
  pose proof (trimEnd_last z) as L.
  destruct (trimEnd z) as [|d u] using rev_ind; [now destruct H|].
  clear IHu. rewrite last_opt_snoc in L. cbn [opt_space] in L.
  rewrite E at 1.
  change (c :: (u ++ [d]) ++ w) with (((c :: u) ++ [d]) ++ w).
  rewrite (trimEnd_behind (c :: u) d w L).
  replace (trimEnd w) with (@nil char); [now rewrite app_nil_r|].
  symmetry. unfold trimEnd.
  assert (F : Forall (fun c => is_space c = true) (rev w))
    by (apply Forall_rev; exact Hw).
  induction F as [|x l Hx _ IH]; [reflexivity|]. cbn [trimStart].
  now rewrite Hx.
Qed.

Lemma normalizeWhitespace_export s :
  normalizeWhitespace s <> [] ->
  normalizeWhitespace (js "export " ++ s)
  = js "export " ++ normalizeWhitespace s.
Proof.
  intros H.
  change (js "export " ++ s) with (js "export" ++ SPACE :: s).
  rewrite (normalizeWhitespace_behind (js "export") (js "expor") 116%N);
    try reflexivity; [|repeat constructor; discriminate].
  change (js "export " ++ normalizeWhitespace s)
    with (js "export" ++ SPACE :: normalizeWhitespace s).
  f_equal. unfold tail_normalized.
  rewrite stripBlock_unit, stripLine_unit by discriminate.
  rewrite normalizeWhitespace_eq in *. unfold trim in *.
  cbn [collapse]. change (is_space SPACE) with true. cbn iota. cbn [app].
  rewrite collapse_true_trim. now apply trimEnd_cons.
Qed.

(** The matchers that start with [\b] look at the code unit before only
    to tell a word from a non-word. *)
Lemma re_whole_word_prev n p q s :
  n <> [] -> opt_word p = opt_word q ->
  re_whole_word n p s = re_whole_word n q s.
Proof.
  intros Hn E. unfold re_whole_word, word_boundary. rewrite E.
  destruct n as [|c n]; [now destruct Hn|].
  now rewrite (last_opt_cons p q c n).
Qed.

Lemma replaceAll_from_prev m r p q s :
  m p s = m q s -> replaceAll_from m r p 0 s = replaceAll_from m r q 0 s.
Proof. intros E. destruct s as [|c t]; cbn [replaceAll_from]; now rewrite E. Qed.

Lemma replaceFirst_from_prev m r p q s :
  m p s = m q s -> replaceFirst_from m r p s = replaceFirst_from m r q s.
Proof. intros E. destruct s as [|c t]; cbn [replaceFirst_from]; now rewrite E. Qed.

Lemma replaceFirst_from_match m r p s k :
  m p s = Some k -> replaceFirst_from m r p s = r ++ skipn k s.
Proof. intros E. destruct s; cbn [replaceFirst_from]; now rewrite E. Qed.

Lemma re_interface_prev p q s :
  opt_word p = opt_word q -> re_interface p s = re_interface q s.
Proof. intros E. unfold re_interface, word_boundary. now rewrite E. Qed.

Lemma re_const_enum_prev p q s :
  opt_word p = opt_word q -> re_const_enum p s = re_const_enum q s.
Proof. intros E. unfold re_const_enum, word_boundary. now rewrite E. Qed.

Lemma re_export_behind r c s : replaceFirst_from re_export r (Some c) s = s.
Proof.
  revert c. induction s as [|d s IH]; intros c; [reflexivity|].
  cbn. f_equal. apply IH.
Qed.

(** Without the word [export] at its start the export pass finds
    nothing. *)
Lemma no_export_no_strip r s :
  ~ In (js "export") (words s) -> replaceFirst re_export r s = s.
Proof.
  intros Hno. unfold replaceFirst.
  destruct (replaceFirst_from_spec re_export r None s)
    as [H|(a & b & k & -> & Hm & _)]; [exact H|].
  exfalso. apply Hno.
  apply re_export_shape in Hm as (Hp & w & E & Hne & Hw).
  apply last_opt_None_nil in Hp. subst a. cbn [app]. rewrite E.
  rewrite words_run; [now left|split; [discriminate|repeat constructor]|].
  destruct Hw as [|c w Hc _]; [congruence|].
  simpl. now apply is_space_not_word.
Qed.

Lemma no_const_no_rewrite r s :
  ~ In (js "const") (words s) -> replaceFirst re_const_enum r s = s.
Proof.
  intros Hno. unfold replaceFirst.
  destruct (replaceFirst_from_spec re_const_enum r None s)
    as [H|(a & b & k & -> & Hm & _)]; [exact H|].
  exfalso. apply Hno.
  apply re_const_enum_shape in Hm as (Hp & w & E & Hne & Hw & _).
  apply words_suffix; [left; exact Hp|]. rewrite E.
  rewrite words_run; [now left|split; [discriminate|repeat constructor]|].
  destruct Hw as [|c w Hc _]; [congruence|].
  simpl. now apply is_space_not_word.
Qed.

Lemma words_trimStart s w : In w (words (trimStart s)) -> In w (words s).
Proof.
  destruct (trimStart_split s) as (sp & E & Hsp). intros H.
  rewrite E. apply words_suffix; [|exact H].
  left. destruct sp as [|c sp]; [reflexivity|].
  now apply last_opt_space.
Qed.

Lemma words_normalizeWhitespace s w :
  In w (words (normalizeWhitespace s)) -> In w (words s).
Proof.
  rewrite normalizeWhitespace_eq. unfold trim. intros H.
  apply words_trimEnd, words_trimStart in H.
  unfold words in H. rewrite words_from_collapse in H by discriminate.
  now apply words_stripBlock, words_stripLine.
Qed.

(** The words of the text behind the name and interface passes. *)
Lemma words_rewritten n s w :
  wordy n ->
  In w (words (replaceFirst re_interface (js "type __NAME__ = {")
                 (replaceAll (namedPattern n) PLACEHOLDER
                    (normalizeWhitespace s)))) ->
  w = js "type" \/ w = PLACEHOLDER \/ (w <> n /\ In w (words s)).
Proof.
  intros Hn H. apply words_interface_rewrite in H as [H|[H|H]]; auto.
  rewrite (words_replace_name n Hn) in H.
  apply in_map_iff in H as (v & E & Hv).
  destruct (str_eqb v n) eqn:F; [auto|].
  right. right. subst v. split; [now apply str_eqb_neq|].
  now apply words_normalizeWhitespace.
Qed.

Lemma replaceAll_head n p t :
  wordy n ->
  opt_space (hd_error t) = false ->
  opt_space (hd_error (replaceAll_from (re_whole_word n) PLACEHOLDER p 0 t))
  = false.
Proof.
  intros Hn H. destruct t as [|c t]; cbn [replaceAll_from].
  - destruct (re_whole_word n p []) as [[|k]|]; reflexivity.
  - destruct (re_whole_word n p (c :: t)) as [[|k]|]; try reflexivity.
    exact H.
Qed.

Lemma replaceFirst_head m r p t :
  opt_space (hd_error r) = false -> r <> [] ->
  opt_space (hd_error t) = false ->
  opt_space (hd_error (replaceFirst_from m r p t)) = false.
Proof.
  intros Hr Hne H. destruct t as [|c t]; cbn [replaceFirst_from].
  - destruct (m p []); [|reflexivity].
    destruct r; [now destruct Hne|exact Hr].
  - destruct (m p (c :: t)); [|exact H].
    destruct r; [now destruct Hne|exact Hr].
Qed.

(** X27.  The [export] keyword in front of a declaration does not change
    its fingerprint: for a name of letters, digits and underscores other
    than [export], and a snippet that is not blank and does not hold the
    word [export] itself, [export <snippet>] and [<snippet>] have the
    same fingerprint. *)
Theorem export_keyword_is_ignored (s n : str) :
  wordy n -> n <> js "export" ->
  ~ In (js "export") (words s) ->
  normalizeWhitespace s <> [] ->
  normalizeShape (js "export " ++ s) n = normalizeShape s n.
Proof.
  intros Hn Hne Hno Hs. unfold normalizeShape.
  rewrite (normalizeWhitespace_export s Hs).
  set (c := normalizeWhitespace s).
  assert (Hc : opt_space (hd_error c) = false)
    by apply trimEnd_head, trimStart_head.
  (* the name *)
  assert (E1 : replaceAll (namedPattern n) PLACEHOLDER (js "export " ++ c)
               = js "export "
                 ++ replaceAll (namedPattern n) PLACEHOLDER c).
  { rewrite namedPattern_eq. unfold replaceAll.
    change (js "export " ++ c) with (js "export" ++ SPACE :: c).
    rewrite (R_run n Hn None (js "export"));
      [|reflexivity|split; [discriminate|repeat constructor]|reflexivity].
    destruct (str_eqb (js "export") n) eqn:E;
      [apply str_eqb_eq in E; congruence|].
    rewrite (R_nonword n Hn) by reflexivity.
    change (js "export " ++ ?x) with (js "export" ++ SPACE :: x).
    do 2 f_equal. apply replaceAll_from_prev, re_whole_word_prev;
      [apply Hn|reflexivity]. }
  rewrite E1.
  set (d := replaceAll (namedPattern n) PLACEHOLDER c).
  assert (Hd : opt_space (hd_error d) = false).
  { unfold d. rewrite namedPattern_eq. now apply replaceAll_head. }
  (* the interface rewrite *)
  assert (E2 : replaceFirst re_interface (js "type __NAME__ = {")
                 (js "export " ++ d)
               = js "export "
                 ++ replaceFirst re_interface (js "type __NAME__ = {") d).
  { change (replaceFirst re_interface (js "type __NAME__ = {")
              (js "export " ++ d))
      with (js "export "
            ++ replaceFirst_from re_interface (js "type __NAME__ = {")
                 (Some SPACE) d).
    f_equal. apply replaceFirst_from_prev, re_interface_prev. reflexivity. }
  rewrite E2.
  set (e := replaceFirst re_interface (js "type __NAME__ = {") d).
  assert (He : opt_space (hd_error e) = false).
  { unfold e, replaceFirst. apply replaceFirst_head;
      [reflexivity|discriminate|exact Hd]. }
  (* the export pass *)
  assert (E3 : replaceFirst re_export [] (js "export " ++ e) = e).
  { unfold replaceFirst.
    assert (M : re_export None (js "export " ++ e) = Some 7).
    { unfold re_export.
      change (starts_with (js "export") (js "export " ++ e)) with true.
      change (skipn 6 (js "export " ++ e)) with (SPACE :: e).
      cbn [span_len]. change (is_space SPACE) with true. cbn iota.
      destruct e as [|x e']; [reflexivity|].
      cbn [span_len]. cbn [hd_error opt_space] in He. now rewrite He. }
    now rewrite (replaceFirst_from_match _ _ _ _ _ M). }
  assert (E4 : replaceFirst re_export [] e = e).
  { apply no_export_no_strip. intros H.
    apply (words_rewritten n s _ Hn) in H as [H|[H|[_ H]]];
      [discriminate|discriminate|now apply Hno]. }
  now rewrite E3, E4.
Qed.

Lemma export_keyword_is_ignored_witness :
  let s := js "interface Foo { bar: string; }" in
  wordy (js "Foo") /\ js "Foo" <> js "export"
  /\ ~ In (js "export") (words s)
  /\ normalizeWhitespace s <> []
  /\ normalizeShape (js "export " ++ s) (js "Foo")
     = normalizeShape s (js "Foo").
Proof.
  intros s.
  assert (H1 : wordy (js "Foo")) by (split; [discriminate|repeat constructor]).
  assert (H2 : js "Foo" <> js "export") by discriminate.
  assert (H3 : ~ In (js "export") (words s)).
  { vm_compute. intros H. repeat (destruct H as [H|H]; [discriminate|]).
    exact H. }
  assert (H4 : normalizeWhitespace s <> []) by (vm_compute; discriminate).
  split; [exact H1|split; [exact H2|split; [exact H3|split; [exact H4|]]]].
  exact (export_keyword_is_ignored s (js "Foo") H1 H2 H3 H4).
Defined.

Lemma re_export_none r s :
  re_export None s = None -> replaceFirst re_export r s = s.
Proof.
  intros E. unfold replaceFirst. destruct s as [|c t]; cbn [replaceFirst_from];
    rewrite E; [reflexivity|]. f_equal. apply re_export_behind.
Qed.

Section ConstEnum.
Variable n : str.
Hypothesis n_wordy : wordy n.

Lemma normalizeWhitespace_const_enum body :
  normalizeWhitespace (js "const enum " ++ n ++ js " {" ++ body)
  = js "const enum " ++ n ++ js " {" ++ tail_normalized body.
Proof.
  pose proof (normalizeWhitespace_behind
                (js "const enum " ++ n ++ js " {")
                (js "const enum " ++ n ++ js " ") 123%N body) as H.
  rewrite <- !app_assoc in H. apply H; clear H.
  - reflexivity.
  - reflexivity.
  - repeat (apply Forall_app; split);
      [repeat constructor; discriminate|now apply n_no_slash|
        repeat constructor; discriminate].
  - intros y. rewrite <- !app_assoc.
    change (collapse false (js "const enum " ++ n ++ js " {" ++ y))
      with (js "const enum " ++ collapse true (n ++ js " {" ++ y)).
    rewrite collapse_nonspace by (apply n_wordy || now apply n_no_space).
    reflexivity.
  - reflexivity.
Qed.

Lemma normalizeWhitespace_enum body :
  normalizeWhitespace (js "enum " ++ n ++ js " {" ++ body)
  = js "enum " ++ n ++ js " {" ++ tail_normalized body.
Proof.
  pose proof (normalizeWhitespace_behind
                (js "enum " ++ n ++ js " {")
                (js "enum " ++ n ++ js " ") 123%N body) as H.
  rewrite <- !app_assoc in H. apply H; clear H.
  - reflexivity.
  - reflexivity.
  - repeat (apply Forall_app; split);
      [repeat constructor; discriminate|now apply n_no_slash|
        repeat constructor; discriminate].
  - intros y. rewrite <- !app_assoc.
    change (collapse false (js "enum " ++ n ++ js " {" ++ y))
      with (js "enum " ++ collapse true (n ++ js " {" ++ y)).
    rewrite collapse_nonspace by (apply n_wordy || now apply n_no_space).
    reflexivity.
  - reflexivity.
Qed.

Lemma replace_name_enum b :
  n <> js "enum" ->
  replaceAll (namedPattern n) PLACEHOLDER (js "enum " ++ n ++ js " {" ++ b)
  = js "enum __NAME__ {" ++ replaceAll (namedPattern n) PLACEHOLDER b.
Proof.
  intros Hne. rewrite namedPattern_eq. unfold replaceAll.
  change (js "enum " ++ n ++ js " {" ++ b)
    with (js "enum" ++ SPACE :: n ++ SPACE :: 123%N :: b).
  rewrite (R_run n n_wordy None (js "enum"));
    [|reflexivity|split; [discriminate|repeat constructor]|reflexivity].
  destruct (str_eqb (js "enum") n) eqn:E;
    [apply str_eqb_eq in E; congruence|].
  rewrite (R_nonword n n_wordy) by reflexivity.
  rewrite (R_run n n_wordy (Some SPACE) n);
    [|reflexivity|assumption|reflexivity].
  rewrite str_eqb_refl.
  rewrite !(R_nonword n n_wordy) by reflexivity.
  change (js "enum __NAME__ {" ++ ?x)
    with (js "enum" ++ SPACE :: PLACEHOLDER ++ SPACE :: 123%N :: x).
  do 5 f_equal. apply replaceAll_from_prev, re_whole_word_prev;
    [apply n_wordy|reflexivity].
Qed.

Lemma replace_name_const_enum b :
  n <> js "const" -> n <> js "enum" ->
  replaceAll (namedPattern n) PLACEHOLDER
    (js "const enum " ++ n ++ js " {" ++ b)
  = js "const enum __NAME__ {" ++ replaceAll (namedPattern n) PLACEHOLDER b.
Proof.
  intros Hc He.
  pose proof (replace_name_enum b He) as H.
  rewrite namedPattern_eq in *. unfold replaceAll in *.
  change (js "const enum " ++ n ++ js " {" ++ b)
    with (js "const" ++ SPACE :: js "enum " ++ n ++ js " {" ++ b).
  rewrite (R_run n n_wordy None (js "const"));
    [|reflexivity|split; [discriminate|repeat constructor]|reflexivity].
  destruct (str_eqb (js "const") n) eqn:E;
    [apply str_eqb_eq in E; congruence|].
  rewrite (R_nonword n n_wordy) by reflexivity.
  rewrite (replaceAll_from_prev _ _ (Some SPACE) None)
    by (apply re_whole_word_prev; [apply n_wordy|reflexivity]).
  now rewrite H.
Qed.
End ConstEnum.

(** X28.  [const enum] and [enum] give the same fingerprint: for a name
    of letters, digits and underscores other than [const] and [enum], and
    a body without the word [const], [const enum N {body] and
    [enum N {body] agree. *)
Theorem const_enum_is_enum (n body : str) :
  wordy n -> n <> js "const" -> n <> js "enum" ->
  ~ In (js "const") (words body) ->
  normalizeShape (js "const enum " ++ n ++ js " {" ++ body) n
  = normalizeShape (js "enum " ++ n ++ js " {" ++ body) n.
Proof.
  intros Hn Hc He Hbody. unfold normalizeShape.
  rewrite (normalizeWhitespace_const_enum n Hn).
  rewrite (normalizeWhitespace_enum n Hn).
  rewrite (replace_name_const_enum n Hn) by assumption.
  rewrite (replace_name_enum n Hn) by assumption.
  set (b := replaceAll (namedPattern n) PLACEHOLDER (tail_normalized body)).
  set (z := replaceFirst re_interface (js "type __NAME__ = {") b).
  assert (Z : replaceFirst_from re_interface (js "type __NAME__ = {")
                (Some 123%N) b = z)
    by (apply replaceFirst_from_prev, re_interface_prev; reflexivity).
  assert (H1 : replaceFirst re_interface (js "type __NAME__ = {")
                 (js "const enum __NAME__ {" ++ b)
               = js "const enum __NAME__ {" ++ z)
    by (rewrite <- Z; reflexivity).
  assert (H2 : replaceFirst re_interface (js "type __NAME__ = {")
                 (js "enum __NAME__ {" ++ b)
               = js "enum __NAME__ {" ++ z)
    by (rewrite <- Z; reflexivity).
  rewrite H1, H2.
  rewrite (re_export_none [] (js "const enum __NAME__ {" ++ z))
    by reflexivity.
  rewrite (re_export_none [] (js "enum __NAME__ {" ++ z)) by reflexivity.
  assert (H3 : replaceFirst re_const_enum (js "enum")
                 (js "const enum __NAME__ {" ++ z)
               = js "enum __NAME__ {" ++ z) by reflexivity.
  assert (H4 : replaceFirst re_const_enum (js "enum")
                 (js "enum __NAME__ {" ++ z)
               = js "enum __NAME__ {" ++ z).
  { apply no_const_no_rewrite.
    change (js "enum __NAME__ {" ++ z)
      with ((js "enum __NAME__ " ++ [123%N]) ++ z).
    rewrite words_app by (left; now rewrite last_opt_snoc).
    intros H. apply in_app_iff in H as [H|H].
    - vm_compute in H. destruct H as [H|[H|[]]]; discriminate.
    - unfold z in H. apply words_interface_rewrite in H as [H|[H|H]];
        try discriminate.
      unfold b in H. rewrite (words_replace_name n Hn) in H.
      apply in_map_iff in H as (w & Hw & Hin).
      apply Hbody. apply words_tail_normalized.
      destruct (str_eqb w n); [discriminate|]. now subst w. }
  now rewrite H3, H4.
Qed.

Lemma const_enum_is_enum_witness :
  let n := js "Color" in
  let body := js " Red = 1, Green = 2 }" in
  wordy n /\ n <> js "const" /\ n <> js "enum"
  /\ ~ In (js "const") (words body)
  /\ normalizeShape (js "const enum " ++ n ++ js " {" ++ body) n
     = normalizeShape (js "enum " ++ n ++ js " {" ++ body) n.
Proof.
  intros n body.
  assert (H1 : wordy n) by (split; [discriminate|repeat constructor]).
  assert (H2 : n <> js "const") by discriminate.
  assert (H3 : n <> js "enum") by discriminate.
  assert (H4 : ~ In (js "const") (words body)).
  { vm_compute. intros H. repeat (destruct H as [H|H]; [discriminate|]).
    exact H. }
  split; [exact H1|split; [exact H2|split; [exact H3|split; [exact H4|]]]].
  exact (const_enum_is_enum n body H1 H2 H3 H4).
Defined.

(** X29.  The fingerprint depends on the compact form of the snippet
    only, so a display snippet that was not cut gives it back: when the
    compact form fits the bound, the fingerprint of [formatSnippet] of a
    snippet is the fingerprint of the snippet. *)
Theorem fingerprint_from_display_snippet
        (rawSnippet n : str) (maxLength : Z) :
  (Z.of_nat (length (normalizeWhitespace rawSnippet)) <= maxLength)%Z ->
  normalizeShape (formatSnippet rawSnippet maxLength) n
  = normalizeShape rawSnippet n
  /\ normalizeShape (normalizeWhitespace rawSnippet) n
     = normalizeShape rawSnippet n.
Proof.
  intros L.
  destruct (normalizeWhitespace_quiet rawSnippet) as (Hb & Hl & Hc).
  assert (E : normalizeWhitespace (normalizeWhitespace rawSnippet)
              = normalizeWhitespace rawSnippet).
  { apply normalizeWhitespace_fixed; try assumption.
    - apply trimEnd_head, trimStart_head.
    - apply trimEnd_last. }
  assert (F : normalizeShape (normalizeWhitespace rawSnippet) n
              = normalizeShape rawSnippet n)
    by (unfold normalizeShape; now rewrite E).
  split; [|exact F].
  unfold formatSnippet. now apply Z.leb_le in L as ->.
Qed.

Lemma fingerprint_from_display_snippet_witness :
  (Z.of_nat (length (normalizeWhitespace multilineInterface))
   <= MAX_SNIPPET_LENGTH)%Z
  /\ normalizeShape (formatSnippet multilineInterface MAX_SNIPPET_LENGTH)
                    (js "Foo")
     = normalizeShape multilineInterface (js "Foo").
Proof.
  assert (L : (Z.of_nat (length (normalizeWhitespace multilineInterface))
               <= MAX_SNIPPET_LENGTH)%Z) by (vm_compute; discriminate).
  split; [exact L|].
  exact (proj1 (fingerprint_from_display_snippet multilineInterface
                  (js "Foo") MAX_SNIPPET_LENGTH L)).
Defined.

(* ------------------------------------------------------------------ *)
(** ** [normalizeShape]: the semicolon at the end *)
(* ------------------------------------------------------------------ *)

(** A semicolon behind a snippet stays at the end of the compact form,
    with at most white space before it. *)
Lemma normalizeWhitespace_semicolon s :
  settled s ->
  exists w,
    Forall (fun c => is_space c = true) w
    /\ normalizeWhitespace (s ++ [59%N : char]) = normalizeWhitespace s ++ w ++ [59%N : char].
Proof.
  intros Hs. destruct (strip_text _ s Hs) as (sb & s' & Hb & Hl & _).
  rewrite !normalizeWhitespace_eq.
  pose proof (Hb []) as Hb0. pose proof (Hl []) as Hl0.
  rewrite app_nil_r in Hb0, Hl0.
  change (stripBlock []) with (@nil char) in Hb0.
  change (stripLine []) with (@nil char) in Hl0.
  rewrite app_nil_r in Hb0, Hl0. rewrite Hb0, Hl0, Hb.
  rewrite (stripBlock_unit 59%N []) by discriminate.
  change (stripBlock []) with (@nil char). rewrite Hl.
  rewrite (stripLine_unit 59%N []) by discriminate.
  change (stripLine []) with (@nil char).
  rewrite collapse_app.
  assert (E : collapse (ends_space false s') [59%N : char] = [59%N : char])
    by now destruct (ends_space false s').
  rewrite E. unfold trim.
  rewrite (trimStart_app_nonspace (collapse false s') 59%N [])
    by reflexivity.
  set (y := trimStart (collapse false s')).
  destruct (trimEnd_split y) as (w & Ew & Hw).
  exists w. split; [exact Hw|].
  transitivity (trimEnd (((trimEnd y ++ w) ++ [59%N : char]) ++ [])).
  { now rewrite app_nil_r, <- Ew. }
  rewrite trimEnd_behind by reflexivity.
  change (trimEnd []) with (@nil char).
  now rewrite app_nil_r, <- app_assoc.
Qed.

Section Suffix.
Variable n : str.
Hypothesis n_wordy : wordy n.

Let R := replaceAll_from (re_whole_word n) PLACEHOLDER.

(** What matters of the code unit at the end of a text: which one it
    is, or no more than that it is a word code unit. *)
Let key (o : option char) : option char :=
  match o with
  | Some c => if is_word c then Some 95%N else Some c
  | None => None
  end.

Lemma R_nonwords p x :
  Forall (fun c => is_word c = false) x -> R p 0 x = x.
Proof.
  intros H. revert p. induction H as [|c x Hc _ IH]; intros p.
  - apply (R_nil n n_wordy).
  - unfold R. rewrite (R_nonword n n_wordy) by exact Hc. f_equal. apply IH.
Qed.

(** The name pass leaves a tail without word code units alone, and what
    is before it does not see the tail. *)
Lemma R_append x :
  Forall (fun c => is_word c = false) x ->
  forall len s p,
    length s <= len ->
    opt_word p = false \/ opt_word (hd_error s) = false ->
    R p 0 (s ++ x) = R p 0 s ++ x.
Proof.
  intros Hx. induction len as [|len IH]; intros s p Hlen Hstart.
  - destruct s; [|cbn in Hlen; lia]. cbn [app].
    unfold R. rewrite (R_nil n n_wordy). now apply R_nonwords.
  - destruct s as [|c s].
    { cbn [app]. unfold R. rewrite (R_nil n n_wordy). now apply R_nonwords. }
    destruct (is_word c) eqn:Hc.
    + destruct Hstart as [Hp|Hs]; [|cbn in Hs; congruence].
      destruct (word_span (c :: s)) as (w & t & E & Hw & Ht).
      assert (Hwne : w <> []).
      { intros ->. cbn in E. subst t. cbn in Ht. congruence. }
      assert (Hlt : length t <= len).
      { apply (f_equal (@length _)) in E. rewrite length_app in E.
        cbn [length] in *. destruct w; [congruence|]. cbn [length] in E.
        lia. }
      rewrite E, <- app_assoc. unfold R.
      rewrite (R_run n n_wordy p w (t ++ x) Hp (conj Hwne Hw)).
      * rewrite (R_run n n_wordy p w t Hp (conj Hwne Hw) Ht).
        rewrite <- app_assoc. f_equal. apply IH; [exact Hlt|now right].
      * destruct t as [|d t]; [|exact Ht]. cbn [app].
        destruct Hx as [|e x He _]; [reflexivity|]. cbn. exact He.
    + cbn [app]. unfold R. rewrite !(R_nonword n n_wordy) by exact Hc.
      cbn [app]. f_equal. apply IH; [cbn in Hlen; lia|left; exact Hc].
Qed.

Lemma key_word o : opt_word o = true -> key o = Some 95%N.
Proof. destruct o as [c|]; [|discriminate]. cbn. now intros ->. Qed.

(** The name pass keeps the last code unit, up to [key]. *)
Lemma R_last :
  forall len s p q q',
    length s <= len ->
    opt_word p = false \/ opt_word (hd_error s) = false ->
    key q' = key q ->
    key (last_opt q' (R p 0 s)) = key (last_opt q s).
Proof.
  induction len as [|len IH]; intros s p q q' Hlen Hstart Hq.
  - destruct s; [|cbn in Hlen; lia]. unfold R. now rewrite (R_nil n n_wordy).
  - destruct s as [|c s]; [unfold R; now rewrite (R_nil n n_wordy)|].
    destruct (is_word c) eqn:Hc.
    + destruct Hstart as [Hp|Hs]; [|cbn in Hs; congruence].
      destruct (word_span (c :: s)) as (w & t & E & Hw & Ht).
      assert (Hwne : w <> []).
      { intros ->. cbn in E. subst t. cbn in Ht. congruence. }
      assert (Hlt : length t <= len).
      { apply (f_equal (@length _)) in E. rewrite length_app in E.
        cbn [length] in *. destruct w; [congruence|]. cbn [length] in E.
        lia. }
      rewrite E. unfold R.
      rewrite (R_run n n_wordy p w t Hp (conj Hwne Hw) Ht).
      rewrite !last_opt_app. apply IH; [exact Hlt|now right|].
      rewrite !key_word; [reflexivity| |].
      * now apply last_opt_word.
      * destruct (str_eqb w n).
        -- apply last_opt_word; [discriminate|repeat constructor].
        -- now apply last_opt_word.
    + unfold R. rewrite (R_nonword n n_wordy) by exact Hc.
      cbn [last_opt]. apply IH; [cbn in Hlen; lia|left; exact Hc|reflexivity].
Qed.

(** The name pass keeps the end of a text out of the semicolon's way. *)
Lemma R_end c :
  match last_opt None c with
  | Some l => is_space l = false /\ l <> 59%N
  | None => True
  end ->
  match last_opt None (replaceAll (namedPattern n) PLACEHOLDER c) with
  | Some l => is_space l = false /\ l <> 59%N
  | None => True
  end.
Proof.
  intros H. rewrite namedPattern_eq. unfold replaceAll.
  pose proof (R_last (length c) c None None None (le_n _)
                (or_introl eq_refl) eq_refl) as K.
  unfold R in K.
  destruct (last_opt None (replaceAll_from (re_whole_word n) PLACEHOLDER
                             None 0 c)) as [l'|]; [|exact I].
  unfold key in K.
  destruct (last_opt None c) as [l|];
    [|destruct (is_word l'); discriminate].
  destruct (is_word l') eqn:W'.
  - split; [now apply is_word_not_space|].
    intros ->. vm_compute in W'. discriminate.
  - destruct (is_word l) eqn:W; injection K as ->.
    + vm_compute in W'. discriminate.
    + exact H.
Qed.
End Suffix.

Lemma span_len_full f s :
  span_len f s = length s -> Forall (fun c => f c = true) s.
Proof.
  induction s as [|c s IH]; [constructor|]. cbn [span_len length].
  destruct (f c) eqn:E; [|discriminate]. intros [= H]. auto.
Qed.

(** A match of the semicolon pattern: white space, the semicolon, white
    space, and the end. *)
Lemma re_trailing_semicolon_match p b k :
  re_trailing_semicolon p b = Some k ->
  exists w r,
    b = w ++ 59%N :: r
    /\ Forall (fun c => is_space c = true) w
    /\ Forall (fun c => is_space c = true) r.
Proof.
  unfold re_trailing_semicolon.
  destruct (span_dec is_space b) as (w & t & -> & Hw & -> & ->).
  destruct t as [|c r]; [discriminate|].
  destruct (N.eqb_spec c 59) as [->|]; [|discriminate].
  destruct (Nat.eqb_spec (span_len is_space r) (length r)) as [E|];
    [|discriminate].
  intros _. exists w, r. split; [reflexivity|]. split; [exact Hw|].
  now apply span_len_full.
Qed.

Lemma semicolon_match_end p b k :
  re_trailing_semicolon p b = Some k ->
  exists l, last_opt None b = Some l /\ (is_space l = true \/ l = 59%N).
Proof.
  intros H. apply re_trailing_semicolon_match in H as (w & r & -> & _ & Hr).
  rewrite last_opt_app. cbn [last_opt].
  destruct r as [|d r]; [exists 59%N; auto|].
  destruct (last_opt_Forall _ (Some 59%N) (d :: r) ltac:(discriminate) Hr)
    as (l & E & Hl).
  exists l. auto.
Qed.

(** The semicolon pass finds nothing in a text that ends neither in
    white space nor in a semicolon. *)
Lemma semicolon_nothing d :
  match last_opt None d with
  | Some l => is_space l = false /\ l <> 59%N
  | None => True
  end ->
  replaceFirst re_trailing_semicolon [] d = d.
Proof.
  intros H. unfold replaceFirst.
  destruct (replaceFirst_from_spec re_trailing_semicolon [] None d)
    as [E|(a & b & k & -> & Hm & _)]; [exact E|].
  exfalso. apply semicolon_match_end in Hm as (l & El & Hl).
  rewrite last_opt_app in H.
  destruct b as [|c b]; [discriminate El|].
  rewrite (last_opt_cons _ None) in H. rewrite El in H.
  destruct H as [H1 H2]. destruct Hl as [Hl|Hl]; congruence.
Qed.

(** [replace] takes the leftmost match. *)
Lemma replaceFirst_from_leftmost m r a :
  forall p b k,
    (forall a1 a2, a = a1 ++ a2 -> a2 <> [] ->
                   m (last_opt p a1) (a2 ++ b) = None) ->
    m (last_opt p a) b = Some k ->
    replaceFirst_from m r p (a ++ b) = a ++ r ++ skipn k b.
Proof.
  induction a as [|c a IH]; intros p b k Hno Hm.
  - cbn [app last_opt] in *. now apply replaceFirst_from_match.
  - cbn [app]. cbn [replaceFirst_from].
    assert (E : m p (c :: a ++ b) = None)
      by (apply (Hno [] (c :: a) eq_refl); discriminate).
    rewrite E. f_equal. apply IH; [|exact Hm].
    intros a1 a2 E2 Hne. apply (Hno (c :: a1) a2); [now rewrite E2|exact Hne].
Qed.

(** The semicolon pass takes a semicolon at the end away, with the
    white space before it. *)
Lemma semicolon_stripped d w :
  match last_opt None d with
  | Some l => is_space l = false /\ l <> 59%N
  | None => True
  end ->
  Forall (fun c => is_space c = true) w ->
  replaceFirst re_trailing_semicolon [] (d ++ w ++ [59%N : char]) = d.
Proof.
  intros H Hw. unfold replaceFirst.
  rewrite (replaceFirst_from_leftmost _ _ d None (w ++ [59%N : char])
             (length (w ++ [59%N : char]))).
  - now rewrite skipn_all, app_nil_r.
  - intros a1 a2 -> Hne.
    destruct (re_trailing_semicolon _ (a2 ++ w ++ [59%N : char])) eqn:Hm;
      [exfalso|reflexivity].
    apply re_trailing_semicolon_match in Hm as (sp & r & E & Hsp & Hr).
    assert (Er : r = []).
    { destruct r as [|x r _] using rev_ind; [reflexivity|]. exfalso.
      rewrite !app_assoc in E. rewrite app_comm_cons, app_assoc in E.
      apply app_inj_tail in E as [_ <-].
      apply Forall_app in Hr as [_ Hr]. now inversion Hr. }
    subst r. rewrite app_assoc in E. apply app_inj_tail in E as [E _].
    rewrite <- E in Hsp. apply Forall_app in Hsp as [Ha2 _].
    rewrite last_opt_app in H.
    destruct (last_opt_Forall _ (last_opt None a1) a2 Hne Ha2)
      as (l & El & Hl).
    rewrite El in H. destruct H. congruence.
  - unfold re_trailing_semicolon.
    rewrite span_len_app by exact Hw. cbn [span_len].
    change (is_space 59%N) with false. cbn iota.
    rewrite Nat.add_0_r, skipn_length_app. reflexivity.
Qed.

(** X30.  A semicolon at the end does not change the fingerprint: for a
    name of letters, digits and underscores, and a snippet whose comments
    are complete, that holds none of the words [interface], [export] and
    [const] and whose compact form does not end in a semicolon already,
    [<snippet>;] and [<snippet>] have the same fingerprint. *)
Theorem trailing_semicolon_is_ignored (s n : str) :
  wordy n -> settled s ->
  ~ In (js "interface") (words s) ->
  ~ In (js "export") (words s) ->
  ~ In (js "const") (words s) ->
  last_opt None (normalizeWhitespace s) <> Some 59%N ->
  normalizeShape (s ++ js ";") n = normalizeShape s n.
Proof.
  intros Hn Hs Hi He Hc Hlast.
  assert (W : words (s ++ js ";") = words s).
  { rewrite words_app by now right. change (words (js ";")) with (@nil str).
    apply app_nil_r. }
  assert (Quiet : forall t kw,
             words t = words s -> ~ In kw (words s) ->
             kw <> PLACEHOLDER ->
             ~ In kw (words (replaceAll (namedPattern n) PLACEHOLDER
                               (normalizeWhitespace t)))).
  { intros t kw Et Hkw Hp H.
    rewrite (words_replace_name n Hn) in H.
    apply in_map_iff in H as (v & E & Hv).
    apply words_normalizeWhitespace in Hv. rewrite Et in Hv.
    destruct (str_eqb v n); [congruence|]. subst v. now apply Hkw. }
  assert (Pass : forall t,
             words t = words s ->
             normalizeShape t n
             = replaceFirst re_trailing_semicolon []
                 (replaceAll (namedPattern n) PLACEHOLDER
                    (normalizeWhitespace t))).
  { intros t Et. unfold normalizeShape.
    rewrite no_interface_no_rewrite
      by (apply (Quiet t); [exact Et|exact Hi|discriminate]).
    rewrite no_export_no_strip
      by (apply (Quiet t); [exact Et|exact He|discriminate]).
    rewrite no_const_no_rewrite
      by (apply (Quiet t); [exact Et|exact Hc|discriminate]).
    reflexivity. }
  rewrite (Pass _ W), (Pass s eq_refl).
  destruct (normalizeWhitespace_semicolon s Hs) as (w & Hw & E).
  change (js ";") with [59%N : char]. rewrite E.
  assert (L : opt_space (last_opt None (normalizeWhitespace s)) = false)
    by (rewrite normalizeWhitespace_eq; apply trimEnd_last).
  set (c := normalizeWhitespace s) in *.
  assert (Hend : match last_opt None c with
                 | Some l => is_space l = false /\ l <> 59%N
                 | None => True
                 end).
  { destruct (last_opt None c) as [l|]; [|exact I].
    split; [exact L|]. intros ->. now destruct Hlast. }
  assert (A : replaceAll (namedPattern n) PLACEHOLDER (c ++ w ++ [59%N : char])
              = replaceAll (namedPattern n) PLACEHOLDER c ++ w ++ [59%N : char]).
  { rewrite namedPattern_eq. unfold replaceAll.
    apply (R_append n Hn) with (len := length c); [|apply le_n|now left].
    apply Forall_app. split; [|repeat constructor].
    eapply Forall_impl; [|exact Hw]. apply is_space_not_word. }
  rewrite A.
  pose proof (R_end n Hn c Hend) as Hd.
  now rewrite (semicolon_stripped _ w Hd Hw), (semicolon_nothing _ Hd).
Qed.

Lemma trailing_semicolon_is_ignored_witness :
  let s := js "type Foo = { bar: string }" in
  wordy (js "Foo") /\ settled s
  /\ ~ In (js "interface") (words s)
  /\ ~ In (js "export") (words s)
  /\ ~ In (js "const") (words s)
  /\ last_opt None (normalizeWhitespace s) <> Some 59%N
  /\ normalizeShape (s ++ js ";") (js "Foo") = normalizeShape s (js "Foo").
Proof.
  intros s.
  assert (H1 : wordy (js "Foo")) by (split; [discriminate|repeat constructor]).
  assert (H2 : settled s).
  { apply text_units. vm_compute.
    repeat (constructor; [split; [reflexivity|discriminate]|]).
    constructor. }
  assert (H3 : ~ In (js "interface") (words s)).
  { vm_compute. intros H. repeat (destruct H as [H|H]; [discriminate|]).
    exact H. }
  assert (H4 : ~ In (js "export") (words s)).
  { vm_compute. intros H. repeat (destruct H as [H|H]; [discriminate|]).
    exact H. }
  assert (H5 : ~ In (js "const") (words s)).
  { vm_compute. intros H. repeat (destruct H as [H|H]; [discriminate|]).
    exact H. }
  assert (H6 : last_opt None (normalizeWhitespace s) <> Some 59%N)
    by (vm_compute; discriminate).
  split; [exact H1|split; [exact H2|split; [exact H3|split; [exact H4|
    split; [exact H5|split; [exact H6|]]]]]].
  exact (trailing_semicolon_is_ignored s (js "Foo") H1 H2 H3 H4 H5 H6).
Defined.
